(** * GSKY tile pipeline: tile indexer, band-math complexity check, 8-bit scaler

    A shallow embedding of
      - [utils/raster_scaler_new.go]   (scaleNew),
      - [utils/config.go]              (CheckBandExpressionsComplexity),
      - [processor/tile_indexer.go]    (TileIndexer.Run, URLIndexGet,
                                        doSelectionByIndices, doSelectionByRange,
                                        sendError, checkCancellation),
    together with the properties of the pipeline specification that concern
    them.

    Conventions.
      - Go's fixed-width integers are [Z] with the wrap-around written out
        ([wrapK]); [int] is the 64-bit [KInt].
      - [float32] and [float64] are [spec_float] values of the IEEE-754
        formats (24,128) and (53,1024); arithmetic is the correctly rounded
        arithmetic of [SpecFloat].
      - A run-time panic is an explicit outcome, as is a returned [error].
      - Slices that the code shares or overwrites live in an explicit heap of
        backing arrays.
      - What the Go run time or a library leaves open (the result of an
        out-of-range float-to-integer conversion, the iteration order of a
        map, the order [sort.Slice] leaves equal elements in, the permutation
        of [rand.Shuffle]) is a field of an environment record, so every
        statement quantifies over it. *)

From Stdlib Require Import ZArith List Bool Lia String Ascii.
From Stdlib Require Import QArith Qround DecimalString.
From Stdlib Require Import Permutation Sorted.
From Stdlib Require Import Floats.SpecFloat.
Import ListNotations.
Open Scope string_scope.
Open Scope list_scope.
Open Scope Z_scope.

(* ================================================================== *)
(** * Part I. Definitions                                              *)
(* ================================================================== *)

(** ** Outcomes of a Go call *)

(** A call returns a value, returns a non-nil [error] of type [X], or
    panics. *)
Inductive Outcome (X A : Type) : Type :=
| Ok (a : A)
| Err (e : X)
| Panic (msg : string).
Arguments Ok {X A} a.
Arguments Err {X A} e.
Arguments Panic {X A} msg.

Definition is_Ok {X A} (o : Outcome X A) : bool :=
  match o with Ok _ => true | _ => false end.

Definition is_Panic {X A} (o : Outcome X A) : bool :=
  match o with Panic _ => true | _ => false end.

Definition bind {X A B} (o : Outcome X A) (k : A -> Outcome X B)
  : Outcome X B :=
  match o with
  | Ok a => k a
  | Err e => Err e
  | Panic m => Panic m
  end.

Notation "'let*' x ':=' o 'in' k" := (bind o (fun x => k))
  (at level 10, x pattern, o at level 100, k at level 200).

Definition idx_panic : string := "runtime error: index out of range".
Definition nil_panic : string :=
  "runtime error: invalid memory address or nil pointer dereference".

(** [l[i]] for a Go [int] index. *)
Definition index {X A} (l : list A) (i : Z) : Outcome X A :=
  if i <? 0 then Panic idx_panic
  else match nth_error l (Z.to_nat i) with
       | Some x => Ok x
       | None => Panic idx_panic
       end.

Definition len {A} (l : list A) : Z := Z.of_nat (List.length l).

(** [len(s)] for a string. *)
Definition strlen (s : string) : Z := Z.of_nat (String.length s).

(** ** Go numerics *)

Module GoNum.

Inductive IntKind := KInt8 | KUint8 | KInt16 | KUint16 | KInt.

Definition bits (k : IntKind) : Z :=
  match k with
  | KInt8 | KUint8 => 8
  | KInt16 | KUint16 => 16
  | KInt => 64
  end.

Definition signed (k : IntKind) : bool :=
  match k with
  | KInt8 | KInt16 | KInt => true
  | KUint8 | KUint16 => false
  end.

Definition min_of (k : IntKind) : Z :=
  if signed k then - 2 ^ (bits k - 1) else 0.

Definition max_of (k : IntKind) : Z :=
  if signed k then 2 ^ (bits k - 1) - 1 else 2 ^ bits k - 1.

Definition in_range (k : IntKind) (z : Z) : bool :=
  (min_of k <=? z) && (z <=? max_of k).

(** Two's-complement wrap-around of an integer result to its type. *)
Definition wrapK (k : IntKind) (z : Z) : Z :=
  if signed k
  then (z + 2 ^ (bits k - 1)) mod 2 ^ bits k - 2 ^ (bits k - 1)
  else z mod 2 ^ bits k.

(** *** The two floating-point formats *)

Definition float32 := spec_float.
Definition float64 := spec_float.

Definition f32_of_Z (z : Z) : float32 := binary_normalize 24 128 z 0 false.
Definition f64_of_Z (z : Z) : float64 := binary_normalize 53 1024 z 0 false.

Definition f32_add := SFadd 24 128.
Definition f32_sub := SFsub 24 128.
Definition f32_mul := SFmul 24 128.
Definition f32_div := SFdiv 24 128.

Definition f64_add := SFadd 53 1024.
Definition f64_sub := SFsub 53 1024.
Definition f64_mul := SFmul 53 1024.
Definition f64_div := SFdiv 53 1024.

(** [float64(x)] for a [float32] x is exact; [float32(x)] for a [float64]
    x rounds to nearest even. *)
Definition f64_of_f32 (f : float32) : float64 :=
  match f with
  | S754_finite s m e => binary_normalize 53 1024 (cond_Zopp s (Zpos m)) e s
  | _ => f
  end.

Definition f32_of_f64 (f : float64) : float32 :=
  match f with
  | S754_finite s m e => binary_normalize 24 128 (cond_Zopp s (Zpos m)) e s
  | _ => f
  end.

Definition f_zero : spec_float := S754_zero false.

(** The untyped constant [0.1] at type [float32]. *)
Definition f32_0_1 : float32 := f32_div (f32_of_Z 1) (f32_of_Z 10).

(** The untyped constant [1e-06] at type [float64]. *)
Definition f64_1e_6 : float64 := f64_div (f64_of_Z 1) (f64_of_Z 1000000).

(** Comparison operators of Go on floats ([==], [<], [<=], [>], [>=]);
    every comparison with a NaN is false. *)
Definition f_eq (a b : spec_float) : bool := SFeqb a b.
Definition f_lt (a b : spec_float) : bool := SFltb a b.
Definition f_le (a b : spec_float) : bool := SFleb a b.
Definition f_gt (a b : spec_float) : bool := SFltb b a.
Definition f_ge (a b : spec_float) : bool := SFleb b a.

(** Integer part of a finite float, fraction discarded. *)
Definition trunc_Z (f : spec_float) : option Z :=
  match f with
  | S754_zero _ => Some 0
  | S754_finite s m e =>
      Some (cond_Zopp s
              (match e with
               | Zneg p => Z.shiftr (Zpos m) (Zpos p)
               | _ => Z.shiftl (Zpos m) e
               end))
  | _ => None
  end.

Definition floor_Z (f : spec_float) : option Z :=
  match f with
  | S754_zero _ => Some 0
  | S754_finite s m e =>
      match e with
      | Zneg p =>
          let q := Z.shiftr (Zpos m) (Zpos p) in
          let exact := Z.shiftl q (Zpos p) =? Zpos m in
          Some (if s then (if exact then - q else - q - 1) else q)
      | _ => Some (cond_Zopp s (Z.shiftl (Zpos m) e))
      end
  | _ => None
  end.

(** [math.Floor] on [float64]. *)
Definition math_Floor (f : float64) : float64 :=
  match f with
  | S754_finite s _ _ =>
      match floor_Z f with
      | Some 0 => S754_zero s
      | Some z => f64_of_Z z
      | None => f
      end
  | _ => f
  end.

Definition is_nan (f : spec_float) : bool :=
  match f with S754_nan => true | _ => false end.

Definition is_inf (f : spec_float) (neg : bool) : bool :=
  match f with S754_infinity s => Bool.eqb s neg | _ => false end.

Definition signbit (f : spec_float) : bool :=
  match f with
  | S754_zero s | S754_infinity s | S754_finite s _ _ => s
  | S754_nan => false
  end.

(** [math.Max] and [math.Min] with their special cases. *)
Definition math_Max (x y : float64) : float64 :=
  if is_inf x false || is_inf y false then S754_infinity false
  else if is_nan x || is_nan y then S754_nan
  else if f_eq x f_zero && f_eq x y then (if signbit x then y else x)
  else if f_gt x y then x else y.

Definition math_Min (x y : float64) : float64 :=
  if is_inf x true || is_inf y true then S754_infinity true
  else if is_nan x || is_nan y then S754_nan
  else if f_eq x f_zero && f_eq x y then (if signbit x then x else y)
  else if f_lt x y then x else y.

Definition math_Abs (x : float64) : float64 := SFabs x.

(** Conversion of a float to an integer type: truncation towards zero when
    the result is representable; otherwise the language leaves the result
    to the implementation, here [undef]. *)
Definition f2i (undef : IntKind -> spec_float -> Z) (k : IntKind)
           (f : spec_float) : Z :=
  match trunc_Z f with
  | Some z => if in_range k z then z else wrapK k (undef k f)
  | None => wrapK k (undef k f)
  end.

(** Integer division [a / b] at type [k]: a run-time panic on a zero
    divisor, the quotient truncated towards zero otherwise. *)
Definition int_div {X} (k : IntKind) (a b : Z) : Outcome X Z :=
  if b =? 0 then Panic "runtime error: integer divide by zero"
  else Ok (wrapK k (Z.quot a b)).

End GoNum.
Import GoNum.

(** ** The heap of backing arrays *)

Inductive Buffer :=
| IntBuf (l : list Z)
| F32Buf (l : list float32).

Definition addr := nat.
Definition Heap := list Buffer.

Definition heap_ints (h : Heap) (a : addr) : option (list Z) :=
  match nth_error h a with
  | Some (IntBuf l) => Some l
  | _ => None
  end.

Definition heap_f32s (h : Heap) (a : addr) : option (list float32) :=
  match nth_error h a with
  | Some (F32Buf l) => Some l
  | _ => None
  end.

Fixpoint list_set {A} (l : list A) (i : nat) (x : A) : option (list A) :=
  match l, i with
  | [], _ => None
  | _ :: tl, O => Some (x :: tl)
  | y :: tl, S i' =>
      match list_set tl i' x with
      | Some tl' => Some (y :: tl')
      | None => None
      end
  end.

Definition read_int (h : Heap) (a : addr) (i : nat) : option Z :=
  match heap_ints h a with
  | Some l => nth_error l i
  | None => None
  end.

Definition read_f32 (h : Heap) (a : addr) (i : nat) : option float32 :=
  match heap_f32s h a with
  | Some l => nth_error l i
  | None => None
  end.

(** [buf[i] = c] on the byte array at address [a]; [None] is the
    index-out-of-range panic. *)
Definition write_int (h : Heap) (a : addr) (i : nat) (c : Z) : option Heap :=
  match heap_ints h a with
  | Some l =>
      match list_set l i c with
      | Some l' => list_set h a (IntBuf l')
      | None => None
      end
  | None => None
  end.

(** [make([]uint8, n)]: a fresh zeroed array at the next free address. *)
Definition make_bytes (h : Heap) (n : Z) : Outcome string (Heap * addr) :=
  if n <? 0 then Panic "runtime error: makeslice: len out of range"
  else Ok (h ++ [IntBuf (repeat 0 (Z.to_nat n))], List.length h).

(** ** The scaler ([utils/raster_scaler_new.go]) *)

Module Scaler.

(** What the scaler takes from outside its file: the result of
    out-of-range float-to-integer conversions, and the helper [normalise]
    of the logarithmic colour scale. *)
Record Env := {
  conv_undef : IntKind -> spec_float -> Z;
  normalise : float64 -> Z -> float64 -> float64
}.

Record ScaleParams := {
  Offset : float64;
  Scale : float64;
  Clip : float64;
  ColourScale : Z
}.

(** The fields shared by every raster type; [Data] is the address of the
    slice's backing array. *)
Record RasterFields := {
  NameSpace : string;
  Data : addr;
  Height : Z;
  Width : Z;
  NoData : float64
}.

(** The implementations of the [Raster] interface that [scaleNew]
    switches on, and any other one. *)
Inductive Raster :=
| SignedByteRaster (t : RasterFields)
| ByteRaster (t : RasterFields)
| Int16Raster (t : RasterFields)
| UInt16Raster (t : RasterFields)
| Float32Raster (t : RasterFields)
| OtherRaster.

(** [steps := 256] *)
Definition steps : Z := 256.

(** [T(steps) - 1] at the integer type [k]. *)
Definition steps_minus_1 (k : IntKind) : Z := wrapK k (wrapK k steps - 1).

(** The first loop of a branch: minimum and maximum of the samples that
    differ from [noData]; [minVal] and [maxVal] start at zero and are
    (re)initialised only at index 0. *)
Fixpoint minmax_int (noData : Z) (i : nat) (data : list Z)
         (mm : float32 * float32) : float32 * float32 :=
  match data with
  | [] => mm
  | value :: rest =>
      let mm' :=
        if value =? noData then mm
        else
          let val := f32_of_Z value in
          if Nat.eqb i 0 then (val, val)
          else
            let minVal := if f_lt val (fst mm) then val else fst mm in
            let maxVal := if f_gt val (snd mm) then val else snd mm in
            (minVal, maxVal)
      in
      minmax_int noData (S i) rest mm'
  end.

Fixpoint minmax_f32 (E : Env) (colourScale : Z) (noData64 : float64)
         (noData : float32) (i : nat) (data : list float32)
         (mm : float32 * float32) : float32 * float32 :=
  match data with
  | [] => mm
  | value :: rest =>
      let upd (value : float32) :=
        if Nat.eqb i 0 then (value, value)
        else
          let minVal := if f_lt value (fst mm) then value else fst mm in
          let maxVal := if f_gt value (snd mm) then value else snd mm in
          (minVal, maxVal) in
      let mm' :=
        if f_eq value noData then mm
        else if colourScale >? 0 then
          let v := normalise E (f64_of_f32 value) colourScale noData64 in
          if f_eq v noData64 then mm else upd (f32_of_f64 v)
        else upd value
      in
      minmax_f32 E colourScale noData64 noData (S i) rest mm'
  end.

Definition auto_range (params : ScaleParams) : bool :=
  f_eq (Clip params) f_zero && f_eq (Offset params) f_zero.

(** [if minVal == maxVal { maxVal += 0.1 }] *)
Definition widen (mm : float32 * float32) : float32 * float32 :=
  if f_eq (fst mm) (snd mm) then (fst mm, f32_add (snd mm) f32_0_1) else mm.

(** [offset] and [clip] of an integer branch, after the optional
    derivation from the data. *)
Definition offset_clip_int (E : Env) (k : IntKind) (params : ScaleParams)
           (noData : Z) (data : list Z) : Z * Z :=
  if auto_range params then
    let mm := widen (minmax_int noData 0 data (f_zero, f_zero)) in
    (f2i (conv_undef E) k (fst mm), f2i (conv_undef E) k (snd mm))
  else
    (f2i (conv_undef E) k (Offset params), f2i (conv_undef E) k (Clip params)).

Definition offset_clip_f32 (E : Env) (params : ScaleParams)
           (noData64 : float64) (noData : float32) (data : list float32)
  : float32 * float32 :=
  if auto_range params then
    widen (minmax_f32 E (ColourScale params) noData64 noData 0 data
                      (f_zero, f_zero))
  else (f32_of_f64 (Offset params), f32_of_f64 (Clip params)).

(** [trange := clip - offset] at the integer type [k]. *)
Definition trange_int (k : IntKind) (oc : Z * Z) : Z :=
  wrapK k (snd oc - fst oc).

(** One sample of an integer branch:
    [uint8(math.Floor(float64((value - clip) / trange * (T(steps) - 1))))] *)
Definition scale_int_px (E : Env) (k : IntKind) (noData clip trange : Z)
           (value : Z) : Outcome string Z :=
  if value =? noData then Ok 255
  else
    let value := if value >? clip then clip else value in
    match int_div k (wrapK k (value - clip)) trange with
    | Ok q =>
        let m := wrapK k (q * steps_minus_1 k) in
        Ok (f2i (conv_undef E) KUint8 (math_Floor (f64_of_Z m)))
    | Err m => Err m
    | Panic m => Panic m
    end.

(** One sample of the [Float32] branch. The two guards on [c] compare a
    [uint8] with 0 and 255. *)
Definition scale_f32_px (E : Env) (colourScale : Z) (noData64 : float64)
           (noData clip trange : float32) (value : float32) : Z :=
  if f_eq value noData then 255
  else
    let scaled (value : float32) :=
      let c := f2i (conv_undef E) KUint8
                   (math_Floor
                      (f64_of_f32
                         (f32_mul (f32_div (f32_sub value clip) trange)
                                  (f32_sub (f32_of_Z steps) (f32_of_Z 1))))) in
      if c <? 0 then 255 else if c >? 255 then 255 else c in
    if colourScale >? 0 then
      let v := normalise E (f64_of_f32 value) colourScale noData64 in
      if f_eq v noData64 then 255 else scaled (f32_of_f64 v)
    else scaled value.

(** The second loop of an integer branch, [n] iterations from index [i]:
    sample [i] is read from the array at [src] and its scaled value is
    stored at index [i] of the array at [dst]. *)
Fixpoint scale_int_loop (E : Env) (k : IntKind) (noData clip trange : Z)
         (src dst : addr) (n i : nat) (h : Heap) : Heap * option string :=
  match n with
  | O => (h, None)
  | S n' =>
      match read_int h src i with
      | None => (h, Some idx_panic)
      | Some value =>
          match scale_int_px E k noData clip trange value with
          | Ok c =>
              match write_int h dst i c with
              | Some h' =>
                  scale_int_loop E k noData clip trange src dst n' (S i) h'
              | None => (h, Some idx_panic)
              end
          | Err m | Panic m => (h, Some m)
          end
      end
  end.

Fixpoint scale_f32_loop (E : Env) (colourScale : Z) (noData64 : float64)
         (noData clip trange : float32)
         (src dst : addr) (n i : nat) (h : Heap) : Heap * option string :=
  match n with
  | O => (h, None)
  | S n' =>
      match read_f32 h src i with
      | None => (h, Some idx_panic)
      | Some value =>
          let c := scale_f32_px E colourScale noData64 noData clip trange
                                value in
          match write_int h dst i c with
          | Some h' =>
              scale_f32_loop E colourScale noData64 noData clip trange
                             src dst n' (S i) h'
          | None => (h, Some idx_panic)
          end
      end
  end.

Definition finish (t : RasterFields) (data : addr)
           (r : Heap * option string) : Heap * Outcome string RasterFields :=
  match snd r with
  | None =>
      (fst r, Ok {| NameSpace := NameSpace t; Data := data;
                    Height := Height t; Width := Width t;
                    NoData := NoData t |})
  | Some m => (fst r, Panic m)
  end.

Definition ill_typed : string := "raster data is not of the raster's element type".

(** A branch that allocates its output ([SignedByte], [Int16], [UInt16]). *)
Definition scale_int_fresh (E : Env) (k : IntKind) (h : Heap)
           (t : RasterFields) (params : ScaleParams)
  : Heap * Outcome string RasterFields :=
  match make_bytes h (wrapK KInt (Height t * Width t)) with
  | Ok (h1, out) =>
      match heap_ints h1 (Data t) with
      | Some data =>
          let noData := f2i (conv_undef E) k (NoData t) in
          let oc := offset_clip_int E k params noData data in
          finish t out
                 (scale_int_loop E k noData (snd oc) (trange_int k oc)
                                 (Data t) out (List.length data) 0 h1)
      | None => (h1, Panic ill_typed)
      end
  | Err m => (h, Err m)
  | Panic m => (h, Panic m)
  end.

(** The [Byte] branch: no allocation, the scaled values are stored into
    [t.Data] itself and the result refers to [t.Data]. *)
Definition scale_byte (E : Env) (h : Heap) (t : RasterFields)
           (params : ScaleParams) : Heap * Outcome string RasterFields :=
  match heap_ints h (Data t) with
  | Some data =>
      let noData := f2i (conv_undef E) KUint8 (NoData t) in
      let oc := offset_clip_int E KUint8 params noData data in
      finish t (Data t)
             (scale_int_loop E KUint8 noData (snd oc) (trange_int KUint8 oc)
                             (Data t) (Data t) (List.length data) 0 h)
  | None => (h, Panic ill_typed)
  end.

Definition scale_float32 (E : Env) (h : Heap) (t : RasterFields)
           (params : ScaleParams) : Heap * Outcome string RasterFields :=
  match make_bytes h (wrapK KInt (Height t * Width t)) with
  | Ok (h1, out) =>
      match heap_f32s h1 (Data t) with
      | Some data =>
          let noData := f32_of_f64 (NoData t) in
          let oc := offset_clip_f32 E params (NoData t) noData data in
          let trange := f32_sub (snd oc) (fst oc) in
          finish t out
                 (scale_f32_loop E (ColourScale params) (NoData t) noData
                                 (snd oc) trange
                                 (Data t) out (List.length data) 0 h1)
      | None => (h1, Panic ill_typed)
      end
  | Err m => (h, Err m)
  | Panic m => (h, Panic m)
  end.

Definition scaleNew (E : Env) (h : Heap) (r : Raster) (params : ScaleParams)
  : Heap * Outcome string RasterFields :=
  match r with
  | SignedByteRaster t => scale_int_fresh E KInt8 h t params
  | ByteRaster t => scale_byte E h t params
  | Int16Raster t => scale_int_fresh E KInt16 h t params
  | UInt16Raster t => scale_int_fresh E KUint16 h t params
  | Float32Raster t => scale_float32 E h t params
  | OtherRaster => (h, Err "Raster type not implemented")
  end.

(** [ScaleNew]: the loop over the rasters. [done] holds the entries of
    [out] filled so far; the entries that are not reached stay [nil]. The
    result is the heap, [out] and how the call ends: with [nil], with the
    error of [scaleNew], or in a panic. *)
Fixpoint ScaleNew_from (E : Env) (params : ScaleParams) (rs : list Raster)
         (h : Heap) (done : list (option RasterFields))
  : Heap * list (option RasterFields) * Outcome string unit :=
  match rs with
  | [] => (h, done, Ok tt)
  | r :: tl =>
      match scaleNew E h r params with
      | (h', Ok br) => ScaleNew_from E params tl h' (done ++ [Some br])
      | (h', Err m) =>
          (h', done ++ repeat None (S (List.length tl)), Err m)
      | (h', Panic m) =>
          (h', done ++ repeat None (S (List.length tl)), Panic m)
      end
  end.

Definition ScaleNew (E : Env) (h : Heap) (rs : list Raster)
           (params : ScaleParams)
  : Heap * list (option RasterFields) * Outcome string unit :=
  ScaleNew_from E params rs h [].

(** The data of a raster, for the raster types that have one. *)
Definition fields (r : Raster) : option RasterFields :=
  match r with
  | SignedByteRaster t | ByteRaster t | Int16Raster t | UInt16Raster t
  | Float32Raster t => Some t
  | OtherRaster => None
  end.

Definition is_byte (r : Raster) : bool :=
  match r with ByteRaster _ => true | _ => false end.

(** The element type of an integer raster. *)
Definition int_kind (r : Raster) : option IntKind :=
  match r with
  | SignedByteRaster _ => Some KInt8
  | ByteRaster _ => Some KUint8
  | Int16Raster _ => Some KInt16
  | UInt16Raster _ => Some KUint16
  | Float32Raster _ | OtherRaster => None
  end.

(** [t.Height * t.Width], the length of the array a branch allocates. *)
Definition out_len (t : RasterFields) : Z := wrapK KInt (Height t * Width t).

(** The divisor [trange] of the second loop, as an integer or a float. *)
Definition divisor_int (E : Env) (k : IntKind) (h : Heap) (t : RasterFields)
           (params : ScaleParams) : option Z :=
  match heap_ints h (Data t) with
  | Some data =>
      Some (trange_int k (offset_clip_int E k params
                                          (f2i (conv_undef E) k (NoData t))
                                          data))
  | None => None
  end.

Definition divisor_f32 (E : Env) (h : Heap) (t : RasterFields)
           (params : ScaleParams) : option float32 :=
  match heap_f32s h (Data t) with
  | Some data =>
      let oc := offset_clip_f32 E params (NoData t)
                                (f32_of_f64 (NoData t)) data in
      Some (f32_sub (snd oc) (fst oc))
  | None => None
  end.

(** The exact value of a finite float. *)
Definition Q_of_float (f : spec_float) : option Q :=
  match f with
  | S754_zero _ => Some (0 # 1)%Q
  | S754_finite s m e =>
      Some (Qred (match e with
                  | Zneg p => Qmake (cond_Zopp s (Zpos m)) (2 ^ p)%positive
                  | _ => Qmake (cond_Zopp s (Zpos m) * 2 ^ e) 1
                  end))
  | _ => None
  end.

(** The mapping the specification adopts for a sample [v], in exact
    arithmetic: [floor((v - offset) / (clip - offset) * 255)], a result
    below 0 or above 255 replaced by the no-data byte 255. *)
Definition spec_linear_map (offset clip v : Q) : Z :=
  let z := Qfloor ((v - offset) / (clip - offset) * (255 # 1))%Q in
  if z <? 0 then 255 else if z >? 255 then 255 else z.

(** An environment for concrete runs: conversions that are out of range
    give 0, [normalise] is the identity. *)
Definition env0 : Env :=
  {| conv_undef := fun _ _ => 0; normalise := fun v _ _ => v |}.

(** Concrete rasters and parameters: one row of [w] samples in the array
    at address [a]. *)
Definition raster1 (a : addr) (w : Z) (noData : Z) : RasterFields :=
  {| NameSpace := "band"; Data := a; Height := 1; Width := w;
     NoData := f64_of_Z noData |}.

Definition params_auto : ScaleParams :=
  {| Offset := f_zero; Scale := f_zero; Clip := f_zero; ColourScale := 0 |}.

Definition params_0_10 : ScaleParams :=
  {| Offset := f_zero; Scale := f_zero; Clip := f64_of_Z 10;
     ColourScale := 0 |}.

End Scaler.

(** ** The band-math complexity check ([utils/config.go]) *)

Module Config.

(** Token kinds of the expression library and their [String()] names. *)
Inductive TokenKind :=
| UNKNOWN | PREFIX | NUMERIC | BOOLEAN | STRING | PATTERN | TIME
| VARIABLE | FUNCTION | SEPARATOR | ACCESSOR | COMPARATOR | LOGICALOP
| MODIFIER | CLAUSE | CLAUSE_CLOSE | TERNARY.

Definition kind_String (k : TokenKind) : string :=
  match k with
  | UNKNOWN => "UNKNOWN" | PREFIX => "PREFIX" | NUMERIC => "NUMERIC"
  | BOOLEAN => "BOOLEAN" | STRING => "STRING" | PATTERN => "PATTERN"
  | TIME => "TIME" | VARIABLE => "VARIABLE" | FUNCTION => "FUNCTION"
  | SEPARATOR => "SEPARATOR" | ACCESSOR => "ACCESSOR"
  | COMPARATOR => "COMPARATOR" | LOGICALOP => "LOGICALOP"
  | MODIFIER => "MODIFIER" | CLAUSE => "CLAUSE"
  | CLAUSE_CLOSE => "CLAUSE_CLOSE" | TERNARY => "TERNARY"
  end.

Definition is_VARIABLE (k : TokenKind) : bool :=
  match k with VARIABLE => true | _ => false end.

(** A value of type [interface{}]. *)
Inductive Dyn :=
| DNil
| DString (s : string)
| DNumber (f : float64)
| DBool (b : bool)
| DOther.

(** A value of a [token_acl] entry: [nil], a list, or anything else. *)
Inductive AclValue :=
| AclNil
| AclList (l : list Dyn)
| AclOther.

Record ExpressionToken := { Kind : TokenKind; Value : Dyn }.

(** An evaluable expression, as far as the check looks at it: the result
    of [Tokens()]. *)
Definition EvaluableExpression := list ExpressionToken.

Record BandExpressions := {
  ExprText : list string;
  Expressions : list EvaluableExpression;
  VarList : list string;
  ExprNames : list string;
  ExprVarRef : list (list string)
}.

(** [TokenACL] is a [map[string]interface{}], [VariableLookup] a
    [map[string]struct{}]; a map is the list of its entries, a key at most
    once. *)
Record BandExpressionComplexityCriteria := {
  MaxVariables : Z;
  MaxTokens : Z;
  MaxExpressions : Z;
  TokenACL : list (string * AclValue);
  VariableLookup : list string
}.

(** The errors of the check, by their message. *)
Inductive BandMathError :=
| NotEnabled                      (* user-defined band math is not enabled for this layer *)
| TooManyExpressions (n : Z)
| TooManyVariables (n : Z)
| TooManyTokens (n : Z)
| VariableNotString (v : Dyn)
| VariableNotSupported (name : string) (supported : list string)
| OperationNotSupported (v : Dyn).

Fixpoint mem_string (s : string) (l : list string) : bool :=
  match l with
  | [] => false
  | x :: tl => String.eqb s x || mem_string s tl
  end.

Fixpoint lookup {V} (k : string) (m : list (string * V)) : option V :=
  match m with
  | [] => None
  | (k', v) :: tl => if String.eqb k k' then Some v else lookup k tl
  end.

Definition tokenCount (exprs : list EvaluableExpression) : Z :=
  fold_left (fun n expr => n + len expr) exprs 0.

(** The loop over the tokens of every expression, stopping at the first
    error. *)
Fixpoint first_error {T} (check : T -> option BandMathError) (l : list T)
  : option BandMathError :=
  match l with
  | [] => None
  | x :: tl =>
      match check x with
      | Some e => Some e
      | None => first_error check tl
      end
  end.

Definition check_variable (criteria : BandExpressionComplexityCriteria)
           (token : ExpressionToken) : option BandMathError :=
  if is_VARIABLE (Kind token) then
    match Value token with
    | DString varName =>
        if mem_string varName (VariableLookup criteria) then None
        else Some (VariableNotSupported varName (VariableLookup criteria))
    | v => Some (VariableNotString v)
    end
  else None.

(** The deny-list built from an ACL entry: an element that is not a string
    is entered as the empty string. *)
Definition acl_strings (l : list Dyn) : list string :=
  map (fun v => match v with DString s => s | _ => "" end) l.

Definition check_acl (criteria : BandExpressionComplexityCriteria)
           (token : ExpressionToken) : option BandMathError :=
  match lookup (kind_String (Kind token)) (TokenACL criteria) with
  | None => None
  | Some acl =>
      let isTokenAllowed :=
        match acl with
        | AclNil => false
        | AclList t =>
            match Value token with
            | DString val => negb (mem_string val (acl_strings t))
            | _ => true
            end
        | AclOther => true
        end in
      if isTokenAllowed then None
      else Some (OperationNotSupported (Value token))
  end.

Definition CheckBandExpressionsComplexity (bandExpr : BandExpressions)
           (criteria : BandExpressionComplexityCriteria)
  : option BandMathError :=
  if len (VariableLookup criteria) =? 0 then Some NotEnabled
  else if len (Expressions bandExpr) >? MaxExpressions criteria
  then Some (TooManyExpressions (len (Expressions bandExpr)))
  else if len (VarList bandExpr) >? MaxVariables criteria
  then Some (TooManyVariables (len (VarList bandExpr)))
  else if tokenCount (Expressions bandExpr) >? MaxTokens criteria
  then Some (TooManyTokens (tokenCount (Expressions bandExpr)))
  else
    match first_error (first_error (check_variable criteria))
                      (Expressions bandExpr) with
    | Some e => Some e
    | None =>
        if len (TokenACL criteria) >? 0
        then first_error (first_error (check_acl criteria))
                         (Expressions bandExpr)
        else None
    end.

(** The same check with the first guard left out: what the numeric
    ceilings, the variable lookup and the ACL say on their own. *)
Definition passes_ceilings_and_acl (bandExpr : BandExpressions)
           (criteria : BandExpressionComplexityCriteria) : bool :=
  negb (len (Expressions bandExpr) >? MaxExpressions criteria)
  && negb (len (VarList bandExpr) >? MaxVariables criteria)
  && negb (tokenCount (Expressions bandExpr) >? MaxTokens criteria)
  && match first_error (first_error (check_acl criteria))
                       (Expressions bandExpr) with
     | None => true
     | Some _ => false
     end.

Definition has_variable (bandExpr : BandExpressions) : bool :=
  existsb (existsb (fun t => is_VARIABLE (Kind t))) (Expressions bandExpr).

(** The expression [1 + 2], and criteria of a layer that exposes no
    variable. *)
Definition expr_one_plus_two : BandExpressions :=
  {| ExprText := ["1 + 2"];
     Expressions :=
       [[ {| Kind := NUMERIC; Value := DNumber (f64_of_Z 1) |};
          {| Kind := MODIFIER; Value := DString "+" |};
          {| Kind := NUMERIC; Value := DNumber (f64_of_Z 2) |} ]];
     VarList := [];
     ExprNames := ["1 + 2"];
     ExprVarRef := [[]] |}.

Definition criteria_no_variables : BandExpressionComplexityCriteria :=
  {| MaxVariables := 10; MaxTokens := 10; MaxExpressions := 10;
     TokenACL := []; VariableLookup := [] |}.

End Config.

(** ** The tile indexer ([processor/tile_indexer.go]) *)

Module Indexer.

(** *** Time *)

(** A [time.Time] is an instant, in nanoseconds since the Unix epoch. *)
Definition Time := Z.
Definition time_Unix (t : Time) : Z := t / 1000000000.
(** [time.Unix(sec, 0)] *)
Definition time_of_Unix (sec : Z) : Time := sec * 1000000000.
Definition time_Equal (t u : Time) : bool := t =? u.
Definition time_After (t u : Time) : bool := t >? u.
Definition time_Before (t u : Time) : bool := t <? u.

(** *** Data model ([processor/types.go], [processor/tile_indexer.go]) *)

(** A pointer to a structure the indexer only hands on. *)
Definition Ref := nat.

Record ScaleParams := {
  Offset : float64;
  Scale : float64;
  Clip : float64;
  ColourScale : Z
}.

Record Mask := {
  mask_ID : string;
  mask_Value : string;
  mask_DataSource : string;
  mask_Inclusive : bool;
  mask_BitTests : list string
}.

Record ConfigPayLoad := {
  NameSpaces : list string;
  BandExpr : option Ref;
  cfg_ScaleParams : ScaleParams;
  Palette : option Ref;
  cfg_Mask : option Mask;
  ZoomLimit : float64;
  PolygonSegments : Z;
  GrpcConcLimit : Z;
  PolygonSharcConcLimit : Z;
  QueryLimit : Z;
  UserSrcGeoTransform : Z;
  UserSrcSRS : Z;
  NoReprojection : bool;
  AxisMapping : Z;
  GrpcTileXSize : float64;
  GrpcTileYSize : float64;
  IndexTileXSize : float64;
  IndexTileYSize : float64;
  SpatialExtent : list float64;
  IndexResLimit : float64;
  MasQueryHint : string;
  ReqRes : float64;
  SRSCf : Z;
  FusionUnscale : Z;
  MetricsCollector : option Ref
}.

Definition set_NameSpaces (c : ConfigPayLoad) (ns : list string)
  : ConfigPayLoad :=
  {| NameSpaces := ns; BandExpr := BandExpr c;
     cfg_ScaleParams := cfg_ScaleParams c; Palette := Palette c;
     cfg_Mask := cfg_Mask c; ZoomLimit := ZoomLimit c;
     PolygonSegments := PolygonSegments c;
     GrpcConcLimit := GrpcConcLimit c;
     PolygonSharcConcLimit := PolygonSharcConcLimit c;
     QueryLimit := QueryLimit c;
     UserSrcGeoTransform := UserSrcGeoTransform c;
     UserSrcSRS := UserSrcSRS c; NoReprojection := NoReprojection c;
     AxisMapping := AxisMapping c; GrpcTileXSize := GrpcTileXSize c;
     GrpcTileYSize := GrpcTileYSize c;
     IndexTileXSize := IndexTileXSize c;
     IndexTileYSize := IndexTileYSize c;
     SpatialExtent := SpatialExtent c; IndexResLimit := IndexResLimit c;
     MasQueryHint := MasQueryHint c; ReqRes := ReqRes c; SRSCf := SRSCf c;
     FusionUnscale := FusionUnscale c;
     MetricsCollector := MetricsCollector c |}.

(** The zero value [ConfigPayLoad{}] with the three fields the empty-tile
    granule sets. *)
Definition sentinel_payload (ns : list string) (sp : ScaleParams)
           (pal : option Ref) : ConfigPayLoad :=
  {| NameSpaces := ns; BandExpr := None; cfg_ScaleParams := sp;
     Palette := pal; cfg_Mask := None; ZoomLimit := f_zero;
     PolygonSegments := 0; GrpcConcLimit := 0; PolygonSharcConcLimit := 0;
     QueryLimit := 0; UserSrcGeoTransform := 0; UserSrcSRS := 0;
     NoReprojection := false; AxisMapping := 0; GrpcTileXSize := f_zero;
     GrpcTileYSize := f_zero; IndexTileXSize := f_zero;
     IndexTileYSize := f_zero; SpatialExtent := [];
     IndexResLimit := f_zero; MasQueryHint := ""; ReqRes := f_zero;
     SRSCf := 0; FusionUnscale := 0; MetricsCollector := None |}.

Record GeoTileIdxSelector := {
  sel_Start : option Z;
  sel_End : option Z;
  sel_Step : option Z;
  IsRange : bool;
  IsAll : bool
}.

Record GeoTileAxis := {
  ta_Start : option float64;
  ta_End : option float64;
  InValues : list float64;
  ta_Order : Z;
  ta_Aggregate : Z;
  IdxSelectors : list GeoTileIdxSelector
}.

Definition set_InValues (a : GeoTileAxis) (v : list float64) : GeoTileAxis :=
  {| ta_Start := ta_Start a; ta_End := ta_End a; InValues := v;
     ta_Order := ta_Order a; ta_Aggregate := ta_Aggregate a;
     IdxSelectors := IdxSelectors a |}.

(** [Axes] is a [map[string]*GeoTileAxis]: the list of its entries, a key
    at most once. *)
Record GeoTileRequest := {
  req_Config : ConfigPayLoad;
  Collection : string;
  req_CRS : string;
  req_BBox : list float64;
  OrigBBox : list float64;
  req_Height : Z;
  req_Width : Z;
  req_OffX : Z;
  req_OffY : Z;
  StartTime : option Time;
  EndTime : option Time;
  Axes : list (string * GeoTileAxis);
  Overview : option Ref;
  req_ClipFeature : option Ref
}.

Definition set_req (r : GeoTileRequest) (c : ConfigPayLoad)
           (st en : option Time) (ax : list (string * GeoTileAxis))
  : GeoTileRequest :=
  {| req_Config := c; Collection := Collection r; req_CRS := req_CRS r;
     req_BBox := req_BBox r; OrigBBox := OrigBBox r;
     req_Height := req_Height r; req_Width := req_Width r;
     req_OffX := req_OffX r; req_OffY := req_OffY r;
     StartTime := st; EndTime := en; Axes := ax;
     Overview := Overview r; req_ClipFeature := req_ClipFeature r |}.

Definition set_Axes (r : GeoTileRequest) (ax : list (string * GeoTileAxis))
  : GeoTileRequest :=
  set_req r (req_Config r) (StartTime r) (EndTime r) ax.

Record GeoTileGranule := {
  gran_Config : ConfigPayLoad;
  RawPath : string;
  Path : string;
  gran_CRS : string;
  SrcSRS : string;
  SrcGeoTransform : list float64;
  gran_BBox : list float64;
  DstGeoTransform : list float64;
  gran_Height : Z;
  gran_Width : Z;
  RawHeight : Z;
  RawWidth : Z;
  gran_OffX : Z;
  gran_OffY : Z;
  NameSpace : string;
  VarNameSpace : string;
  TimeStamp : float64;
  BandIdx : Z;
  gran_Polygon : string;
  RasterType : string;
  gran_GeoLocation : option Ref;
  gran_ClipFeature : option Ref
}.

Definition set_gran_Config (g : GeoTileGranule) (c : ConfigPayLoad)
  : GeoTileGranule :=
  {| gran_Config := c; RawPath := RawPath g; Path := Path g;
     gran_CRS := gran_CRS g; SrcSRS := SrcSRS g;
     SrcGeoTransform := SrcGeoTransform g; gran_BBox := gran_BBox g;
     DstGeoTransform := DstGeoTransform g; gran_Height := gran_Height g;
     gran_Width := gran_Width g; RawHeight := RawHeight g;
     RawWidth := RawWidth g; gran_OffX := gran_OffX g;
     gran_OffY := gran_OffY g; NameSpace := NameSpace g;
     VarNameSpace := VarNameSpace g; TimeStamp := TimeStamp g;
     BandIdx := BandIdx g; gran_Polygon := gran_Polygon g;
     RasterType := RasterType g; gran_GeoLocation := gran_GeoLocation g;
     gran_ClipFeature := gran_ClipFeature g |}.

Record DatasetAxis := {
  Name : string;
  Params : list float64;
  Strides : list Z;
  Shape : list Z;
  Grid : string;
  IntersectionIdx : list Z;
  IntersectionValues : list float64;
  Order : Z;
  Aggregate : Z
}.

Definition set_grid_params (a : DatasetAxis) (g : string)
           (p : list float64) : DatasetAxis :=
  {| Name := Name a; Params := p; Strides := Strides a; Shape := Shape a;
     Grid := g; IntersectionIdx := IntersectionIdx a;
     IntersectionValues := IntersectionValues a; Order := Order a;
     Aggregate := Aggregate a |}.

Definition set_order_agg (a : DatasetAxis) (o g : Z) : DatasetAxis :=
  {| Name := Name a; Params := Params a; Strides := Strides a;
     Shape := Shape a; Grid := Grid a;
     IntersectionIdx := IntersectionIdx a;
     IntersectionValues := IntersectionValues a; Order := o;
     Aggregate := g |}.

Definition set_intersection (a : DatasetAxis) (idx : list Z)
           (vals : list float64) : DatasetAxis :=
  {| Name := Name a; Params := Params a; Strides := Strides a;
     Shape := Shape a; Grid := Grid a; IntersectionIdx := idx;
     IntersectionValues := vals; Order := Order a;
     Aggregate := Aggregate a |}.

(** The elements of [Axes] and of [GDALDatasets] are the structures
    themselves: the decoded pointers are not nil. *)
Record GDALDataset := {
  ds_RawPath : string;
  DSName : string;
  ds_NameSpace : string;
  ArrayType : string;
  SRS : string;
  GeoTransform : list float64;
  TimeStamps : list Time;
  ds_Polygon : string;
  Means : list float64;
  SampleCounts : list Z;
  ds_NoData : float64;
  ds_Axes : list DatasetAxis;
  ds_GeoLocation : option Ref;
  IsOutRange : bool
}.

Definition set_ds (d : GDALDataset) (ax : list DatasetAxis) (o : bool)
  : GDALDataset :=
  {| ds_RawPath := ds_RawPath d; DSName := DSName d;
     ds_NameSpace := ds_NameSpace d; ArrayType := ArrayType d;
     SRS := SRS d; GeoTransform := GeoTransform d;
     TimeStamps := TimeStamps d; ds_Polygon := ds_Polygon d;
     Means := Means d; SampleCounts := SampleCounts d;
     ds_NoData := ds_NoData d; ds_Axes := ax;
     ds_GeoLocation := ds_GeoLocation d; IsOutRange := o |}.

Record MetadataResponse := {
  resp_Error : string;
  GDALDatasets : list GDALDataset
}.

(** *** Queries, errors, channels *)

(** The URL of a metadata query, by the values that
    [getIndexerURL] formats into it; [u_wkt] is the bounding box that
    [BBox2WKT] spells out, absent for a non-spatial query. *)
Record IndexerURL := {
  u_address : string;
  u_collection : string;
  u_time : Time;
  u_until : option Time;
  u_srs : string;
  u_wkt : option (float64 * float64 * float64 * float64);
  u_namespace : string;
  u_nseg : Z;
  u_limit : Z
}.

Inductive IndexerError :=
| ContextCancelled            (* tile indexer: context has been cancel *)
| GetFailed (url : IndexerURL) (cause : string)
| ReadBodyFailed (url : IndexerURL) (cause : string)
| JSONFailed (url : IndexerURL) (cause : string)
| NonHomogeneousAxis          (* index-based selection only supports homogeneous axis across files *)
| EmptyEnumParams (axis : string)
| UnknownGrid (grid : string)
| GridNotEnum                 (* grid type must be 'enum' for index-based selections *)
| NullStart                   (* starting index is null *)
| StartAfterEnd               (* starting index must be lower or equal to ending index *)
| BadStep                     (* indexing step must be greater or equal to 1 *)
| Foreign (msg : string).     (* an error another stage has put on the channel *)

(** What [http.Get], [ioutil.ReadAll] and [json.Unmarshal] come to. *)
Inductive HttpOutcome :=
| GetError (cause : string)
| ReadError (cause : string)
| JSONError (cause : string)
| Parsed (metadata : MetadataResponse).

(** Modelled from the spec: the shared error channel, which the caller
    of [NewTileIndexer] makes, is buffered with capacity 1 ("one buffered
    (capacity 1) error channel"). A channel is the list of the errors
    queued in it. *)
Definition ErrorCap : nat := 1.
Definition ErrChan := list IndexerError.

(** The indexer and what it has done so far: the granules sent on [Out],
    the error channel, whether the context is done, the metadata queries
    issued, and the [RawURL] recorded in each metrics collector. The
    other counters of the metrics collectors and the log are left out. *)
Record State := {
  Out : list GeoTileGranule;
  Error : ErrChan;
  ctx_done : bool;
  Queries : list IndexerURL;
  RawURL : list (Ref * IndexerURL)
}.

(** What the indexer takes from its surroundings. *)
Record Env := {
  APIAddress : string;
  EmptyTileNS : string;
  conv_undef : IntKind -> spec_float -> Z;
  (** the order in which a [range] over a map visits the entries *)
  map_order : forall A : Type, list A -> list A;
  (** [sort.Slice] does not promise to keep equal elements in place *)
  sort_order : forall A : Type, list A -> list A;
  (** [rand.Shuffle] *)
  shuffle : forall A : Type, list A -> list A;
  (** which ready case a [select] takes when the context is done and an
      error is queued *)
  select_ctx_first : bool;
  ToUpper : string -> string;
  format_time : Time -> string;
  format_float : float64 -> string;
  (** GDAL: whether a transformer from the SRS to EPSG:3857 can be
      created, and the corners it maps a bounding box to, if it can *)
  gdal_transformer : string -> bool;
  gdal_transform : string -> float64 * float64 * float64 * float64 ->
                   option (float64 * float64 * float64 * float64);
  http : IndexerURL -> HttpOutcome
}.

Definition env_ok (E : Env) : Prop :=
  (forall A (l : list A), Permutation l (map_order E A l)) /\
  (forall A (l : list A), Permutation l (sort_order E A l)) /\
  (forall A (l : list A), Permutation l (shuffle E A l)).

(** *** Strings and maps *)

Definition bytes (l : list nat) : string :=
  string_of_list_ascii (map ascii_of_nat l).

(** UTF-8 encodings of the code points that [unicode.IsSpace] accepts. *)
Definition white_space : list string :=
  map bytes
      [ [9]; [10]; [11]; [12]; [13]; [32]; [194; 133]; [194; 160];
        [225; 154; 128];
        [226; 128; 128]; [226; 128; 129]; [226; 128; 130];
        [226; 128; 131]; [226; 128; 132]; [226; 128; 133];
        [226; 128; 134]; [226; 128; 135]; [226; 128; 136];
        [226; 128; 137]; [226; 128; 138];
        [226; 128; 168]; [226; 128; 169]; [226; 128; 175];
        [226; 129; 159]; [227; 128; 128] ]%nat.

Fixpoint strip_prefix (p s : string) : option string :=
  match p, s with
  | EmptyString, _ => Some s
  | String a p', String b s' =>
      if Ascii.eqb a b then strip_prefix p' s' else None
  | String _ _, EmptyString => None
  end.

Fixpoint strip_any (ps : list string) (s : string) : option string :=
  match ps with
  | [] => None
  | p :: tl =>
      match strip_prefix p s with
      | Some s' => Some s'
      | None => strip_any tl s
      end
  end.

Fixpoint trim_left (ws : list string) (fuel : nat) (s : string) : string :=
  match fuel with
  | O => s
  | S f =>
      match strip_any ws s with
      | Some s' => trim_left ws f s'
      | None => s
      end
  end.

Definition string_rev (s : string) : string :=
  string_of_list_ascii (rev (list_ascii_of_string s)).

(** [strings.TrimSpace] *)
Definition TrimSpace (s : string) : string :=
  let l := trim_left white_space (String.length s) s in
  string_rev (trim_left (map string_rev white_space) (String.length l)
                        (string_rev l)).

(** [strings.Join] *)
Definition Join (l : list string) (sep : string) : string :=
  String.concat sep l.

Fixpoint lookup {V} (k : string) (m : list (string * V)) : option V :=
  match m with
  | [] => None
  | (k', v) :: tl => if String.eqb k k' then Some v else lookup k tl
  end.

(** [m[k] = v]: the entry is replaced in place, or added at the end. *)
Fixpoint store {V} (k : string) (v : V) (m : list (string * V))
  : list (string * V) :=
  match m with
  | [] => [(k, v)]
  | (k', v') :: tl =>
      if String.eqb k k' then (k, v) :: tl else (k', v') :: store k v tl
  end.

Definition mem_Z (x : Z) (l : list Z) : bool := existsb (Z.eqb x) l.

(** Membership in a [map[float64]struct{}]: keys are compared with [==]. *)
Definition mem_float (x : float64) (l : list float64) : bool :=
  existsb (f_eq x) l.

(** [sort.insertionSort]: the element at position [i] moves left while
    [less] holds between it and its left neighbour. [racc] is the sorted
    prefix, last element first. *)
Fixpoint sift {A} (less : A -> A -> bool) (x : A) (racc : list A)
  : list A :=
  match racc with
  | [] => [x]
  | y :: r => if less x y then y :: sift less x r else x :: y :: r
  end.

Definition insertionSort {A} (less : A -> A -> bool) (l : list A)
  : list A :=
  rev (fold_left (fun racc x => sift less x racc) l []).

(** [sort.Slice]: the slice comes out sorted, equal elements in an order
    the library does not fix. Every such outcome is the insertion sort of
    some rearrangement of the slice. *)
Definition sort_Slice (E : Env) {A} (less : A -> A -> bool) (l : list A)
  : list A :=
  insertionSort less (sort_order E A l).

(** *** sendError, checkCancellation *)

Definition chan_full (c : ErrChan) : bool :=
  (ErrorCap <=? List.length c)%nat.

(** [select { case p.Error <- err: default: }] *)
Definition chan_try_send (c : ErrChan) (err : IndexerError) : ErrChan :=
  if chan_full c then c else c ++ [err].

Definition set_Error (s : State) (c : ErrChan) : State :=
  {| Out := Out s; Error := c; ctx_done := ctx_done s;
     Queries := Queries s; RawURL := RawURL s |}.

Definition sendError (s : State) (err : IndexerError) : State :=
  set_Error s (chan_try_send (Error s) err).

(** [out <- gran] *)
Definition send (s : State) (g : GeoTileGranule) : State :=
  {| Out := Out s ++ [g]; Error := Error s; ctx_done := ctx_done s;
     Queries := Queries s; RawURL := RawURL s |}.

Definition log_query (s : State) (u : IndexerURL) : State :=
  {| Out := Out s; Error := Error s; ctx_done := ctx_done s;
     Queries := Queries s ++ [u]; RawURL := RawURL s |}.

(** The [select] of [Run] and of [checkCancellation]. *)
Inductive Selected :=
| CtxDone
| ErrReceived (err : IndexerError) (rest : ErrChan)
| Default.

Definition select_cancel (E : Env) (s : State) : Selected :=
  match Error s with
  | [] => if ctx_done s then CtxDone else Default
  | err :: rest =>
      if ctx_done s && select_ctx_first E then CtxDone
      else ErrReceived err rest
  end.

Definition checkCancellation (E : Env) (s : State) : State * bool :=
  match select_cancel E s with
  | CtxDone => (sendError s ContextCancelled, true)
  | ErrReceived err rest => (sendError (set_Error s rest) err, true)
  | Default => (s, false)
  end.

(** *** doSelectionByIndices *)

Definition Res (A : Type) := Outcome IndexerError A.

Record SelState := {
  idxLookup : list Z;
  selIdx : list Z;               (* axis.IntersectionIdx *)
  selValues : list float64       (* axis.IntersectionValues *)
}.

(** Where a loop body leaves the loop: on to the next iteration, or out
    of the function with a result. *)
Inductive Flow (S R : Type) :=
| Next (s : S)
| Return (r : R).
Arguments Next {S R} s.
Arguments Return {S R} r.

(** [for idx := idxStart; idx <= idxEnd; idx += step]. An iteration at
    a negative [idx] panics, every other one moves [idx] up or wraps it
    to a negative value, and [idxEnd] is below [len(params)]: the loop
    body runs at most [len(params) + 1] times ([fuel], see
    [range_loop_fuel]). *)
Fixpoint range_loop (fuel : nat) (params : list float64)
         (lookup : list Z) (idx idxEnd step : Z)
         (ai : list Z) (av : list float64) : Res (list Z * list float64) :=
  if idx <=? idxEnd then
    match fuel with
    | O => Panic "range_loop: out of fuel"
    | S f =>
        if mem_Z idx lookup
        then range_loop f params lookup (wrapK KInt (idx + step)) idxEnd
                        step ai av
        else
          let* v := index params idx in
          range_loop f params lookup (wrapK KInt (idx + step)) idxEnd step
                     (ai ++ [idx]) (av ++ [v])
    end
  else Ok (ai, av).

Definition or_default (o : option Z) (d : Z) : Z :=
  match o with Some z => z | None => d end.

(** The body of the loop over the selectors. *)
Definition select_one (params : list float64) (st : SelState)
           (sel : GeoTileIdxSelector) : Res (Flow SelState (SelState * bool)) :=
  if IsAll sel then
    Ok (Return ({| idxLookup := idxLookup st;
                   selIdx := map Z.of_nat (seq 0 (List.length params));
                   selValues := params |}, false))
  else if negb (IsRange sel) then
    match sel_Start sel with
    | None => Err NullStart
    | Some idx =>
        if (idx <? 0) || (idx >? len params - 1) then Ok (Return (st, true))
        else if mem_Z idx (idxLookup st) then Ok (Next st)
        else
          let* v := index params idx in
          Ok (Next {| idxLookup := idx :: idxLookup st;
                      selIdx := selIdx st ++ [idx];
                      selValues := selValues st ++ [v] |})
    end
  else
    let idxStart := or_default (sel_Start sel) 0 in
    let idxEnd := or_default (sel_End sel) (len params - 1) in
    if idxEnd >? len params - 1 then Ok (Return (st, true))
    else if idxStart >? idxEnd then Err StartAfterEnd
    else
      let step := or_default (sel_Step sel) 1 in
      if step <? 1 then Err BadStep
      else
        let* r := range_loop (S (List.length params)) params (idxLookup st)
                             idxStart idxEnd step
                             (selIdx st) (selValues st) in
        Ok (Next {| idxLookup := idxLookup st;
                    selIdx := fst r; selValues := snd r |}).

Fixpoint select_all (params : list float64) (sels : list GeoTileIdxSelector)
         (st : SelState) : Res (Flow SelState (SelState * bool)) :=
  match sels with
  | [] => Ok (Next st)
  | sel :: tl =>
      let* r := select_one params st sel in
      match r with
      | Next st' => select_all params tl st'
      | Return x => Ok (Return x)
      end
  end.

Record ArgSort := { SortIdx : Z; Val : Z }.

Definition argSort (idx : list Z) : list ArgSort :=
  map (fun p => {| SortIdx := Z.of_nat (fst p); Val := snd p |})
      (combine (seq 0 (List.length idx)) idx).

(** [for i, arg := range argSortIdx
       { newIntersectionValues[i] = axis.IntersectionValues[arg.SortIdx] }] *)
Fixpoint fill_values (args : list ArgSort) (i : nat) (vals : list float64)
         (new : list float64) : Res (list float64) :=
  match args with
  | [] => Ok new
  | arg :: tl =>
      let* v := index vals (SortIdx arg) in
      match list_set new i v with
      | Some new' => fill_values tl (S i) vals new'
      | None => Panic idx_panic
      end
  end.

(** The argsort at the end of [doSelectionByIndices]. *)
Definition sort_selection (E : Env) (st : SelState)
  : Res (list Z * list float64) :=
  let argSortIdx :=
    sort_Slice E (fun a b => Val a <=? Val b) (argSort (selIdx st)) in
  let* vals := fill_values argSortIdx 0 (selValues st)
                           (repeat f_zero (List.length (selValues st))) in
  Ok (map Val argSortIdx, vals).

(** The result is the axis as the call leaves it and [outRange]. *)
Definition doSelectionByIndices (E : Env) (axis : DatasetAxis)
           (tileAxis : GeoTileAxis) : Res (DatasetAxis * bool) :=
  if negb (Grid axis =? "enum")%string then Err GridNotEnum
  else
    let* r := select_all (Params axis) (IdxSelectors tileAxis)
                         {| idxLookup := [];
                            selIdx := IntersectionIdx axis;
                            selValues := IntersectionValues axis |} in
    match r with
    | Return (st, outRange) =>
        Ok (set_intersection axis (selIdx st) (selValues st), outRange)
    | Next st =>
        let* s := sort_selection E st in
        Ok (set_intersection axis (fst s) (snd s), false)
    end.

(** *** doSelectionByRange *)

(** [math.MaxFloat64] *)
Definition MaxFloat64 : float64 :=
  S754_finite false (2 ^ 53 - 1)%positive 971.

(** The scan of [axis.Params] for [minVal], [maxVal] and [isMonotonic]. *)
Fixpoint scan_params (rest : list float64) (iv : nat) (prev : float64)
         (st : float64 * float64 * bool) : float64 * float64 * bool :=
  match rest with
  | [] => st
  | val :: rest' =>
      let '(minVal, maxVal, isMonotonic) := st in
      let minVal := if f_lt val minVal then val else minVal in
      let maxVal := if f_gt val maxVal then val else maxVal in
      let isMonotonic :=
        if (0 <? iv)%nat && isMonotonic && f_lt val prev then false
        else isMonotonic in
      scan_params rest' (S iv) val (minVal, maxVal, isMonotonic)
  end.

(** The loop over [axis.Params] of the monotonic case; [n] is
    [len(axis.Params)], [prev] is [axis.Params[iv-1]]. *)
Fixpoint mono_loop (n nVals : nat) (inValues : list float64)
         (rest : list float64) (iv : nat) (prev : float64)
         (iVal : nat) (startVal : float64)
         (ai : list Z) (av : list float64) : Res (list Z * list float64) :=
  match rest with
  | [] => Ok (ai, av)
  | val :: rest' =>
      let valFound :=
        if (S iv <? n)%nat then f_ge val startVal
        else f_le (f64_sub startVal val) f64_1e_6 in
      if valFound then
        let back :=
          (1 <=? iv)%nat &&
          f_le (math_Abs (f64_sub startVal prev))
               (math_Abs (f64_sub startVal val)) in
        let axisIdx := if back then (iv - 1)%nat else iv in
        let axisVal := if back then prev else val in
        let ai' := ai ++ [Z.of_nat axisIdx] in
        let av' := av ++ [axisVal] in
        let iVal' := S iVal in
        if (nVals <=? iVal')%nat then Ok (ai', av')
        else
          let* sv := index inValues (Z.of_nat iVal') in
          mono_loop n nVals inValues rest' (S iv) val iVal' sv ai' av'
      else
        mono_loop n nVals inValues rest' (S iv) val iVal startVal ai av
  end.

(** The nearest-neighbour scan of the non-monotonic case. *)
Fixpoint nearest (params : list float64) (iv : nat) (val : float64)
         (st : float64 * nat * float64) : float64 * nat * float64 :=
  match params with
  | [] => st
  | pv :: rest =>
      let '(minDiff, minIdx, minPv) := st in
      let diff := math_Abs (f64_sub pv val) in
      nearest rest (S iv) val
              (if f_lt diff minDiff then (diff, iv, pv) else st)
  end.

(** The result is the axis and the request axis as the call leaves them,
    and [outRange]. *)
Definition doSelectionByRange (E : Env) (axis : DatasetAxis)
           (tileAxis : GeoTileAxis) (geoReq : GeoTileRequest)
           (ds : GDALDataset) : Res (DatasetAxis * GeoTileAxis * bool) :=
  if (Grid axis =? "enum")%string then
    match Params axis with
    | [] => Err (EmptyEnumParams (Name axis))
    | p0 :: _ =>
        let pLast := last (Params axis) p0 in
        let bareStart :=
          match ta_Start tileAxis, ta_End tileAxis with
          | Some _, None => true
          | _, _ => false
          end in
        if (0 <? len (InValues tileAxis)) || bareStart then
          let* tileAxis :=
            if len (InValues tileAxis) =? 0 then
              match ta_Start tileAxis with
              | Some s => Ok (set_InValues tileAxis (InValues tileAxis ++ [s]))
              | None => Panic nil_panic
              end
            else Ok tileAxis in
          let '(minVal, maxVal, isMonotonic) :=
            scan_params (Params axis) 0 p0 (p0, pLast, true) in
          let inValues :=
            filter (fun val =>
                      negb (f_gt (f64_sub minVal val) f64_1e_6
                            || f_gt (f64_sub val maxVal) f64_1e_6))
                   (InValues tileAxis) in
          match inValues with
          | [] => Ok (axis, tileAxis, true)
          | startVal :: _ =>
              if isMonotonic then
                let nVals := List.length inValues in
                let inValues :=
                  if (1 <? nVals)%nat
                  then sort_Slice E (fun a b => f_le a b) inValues
                  else inValues in
                let* r := mono_loop (List.length (Params axis)) nVals
                                    inValues (Params axis) 0 p0 0 startVal
                                    (IntersectionIdx axis)
                                    (IntersectionValues axis) in
                Ok (set_intersection axis (fst r) (snd r), tileAxis, false)
              else
                let picks :=
                  map (fun val =>
                         nearest (Params axis) 0 val (MaxFloat64, 0%nat, p0))
                      inValues in
                Ok (set_intersection axis
                      (IntersectionIdx axis
                         ++ map (fun p => Z.of_nat (snd (fst p))) picks)
                      (IntersectionValues axis ++ map snd picks),
                    tileAxis, false)
          end
        else
          match ta_Start tileAxis, ta_End tileAxis with
          | Some startVal, Some endVal =>
              if f_lt endVal p0 || f_gt startVal pLast
              then Ok (axis, tileAxis, true)
              else
                let hits :=
                  filter (fun p => f_ge (snd p) startVal
                                   && f_lt (snd p) endVal)
                         (combine (seq 0 (List.length (Params axis)))
                                  (Params axis)) in
                Ok (set_intersection axis
                      (IntersectionIdx axis
                         ++ map (fun p => Z.of_nat (fst p)) hits)
                      (IntersectionValues axis ++ map snd hits),
                    tileAxis, false)
          | _, _ => Ok (axis, tileAxis, false)
          end
    end
  else if (Grid axis =? "default")%string then
    match TimeStamps ds, StartTime geoReq with
    | _ :: _, None => Panic nil_panic
    | _, _ =>
        let hit (t : Time) :=
          match StartTime geoReq with
          | Some st =>
              time_Equal t st
              || match EndTime geoReq with
                 | Some en =>
                     time_Equal t en
                     || (time_After t st && time_Before t en)
                 | None => false
                 end
          | None => false
          end in
        let hits :=
          filter (fun p => hit (snd p))
                 (combine (seq 0 (List.length (TimeStamps ds)))
                          (TimeStamps ds)) in
        let idx := IntersectionIdx axis
                     ++ map (fun p => Z.of_nat (fst p)) hits in
        let vals := IntersectionValues axis
                      ++ map (fun p => f64_of_Z (time_Unix (snd p))) hits in
        Ok (set_intersection axis idx vals, tileAxis, len idx =? 0)
    end
  else Err (UnknownGrid (Grid axis)).

(** *** URLIndexGet *)

(** A call that returns nothing: it ends, or it panics. *)
Definition Exec (A : Type) := Outcome Empty_set A.

(** The empty-tile granule. *)
Definition empty_tile (E : Env) (geoReq : GeoTileRequest) : GeoTileGranule :=
  {| gran_Config :=
       sentinel_payload [EmptyTileNS E]
                        (cfg_ScaleParams (req_Config geoReq))
                        (Palette (req_Config geoReq));
     RawPath := ""; Path := "NULL"; gran_CRS := req_CRS geoReq;
     SrcSRS := ""; SrcGeoTransform := []; gran_BBox := req_BBox geoReq;
     DstGeoTransform := []; gran_Height := req_Height geoReq;
     gran_Width := req_Width geoReq; RawHeight := 0; RawWidth := 0;
     gran_OffX := req_OffX geoReq; gran_OffY := req_OffY geoReq;
     NameSpace := EmptyTileNS E; VarNameSpace := "";
     TimeStamp := f_zero; BandIdx := 0; gran_Polygon := "";
     RasterType := "Byte"; gran_GeoLocation := None;
     gran_ClipFeature := None |}.

(** [float64(t.Unix())] *)
Definition unix_f64 (t : Time) : float64 := f64_of_Z (time_Unix t).

Definition needs_time_enum (tileAxis : GeoTileAxis) : bool :=
  match ta_Start tileAxis, ta_End tileAxis with
  | Some _, None => true
  | _, _ => false
  end
  || (0 <? len (InValues tileAxis))
  || (0 <? len (IdxSelectors tileAxis)).

(** What the loops over datasets and axes carry along: the request's axes
    (which [doSelectionByRange] updates) and [axisParamsLookup]. *)
Record SelCtx := {
  reqAxes : list (string * GeoTileAxis);
  axisParamsLookup : list (string * list float64)
}.

(** The branch for an axis the request names. *)
Definition select_found (E : Env) (geoReq : GeoTileRequest)
           (ds : GDALDataset) (c : SelCtx) (axis : DatasetAxis)
           (tileAxis : GeoTileAxis) : Res (DatasetAxis * SelCtx * bool) :=
  let axis :=
    if (Name axis =? "time")%string && needs_time_enum tileAxis
    then set_grid_params axis "enum"
                         (Params axis ++ map unix_f64 (TimeStamps ds))
    else axis in
  let axis := set_order_agg axis (ta_Order tileAxis)
                            (ta_Aggregate tileAxis) in
  if 0 <? len (IdxSelectors tileAxis) then
    let* lk :=
      match lookup (Name axis) (axisParamsLookup c) with
      | None => Ok (store (Name axis) (Params axis) (axisParamsLookup c))
      | Some known =>
          if forallb (fun val => mem_float val known) (Params axis)
          then Ok (axisParamsLookup c)
          else Err NonHomogeneousAxis
      end in
    let* r := doSelectionByIndices E axis tileAxis in
    Ok (fst r, {| reqAxes := reqAxes c; axisParamsLookup := lk |}, snd r)
  else
    let* r := doSelectionByRange E axis tileAxis
                                 (set_Axes geoReq (reqAxes c)) ds in
    let '(axis', tileAxis', outRange) := r in
    Ok (axis',
        {| reqAxes := store (Name axis) tileAxis' (reqAxes c);
           axisParamsLookup := axisParamsLookup c |},
        outRange).

(** The branch for an axis the request does not name: the axis-mapping
    policy. *)
Definition select_unmapped (geoReq : GeoTileRequest) (ds : GDALDataset)
           (axis : DatasetAxis) : Res DatasetAxis :=
  if AxisMapping (req_Config geoReq) =? 0 then
    if (Grid axis =? "enum")%string then
      match Params axis with
      | [] => Err (EmptyEnumParams (Name axis))
      | p0 :: _ =>
          Ok (set_order_agg
                (set_intersection axis (IntersectionIdx axis ++ [0])
                                  (IntersectionValues axis ++ [p0]))
                1 1)
      end
    else if (Grid axis =? "default")%string then
      let* t0 := index (TimeStamps ds) 0 in
      Ok (set_order_agg
            (set_intersection axis (IntersectionIdx axis ++ [0])
                              (IntersectionValues axis ++ [unix_f64 t0]))
            1 1)
    else Err (UnknownGrid (Grid axis))
  else
    if (Grid axis =? "enum")%string then
      match Params axis with
      | [] => Err (EmptyEnumParams (Name axis))
      | _ :: _ =>
          Ok (set_intersection axis
                (IntersectionIdx axis
                   ++ map Z.of_nat (seq 0 (List.length (Params axis))))
                (IntersectionValues axis ++ Params axis))
      end
    else if (Grid axis =? "default")%string then
      Ok (set_intersection axis
            (IntersectionIdx axis
               ++ map Z.of_nat (seq 0 (List.length (TimeStamps ds))))
            (IntersectionValues axis ++ map unix_f64 (TimeStamps ds)))
    else Err (UnknownGrid (Grid axis)).

(** [for i := range axis.IntersectionIdx
       { axis.IntersectionIdx[i] *= axis.Strides[0] }] *)
Definition scale_by_stride (axis : DatasetAxis) : Res DatasetAxis :=
  match IntersectionIdx axis with
  | [] => Ok axis
  | _ :: _ =>
      let* s0 := index (Strides axis) 0 in
      Ok (set_intersection axis
            (map (fun i => wrapK KInt (i * s0)) (IntersectionIdx axis))
            (IntersectionValues axis))
  end.

(** The selection on one axis of one dataset. [isOutRange] is assigned
    only in the branch of a named axis. *)
Definition select_unscaled (E : Env) (geoReq : GeoTileRequest)
           (ds : GDALDataset) (c : SelCtx) (isOutRange : bool)
           (axis : DatasetAxis) : Res (DatasetAxis * SelCtx * bool) :=
  match lookup (Name axis) (reqAxes c) with
  | Some tileAxis => select_found E geoReq ds c axis tileAxis
  | None =>
      let* a := select_unmapped geoReq ds axis in Ok (a, c, isOutRange)
  end.

(** One axis of one dataset: selection, then the stride. *)
Definition select_axis (E : Env) (geoReq : GeoTileRequest)
           (ds : GDALDataset) (c : SelCtx) (isOutRange : bool)
           (axis : DatasetAxis) : Res (DatasetAxis * SelCtx * bool) :=
  let* r := select_unscaled E geoReq ds c isOutRange axis in
  let '(axis', c', o) := r in
  let* a := scale_by_stride axis' in
  Ok (a, c', o).

Fixpoint select_axes (E : Env) (geoReq : GeoTileRequest) (ds : GDALDataset)
         (c : SelCtx) (isOutRange : bool) (axes : list DatasetAxis)
  : Res (list DatasetAxis * SelCtx * bool) :=
  match axes with
  | [] => Ok ([], c, isOutRange)
  | axis :: tl =>
      let* r := select_axis E geoReq ds c isOutRange axis in
      let '(axis', c', o) := r in
      let* r' := select_axes E geoReq ds c' o tl in
      let '(tl', c'', o') := r' in
      Ok (axis' :: tl', c'', o')
  end.

Definition default_time_axis : DatasetAxis :=
  {| Name := "time"; Params := []; Strides := [1]; Shape := [];
     Grid := "default"; IntersectionIdx := [];
     IntersectionValues := []; Order := 0; Aggregate := 0 |}.

Definition select_dataset (E : Env) (geoReq : GeoTileRequest) (c : SelCtx)
           (ds : GDALDataset) : Res (GDALDataset * SelCtx) :=
  let axes :=
    match ds_Axes ds with
    | [] => [default_time_axis]
    | l => l
    end in
  let* r := select_axes E geoReq (set_ds ds axes (IsOutRange ds)) c false
                        axes in
  let '(axes', c', isOutRange) := r in
  Ok (set_ds ds axes' (if isOutRange then true else IsOutRange ds), c').

Fixpoint select_datasets (E : Env) (geoReq : GeoTileRequest) (c : SelCtx)
         (dss : list GDALDataset) : Res (list GDALDataset * SelCtx) :=
  match dss with
  | [] => Ok ([], c)
  | ds :: tl =>
      let* r := select_dataset E geoReq c ds in
      let* r' := select_datasets E geoReq (snd r) tl in
      Ok (fst r :: fst r', snd r')
  end.

(** **** The expansion of the selected indices into granules *)

(** What the loop over the axes of one combination accumulates. *)
Record Combo := {
  bandIdx : Z;
  aggTimeStamp : float64;
  bandTimeStamp : float64;
  namespace : string;
  isFirst : bool;
  hasNonAgg : bool
}.

Definition combo_axis (E : Env) (axis : DatasetAxis) (cnt : nat) (c : Combo)
  : Res Combo :=
  let* sel := index (IntersectionIdx axis) (Z.of_nat cnt) in
  let* v := index (IntersectionValues axis) (Z.of_nat cnt) in
  let iTimeStamp :=
    if negb (Order axis =? 0)
    then len (IntersectionIdx axis) - Z.of_nat cnt - 1
    else Z.of_nat cnt in
  let* va := index (IntersectionValues axis) iTimeStamp in
  let readableNs :=
    if (Name axis =? "time")%string
    then format_time E (time_of_Unix (f2i (conv_undef E) KInt v))
    else format_float E v in
  Ok {| bandIdx := wrapK KInt (bandIdx c + sel);
        aggTimeStamp := f64_add (aggTimeStamp c) va;
        bandTimeStamp := f64_add (bandTimeStamp c) v;
        namespace :=
          if Aggregate axis =? 0
          then (namespace c ++ (if isFirst c then "#" else ",")
                  ++ Name axis ++ "=" ++ readableNs)%string
          else namespace c;
        isFirst := if Aggregate axis =? 0 then false else isFirst c;
        hasNonAgg := if Aggregate axis =? 0 then true else hasNonAgg c |}.

Fixpoint combo (E : Env) (axes : list DatasetAxis) (cnts : list nat)
         (c : Combo) : Res Combo :=
  match axes, cnts with
  | axis :: axes', cnt :: cnts' =>
      let* c' := combo_axis E axis cnt c in combo E axes' cnts' c'
  | _, _ => Ok c
  end.

Record Expansion := {
  bandNameSpaces : list (string * list (string * float64));
  granList : list GeoTileGranule
}.

Definition new_granule (geoReq : GeoTileRequest) (ds : GDALDataset)
           (isEmptyTile : bool) (c : Combo) : GeoTileGranule :=
  {| gran_Config := req_Config geoReq;
     RawPath := ds_RawPath ds;
     Path := if isEmptyTile then "NULL" else DSName ds;
     gran_CRS := req_CRS geoReq; SrcSRS := SRS ds;
     SrcGeoTransform := GeoTransform ds; gran_BBox := req_BBox geoReq;
     DstGeoTransform := [];
     gran_Height := if isEmptyTile then 1 else req_Height geoReq;
     gran_Width := if isEmptyTile then 1 else req_Width geoReq;
     RawHeight := 0; RawWidth := 0; gran_OffX := 0; gran_OffY := 0;
     NameSpace := namespace c; VarNameSpace := ds_NameSpace ds;
     TimeStamp := aggTimeStamp c; BandIdx := bandIdx c;
     gran_Polygon := ds_Polygon ds;
     RasterType := if isEmptyTile then "Byte" else ArrayType ds;
     gran_GeoLocation := ds_GeoLocation ds;
     gran_ClipFeature := req_ClipFeature geoReq |}.

(** The body of the loop over the combinations. *)
Definition expand_one (E : Env) (geoReq : GeoTileRequest)
           (ds : GDALDataset) (isEmptyTile : bool) (dsNameSpace : string)
           (cnts : list nat) (x : Expansion) : Res Expansion :=
  let* c := combo E (ds_Axes ds) cnts
                  {| bandIdx := 1; aggTimeStamp := f_zero;
                     bandTimeStamp := f_zero; namespace := dsNameSpace;
                     isFirst := true; hasNonAgg := false |} in
  let bands :=
    match lookup dsNameSpace (bandNameSpaces x) with
    | Some b => b
    | None => []
    end in
  let bFound :=
    match lookup (namespace c) bands with Some _ => true | None => false end in
  let bandFound := hasNonAgg c && bFound in
  let bns :=
    if hasNonAgg c then
      store dsNameSpace
            (if bFound then bands
             else store (namespace c) (bandTimeStamp c) bands)
            (bandNameSpaces x)
    else bandNameSpaces x in
  Ok {| bandNameSpaces := bns;
        granList :=
          if negb isEmptyTile || (isEmptyTile && negb bandFound)
          then granList x ++ [new_granule geoReq ds isEmptyTile c]
          else granList x |}.

(** The counters, last axis first: [axisIdxCnt[ia]++] and the carry
    [for ; ia > 0 && axisIdxCnt[ia] >= len(...); ia--]. *)
Fixpoint incr (rcnt rlens : list nat) : list nat :=
  match rcnt, rlens with
  | [c], _ => [S c]
  | c :: rest, l :: lrest =>
      if (l <=? S c)%nat then O :: incr rest lrest else S c :: rest
  | _, _ => rcnt
  end.

Definition advance (cnts lens : list nat) : list nat :=
  rev (incr (rev cnts) (rev lens)).

Definition axis_lens (ds : GDALDataset) : list nat :=
  map (fun a => List.length (IntersectionIdx a)) (ds_Axes ds).

(** [for axisIdxCnt[0] < len(ds.Axes[0].IntersectionIdx)]; the body runs
    once per combination, or panics ([fuel], see [expand_loop_fuel]). *)
Fixpoint expand_loop (fuel : nat) (E : Env) (geoReq : GeoTileRequest)
         (ds : GDALDataset) (isEmptyTile : bool) (dsNameSpace : string)
         (cnts : list nat) (x : Expansion) : Res Expansion :=
  match cnts, axis_lens ds with
  | c0 :: _, l0 :: _ =>
      if (c0 <? l0)%nat then
        match fuel with
        | O => Panic "expand_loop: out of fuel"
        | S f =>
            let* x' := expand_one E geoReq ds isEmptyTile dsNameSpace
                                  cnts x in
            expand_loop f E geoReq ds isEmptyTile dsNameSpace
                        (advance cnts (axis_lens ds)) x'
        end
      else Ok x
  | _, _ => Panic idx_panic
  end.

Definition combinations (lens : list nat) : nat :=
  fold_right Nat.mul 1%nat lens.

Definition expand_dataset (E : Env) (geoReq : GeoTileRequest)
           (isEmptyTile : bool) (x : Expansion) (ds : GDALDataset)
  : Res Expansion :=
  if IsOutRange ds then Ok x
  else
    expand_loop (S (combinations (axis_lens ds))) E geoReq ds isEmptyTile
                (if isEmptyTile then EmptyTileNS E else ds_NameSpace ds)
                (repeat O (List.length (ds_Axes ds))) x.

Fixpoint expand_datasets (E : Env) (geoReq : GeoTileRequest)
         (isEmptyTile : bool) (x : Expansion) (dss : list GDALDataset)
  : Res Expansion :=
  match dss with
  | [] => Ok x
  | ds :: tl =>
      let* x' := expand_dataset E geoReq isEmptyTile x ds in
      expand_datasets E geoReq isEmptyTile x' tl
  end.

(** **** The sorted list of name spaces *)

Record BandNs := { bn_Name : string; bn_Val : float64 }.

(** The name spaces of one group, as the indexer orders them: the entries
    of the map in the order the [range] visits them, sorted by [Val]. *)
Definition sorted_bands (E : Env) (bands : list (string * float64))
  : list string :=
  map bn_Name
      (sort_Slice E (fun a b => f_le (bn_Val a) (bn_Val b))
                  (map (fun p => {| bn_Name := fst p; bn_Val := snd p |})
                       (map_order E _ bands))).

Fixpoint sort_namespaces (E : Env)
         (bns : list (string * list (string * float64)))
         (nss : list string) (acc : list string * bool)
  : list string * bool :=
  match nss with
  | [] => acc
  | ns :: tl =>
      sort_namespaces E bns tl
        (match lookup ns bns with
         | Some bands => (fst acc ++ sorted_bands E bands, true)
         | None => (fst acc ++ [ns], snd acc)
         end)
  end.

(** The loop that sends the granules. *)
Fixpoint emit (E : Env) (s : State) (newConfig : option ConfigPayLoad)
         (grans : list GeoTileGranule) : State :=
  match grans with
  | [] => s
  | gran :: tl =>
      let gran := match newConfig with
                  | Some c => set_gran_Config gran c
                  | None => gran
                  end in
      let (s', cancelled) := checkCancellation E s in
      if cancelled then s' else emit E (send s' gran) newConfig tl
  end.

(** What [URLIndexGet] makes of a response with datasets: the request
    and the datasets as the selection leaves them, [bandNameSpaces], the
    granules, and the sorted list of name spaces with [hasNewNs]. *)
Record Indexed := {
  ix_req : GeoTileRequest;
  ix_datasets : list GDALDataset;
  ix_bands : list (string * list (string * float64));
  ix_granList : list GeoTileGranule;
  sortedNameSpaces : list string;
  hasNewNs : bool
}.

Definition index_response (E : Env) (geoReq : GeoTileRequest)
           (isEmptyTile : bool) (metadata : MetadataResponse)
  : Res Indexed :=
  let* sel := select_datasets E geoReq
                              {| reqAxes := Axes geoReq;
                                 axisParamsLookup := [] |}
                              (GDALDatasets metadata) in
  let geoReq' := set_Axes geoReq (reqAxes (snd sel)) in
  let* x := expand_datasets E geoReq' isEmptyTile
                            {| bandNameSpaces := []; granList := [] |}
                            (fst sel) in
  let ns := sort_namespaces E (bandNameSpaces x)
                            (NameSpaces (req_Config geoReq'))
                            ([], false) in
  Ok {| ix_req := geoReq'; ix_datasets := fst sel;
        ix_bands := bandNameSpaces x; ix_granList := granList x;
        sortedNameSpaces := fst ns; hasNewNs := snd ns |}.

(** [URLIndexGet], with what the HTTP exchange comes to as [resp]. The
    result is the indexer's state and the request as the call leaves
    them (when the call ends on a selection error, the request as it
    was). *)
Definition URLIndexGet (E : Env) (s : State) (url : IndexerURL)
           (geoReq : GeoTileRequest) (isEmptyTile : bool)
           (resp : HttpOutcome) : Exec (State * GeoTileRequest) :=
  let s := log_query s url in
  match resp with
  | GetError cause =>
      Ok (send (sendError s (GetFailed url cause)) (empty_tile E geoReq),
          geoReq)
  | ReadError cause =>
      Ok (send (sendError s (ReadBodyFailed url cause))
               (empty_tile E geoReq), geoReq)
  | JSONError cause =>
      Ok (send (sendError s (JSONFailed url cause)) (empty_tile E geoReq),
          geoReq)
  | Parsed metadata =>
      match GDALDatasets metadata with
      | [] => Ok (send s (empty_tile E geoReq), geoReq)
      | _ :: _ =>
          match index_response E geoReq isEmptyTile metadata with
          | Panic m => Panic m
          | Err e => Ok (sendError s e, geoReq)
          | Ok ix =>
              let newConfig :=
                if hasNewNs ix
                then Some (set_NameSpaces (req_Config (ix_req ix))
                                          (sortedNameSpaces ix))
                else None in
              Ok (emit E s newConfig (ix_granList ix), ix_req ix)
          end
      end
  end.

(** *** Run *)

(** The corners that [BBox2WKT] reads. *)
Definition BBox2WKT {X} (bbox : list float64)
  : Outcome X (float64 * float64 * float64 * float64) :=
  match bbox with
  | x0 :: y0 :: x1 :: y1 :: _ => Ok (x0, y0, x1, y1)
  | _ => Panic idx_panic
  end.

Definition getIndexerURL {X} (E : Env) (geoReq : GeoTileRequest)
           (collection nameSpaces : string)
           (bboxWkt : option (float64 * float64 * float64 * float64))
           (crs : string) : Outcome X IndexerURL :=
  match StartTime geoReq with
  | None => Panic nil_panic
  | Some st =>
      Ok {| u_address := APIAddress E; u_collection := collection;
            u_time := st; u_until := EndTime geoReq; u_srs := crs;
            u_wkt := bboxWkt; u_namespace := nameSpaces;
            u_nseg := PolygonSegments (req_Config geoReq);
            u_limit := QueryLimit (req_Config geoReq) |}
  end.

(** Minimum and maximum of the [InValues] of the time axis. *)
Fixpoint time_minmax (vals : list float64) (i : nat)
         (mm : float64 * float64) : float64 * float64 :=
  match vals with
  | [] => mm
  | val :: tl =>
      time_minmax tl (S i)
        (if Nat.eqb i 0 then (val, val)
         else if f_lt val (fst mm) then (val, snd mm)
         else if f_gt val (snd mm) then (fst mm, val)
         else mm)
  end.

Definition unix_of_f64 (E : Env) (v : float64) : Time :=
  time_of_Unix (f2i (conv_undef E) KInt v).

(** The loop that looks for the axis ["time"] and sets [StartTime] and
    [EndTime]. *)
Definition resolve_time (E : Env) (geoReq : GeoTileRequest)
  : GeoTileRequest :=
  match lookup "time" (Axes geoReq) with
  | None => geoReq
  | Some axis =>
      match InValues axis with
      | _ :: _ =>
          let mm := time_minmax (InValues axis) 0 (f_zero, f_zero) in
          set_req geoReq (req_Config geoReq)
                  (Some (unix_of_f64 E (fst mm)))
                  (if f_gt (snd mm) (fst mm)
                   then Some (unix_of_f64 E (snd mm))
                   else EndTime geoReq)
                  (Axes geoReq)
      | [] =>
          set_req geoReq (req_Config geoReq)
                  (match ta_Start axis with
                   | Some v => Some (unix_of_f64 E v)
                   | None => StartTime geoReq
                   end)
                  (match ta_End axis with
                   | Some v => Some (unix_of_f64 E v)
                   | None => EndTime geoReq
                   end)
                  (Axes geoReq)
      end
  end.

(** [utils.GetCanonicalBbox]: [Ok] with the box, [Err] when GDAL
    fails. *)
Definition GetCanonicalBbox (E : Env) (srs : string) (bbox : list float64)
  : Outcome unit (list float64) :=
  let srs := ToUpper E (TrimSpace srs) in
  if (srs =? "EPSG:3857")%string then Ok bbox
  else if negb (gdal_transformer E srs) then Err tt
  else
    let* b := BBox2WKT bbox in
    match gdal_transform E srs b with
    | Some (x0, y0, x1, y1) => Ok [x0; y0; x1; y1]
    | None => Err tt
    end.

(** The assignments that clip the canonical box to [SpatialExtent]. *)
Definition clip_bbox {X} (c ext : list float64)
  : Outcome X (float64 * float64 * float64 * float64) :=
  match c, ext with
  | c0 :: c1 :: c2 :: c3 :: _, e0 :: e1 :: e2 :: e3 :: _ =>
      Ok (math_Max c0 e0, math_Max c1 e1, math_Min c2 e2, math_Min c3 e3)
  | _, _ => Panic idx_panic
  end.

(** [clippedBBox[2] < clippedBBox[0] || clippedBBox[3] < clippedBBox[1]] *)
Definition inverted (c : float64 * float64 * float64 * float64) : bool :=
  let '(c0, c1, c2, c3) := c in f_lt c2 c0 || f_lt c3 c1.

(** [for x := 0; x < res; x += size] *)
Fixpoint tile_steps (fuel : nat) (x size : Z) : list Z :=
  match fuel with
  | O => []
  | S f =>
      if x <? 256 then x :: tile_steps f (wrapK KInt (x + size)) size
      else []
  end.

Arguments tile_steps : simpl never.

Definition max_tile_size (E : Env) (size : float64) : Z :=
  let m := f2i (conv_undef E) KInt (f64_mul (f64_of_Z 256) size) in
  if m <=? 0 then 256 else m.

Definition tile_bbox (c : float64 * float64 * float64 * float64)
           (xRes yRes : float64) (maxX maxY x y : Z)
  : float64 * float64 * float64 * float64 :=
  let '(c0, c1, c2, c3) := c in
  let yMin := f64_add c1 (f64_mul (f64_of_Z y) yRes) in
  let yMax := math_Min
                (f64_add c1 (f64_mul (f64_of_Z (wrapK KInt (y + maxY))) yRes))
                c3 in
  let xMin := f64_add c0 (f64_mul (f64_of_Z x) xRes) in
  let xMax := math_Min
                (f64_add c0 (f64_mul (f64_of_Z (wrapK KInt (x + maxX))) xRes))
                c2 in
  (xMin, yMin, xMax, yMax).

(** The boxes of the sub-tiles, rows outermost. *)
Definition tile_bboxes (E : Env) (geoReq : GeoTileRequest)
           (c : float64 * float64 * float64 * float64)
           (xRes yRes : float64)
  : list (float64 * float64 * float64 * float64) :=
  let maxX := max_tile_size E (IndexTileXSize (req_Config geoReq)) in
  let maxY := max_tile_size E (IndexTileYSize (req_Config geoReq)) in
  flat_map (fun y =>
              map (fun x => tile_bbox c xRes yRes maxX maxY x y)
                  (tile_steps 256 0 maxX))
           (tile_steps 256 0 maxY).

Arguments tile_bboxes : simpl never.

(** The goroutines a request starts, in the order they are started, run
    one after the other. *)
Fixpoint run_queries (E : Env) (s : State) (geoReq : GeoTileRequest)
         (isEmptyTile : bool) (urls : list IndexerURL)
  : Exec (State * GeoTileRequest) :=
  match urls with
  | [] => Ok (s, geoReq)
  | url :: tl =>
      let* r := URLIndexGet E s url geoReq isEmptyTile (http E url) in
      run_queries E (fst r) (snd r) isEmptyTile tl
  end.

Definition set_RawURL (s : State) (m : list (Ref * IndexerURL)) : State :=
  {| Out := Out s; Error := Error s; ctx_done := ctx_done s;
     Queries := Queries s; RawURL := m |}.

Fixpoint lookup_ref {V} (k : Ref) (m : list (Ref * V)) : option V :=
  match m with
  | [] => None
  | (k', v) :: tl => if Nat.eqb k k' then Some v else lookup_ref k tl
  end.

(** The block under [if isInit]: the first query of the request is
    recorded in the metrics collector, with [OrigBBox] if there is
    one. *)
Definition record_metrics (E : Env) (s : State) (geoReq : GeoTileRequest)
           (nameSpaces : string) (url : IndexerURL) : Exec State :=
  match MetricsCollector (req_Config geoReq) with
  | None => Ok s
  | Some mc =>
      match lookup_ref mc (RawURL s) with
      | Some _ => Ok s
      | None =>
          let* origURL :=
            match OrigBBox geoReq with
            | [] => Ok url
            | _ :: _ =>
                let* w := BBox2WKT (OrigBBox geoReq) in
                getIndexerURL E geoReq (Collection geoReq) nameSpaces
                              (Some w) (req_CRS geoReq)
            end in
          Ok (set_RawURL s (RawURL s ++ [(mc, origURL)]))
      end
  end.

Fixpoint traverse {X A B} (f : A -> Outcome X B) (l : list A)
  : Outcome X (list B) :=
  match l with
  | [] => Ok []
  | a :: tl =>
      let* b := f a in
      let* bs := traverse f tl in
      Ok (b :: bs)
  end.

(** What a request comes to before any query runs: the empty tile, or
    the queries to start. [plan_bboxWkt] is [bboxWkt] as the sub-division
    leaves it. *)
Inductive Plan :=
| EmitEmpty
| Launch (urls : list IndexerURL)
         (bboxWkt : option (float64 * float64 * float64 * float64)).

(** The sub-division of the query over the clipped box [c], when the
    resolution asks for it. *)
Definition subdivide (E : Env) (geoReq : GeoTileRequest)
           (nameSpaces : string)
           (bboxWkt : option (float64 * float64 * float64 * float64))
           (url : IndexerURL)
           (c : float64 * float64 * float64 * float64) : Exec Plan :=
  let cfg := req_Config geoReq in
  let '(c0, c1, c2, c3) := c in
  let xRes := f64_div (f64_sub c2 c0) (f64_of_Z 256) in
  let yRes := f64_div (f64_sub c3 c1) (f64_of_Z 256) in
  let reqRes := math_Max xRes yRes in
  if (QueryLimit cfg <=? 0) && f_gt reqRes (IndexResLimit cfg) then
    let boxes := tile_bboxes E geoReq c xRes yRes in
    let* urls :=
      traverse (fun b => getIndexerURL E geoReq (Collection geoReq)
                                       nameSpaces (Some b)
                                       "EPSG:3857") boxes in
    Ok (Launch (shuffle E _ urls)
               (match rev boxes with
                | b :: _ => Some b
                | [] => bboxWkt
                end))
  else Ok (Launch [url] bboxWkt).

Arguments subdivide : simpl never.

(** The spatial-extent check, and the queries that follow it. *)
Definition extent_stage (E : Env) (geoReq : GeoTileRequest)
           (nameSpaces : string)
           (bboxWkt : option (float64 * float64 * float64 * float64))
           (url : IndexerURL) : Exec Plan :=
  let cfg := req_Config geoReq in
  let* clipped :=
    if 4 <=? len (SpatialExtent cfg) then
      match GetCanonicalBbox E (req_CRS geoReq) (req_BBox geoReq) with
      | Ok c0 =>
          let* c := clip_bbox c0 (SpatialExtent cfg) in Ok (Some c)
      | Err _ => Ok None
      | Panic m => Panic m
      end
    else Ok None in
  match clipped with
  | Some c =>
      if inverted c then Ok EmitEmpty
      else subdivide E geoReq nameSpaces bboxWkt url c
  | None => Ok (Launch [url] bboxWkt)
  end.

(** The clipped box of a request, when the check computes one. *)
Definition clipped_box (E : Env) (geoReq : GeoTileRequest)
           (c : float64 * float64 * float64 * float64) : Prop :=
  exists c0,
    4 <= len (SpatialExtent (req_Config geoReq)) /\
    GetCanonicalBbox E (req_CRS geoReq) (req_BBox geoReq) = Ok c0 /\
    clip_bbox (X := Empty_set) c0 (SpatialExtent (req_Config geoReq)) = Ok c.

(** The query for the mask layer, if one is due. *)
Definition mask_query (E : Env) (geoReq : GeoTileRequest)
           (nameSpaces : string)
           (bboxWkt : option (float64 * float64 * float64 * float64))
  : Exec (list IndexerURL) :=
  match cfg_Mask (req_Config geoReq) with
  | None => Ok []
  | Some m =>
      let maskCollection :=
        if strlen (mask_DataSource m) =? 0
        then Collection geoReq else mask_DataSource m in
      if negb (maskCollection =? Collection geoReq)%string
         || negb (mask_ID m =? nameSpaces)%string
      then
        let* url := getIndexerURL E geoReq maskCollection (mask_ID m)
                                  bboxWkt (req_CRS geoReq) in
        Ok [url]
      else Ok []
  end.

Definition add_default_namespace (geoReq : GeoTileRequest)
  : GeoTileRequest :=
  match NameSpaces (req_Config geoReq) with
  | [] => set_req geoReq (set_NameSpaces (req_Config geoReq) [""])
                  (StartTime geoReq) (EndTime geoReq) (Axes geoReq)
  | _ :: _ => geoReq
  end.

Definition is_empty_tile (E : Env) (geoReq : GeoTileRequest) : bool :=
  match NameSpaces (req_Config geoReq) with
  | ns0 :: _ => (ns0 =? EmptyTileNS E)%string
  | [] => false
  end.

(** The [default] case of the [select] in [Run], for one request. [Next]
    goes on to the next request, [Return] leaves [Run]. *)
Definition serve (E : Env) (isInit : bool) (s : State)
           (geoReq : GeoTileRequest) : Exec (Flow State State) :=
  if strlen (TrimSpace (Collection geoReq)) =? 0
  then Ok (Return (send s (empty_tile E geoReq)))
  else
    let geoReq := add_default_namespace (resolve_time E geoReq) in
    let isEmptyTile := is_empty_tile E geoReq in
    let nameSpaces :=
      if isEmptyTile then ""
      else Join (NameSpaces (req_Config geoReq)) "," in
    let* bboxWkt :=
      if negb (MasQueryHint (req_Config geoReq) =? "non_spatial")%string
      then let* w := BBox2WKT (req_BBox geoReq) in Ok (Some w)
      else Ok None in
    let* url := getIndexerURL E geoReq (Collection geoReq) nameSpaces
                              bboxWkt (req_CRS geoReq) in
    let* s := if isInit then record_metrics E s geoReq nameSpaces url
              else Ok s in
    let* plan := extent_stage E geoReq nameSpaces bboxWkt url in
    match plan with
    | EmitEmpty => Ok (Return (send s (empty_tile E geoReq)))
    | Launch urls bboxWkt' =>
        let* mask := mask_query E geoReq nameSpaces bboxWkt' in
        let* r := run_queries E s geoReq isEmptyTile (urls ++ mask) in
        Ok (Next (fst r))
    end.

(** The request as [Run] has changed it when the queries are built, and
    the name spaces the queries ask for. *)
Definition prepared (E : Env) (geoReq : GeoTileRequest) : GeoTileRequest :=
  add_default_namespace (resolve_time E geoReq).

Definition query_namespaces (E : Env) (g : GeoTileRequest) : string :=
  if is_empty_tile E g then "" else Join (NameSpaces (req_Config g)) ",".

(** [for geoReq := range p.In { select { ... } }] over the requests that
    arrive on [In] before it is closed. *)
Fixpoint Run_loop (E : Env) (isInit : bool) (s : State)
         (reqs : list GeoTileRequest) : Exec State :=
  match reqs with
  | [] => Ok s
  | geoReq :: tl =>
      match select_cancel E s with
      | CtxDone => Ok (sendError s ContextCancelled)
      | ErrReceived err rest => Ok (sendError (set_Error s rest) err)
      | Default =>
          let* r := serve E isInit s geoReq in
          match r with
          | Next s' => Run_loop E false s' tl
          | Return s' => Ok s'
          end
      end
  end.

Definition Run (E : Env) (s : State) (reqs : list GeoTileRequest)
  : Exec State :=
  Run_loop E true s reqs.

(** *** Concrete environments, states and requests *)

Definition upper_ascii (c : ascii) : ascii :=
  let n := nat_of_ascii c in
  if ((97 <=? n) && (n <=? 122))%nat then ascii_of_nat (n - 32) else c.

Definition decimal (z : Z) : string := NilZero.string_of_int (Z.to_int z).

(** An environment in which a map is visited in the order of insertion,
    [sort.Slice] starts from the slice as it is, nothing is shuffled,
    out-of-range conversions give 0, and every HTTP GET fails. Numbers
    print as their integer part. *)
Definition env_plain : Env :=
  {| APIAddress := "mas:8888"; EmptyTileNS := "EmptyTile";
     conv_undef := fun _ _ => 0;
     map_order := fun _ l => l;
     sort_order := fun _ l => l;
     shuffle := fun _ l => l;
     select_ctx_first := true;
     ToUpper := fun s =>
                  string_of_list_ascii
                    (map upper_ascii (list_ascii_of_string s));
     format_time := fun t => decimal (time_Unix t);
     format_float := fun f => match trunc_Z f with
                              | Some z => decimal z
                              | None => "NaN"
                              end;
     gdal_transformer := fun _ => false;
     gdal_transform := fun _ _ => None;
     http := fun _ => GetError "connection refused" |}.

(** The same environment with another order of visiting maps. *)
Definition with_map_order (E : Env) (f : forall A : Type, list A -> list A)
  : Env :=
  {| APIAddress := APIAddress E; EmptyTileNS := EmptyTileNS E;
     conv_undef := conv_undef E; map_order := f;
     sort_order := sort_order E; shuffle := shuffle E;
     select_ctx_first := select_ctx_first E; ToUpper := ToUpper E;
     format_time := format_time E; format_float := format_float E;
     gdal_transformer := gdal_transformer E;
     gdal_transform := gdal_transform E; http := http E |}.

Definition env_reversed : Env := with_map_order env_plain (fun _ l => rev l).

Definition state0 : State :=
  {| Out := []; Error := []; ctx_done := false; Queries := [];
     RawURL := [] |}.

Definition state_cancelled : State :=
  {| Out := []; Error := []; ctx_done := true; Queries := [];
     RawURL := [] |}.

(** A state in which an error is queued on the error channel. *)
Definition state_queued : State :=
  {| Out := []; Error := [ContextCancelled]; ctx_done := false;
     Queries := []; RawURL := [] |}.

Definition scale0 : ScaleParams :=
  {| Offset := f_zero; Scale := f_zero; Clip := f_zero; ColourScale := 0 |}.

(** A configuration with name spaces [ns], axis mapping [mapping] and
    spatial extent [extent]. *)
Definition config (ns : list string) (mapping : Z) (extent : list float64)
  : ConfigPayLoad :=
  {| NameSpaces := ns; BandExpr := None; cfg_ScaleParams := scale0;
     Palette := None; cfg_Mask := None; ZoomLimit := f_zero;
     PolygonSegments := 2; GrpcConcLimit := 0; PolygonSharcConcLimit := 0;
     QueryLimit := 0; UserSrcGeoTransform := 0; UserSrcSRS := 0;
     NoReprojection := false; AxisMapping := mapping;
     GrpcTileXSize := f_zero; GrpcTileYSize := f_zero;
     IndexTileXSize := f_zero; IndexTileYSize := f_zero;
     SpatialExtent := extent; IndexResLimit := f_zero;
     MasQueryHint := ""; ReqRes := f_zero; SRSCf := 0;
     FusionUnscale := 0; MetricsCollector := None |}.

(** A 256 x 256 request in EPSG:3857 over the box [bbox]. *)
Definition request (collection : string) (cfg : ConfigPayLoad)
           (bbox : list Z) (axes : list (string * GeoTileAxis))
  : GeoTileRequest :=
  {| req_Config := cfg; Collection := collection;
     req_CRS := "EPSG:3857"; req_BBox := map f64_of_Z bbox;
     OrigBBox := []; req_Height := 256; req_Width := 256;
     req_OffX := 0; req_OffY := 0; StartTime := Some 0;
     EndTime := None; Axes := axes; Overview := None;
     req_ClipFeature := None |}.

(** An [enum] axis as the metadata service describes it. *)
Definition enum_axis (name : string) (params : list Z) (stride : Z)
  : DatasetAxis :=
  {| Name := name; Params := map f64_of_Z params; Strides := [stride];
     Shape := []; Grid := "enum"; IntersectionIdx := [];
     IntersectionValues := []; Order := 0; Aggregate := 0 |}.

Definition dataset (ns : string) (axes : list DatasetAxis) : GDALDataset :=
  {| ds_RawPath := "/g/data/file.nc"; DSName := "NETCDF:file.nc:var";
     ds_NameSpace := ns; ArrayType := "Float32"; SRS := "EPSG:4326";
     GeoTransform := []; TimeStamps := [0; 86400000000000];
     ds_Polygon := ""; Means := []; SampleCounts := [];
     ds_NoData := f_zero; ds_Axes := axes; ds_GeoLocation := None;
     IsOutRange := false |}.

Definition response (dss : list GDALDataset) : MetadataResponse :=
  {| resp_Error := ""; GDALDatasets := dss |}.

Definition range_selector (start end_ step : option Z) : GeoTileIdxSelector :=
  {| sel_Start := start; sel_End := end_; sel_Step := step;
     IsRange := true; IsAll := false |}.

Definition index_axis (sels : list GeoTileIdxSelector) : GeoTileAxis :=
  {| ta_Start := None; ta_End := None; InValues := []; ta_Order := 0;
     ta_Aggregate := 0; IdxSelectors := sels |}.

(** The error that a failed HTTP exchange puts on the channel. *)
Definition failure_of (url : IndexerURL) (resp : HttpOutcome)
  : option IndexerError :=
  match resp with
  | GetError cause => Some (GetFailed url cause)
  | ReadError cause => Some (ReadBodyFailed url cause)
  | JSONError cause => Some (JSONFailed url cause)
  | Parsed _ => None
  end.

(** A clipped box of width or height zero that is not inverted. *)
Definition zero_extent (c : float64 * float64 * float64 * float64) : bool :=
  let '(c0, c1, c2, c3) := c in
  (f_eq c2 c0 && f_le c1 c3) || (f_eq c3 c1 && f_le c0 c2).

(** A request whose box touches the configured extent along one edge: the
    clipped box has width zero. *)
Definition request_edge : GeoTileRequest :=
  request "/c" (config ["B"] 0 (map f64_of_Z [10; 0; 20; 10]))
          [0; 0; 10; 10] [].

(** The indices [start, start + step, ...] up to [end_]. *)
Definition range_indices (start end_ step : Z) : list Z :=
  map (fun i => start + Z.of_nat i * step)
      (seq 0 (Z.to_nat ((end_ - start) / step + 1))).

(** [params[i]], for an index in range. *)
Definition param_at (params : list float64) (i : Z) : float64 :=
  nth (Z.to_nat i) params f_zero.

(** The indices of the range that are not yet selected. *)
Definition range_unselected (st : SelState) (start end_ step : Z)
  : list Z :=
  filter (fun i => negb (mem_Z i (selIdx st)))
         (range_indices start end_ step).

(** An index with its value: a pair the axis came with, or an index in
    range with its parameter. *)
Definition paired (axis : DatasetAxis) (p : Z * float64) : Prop :=
  In p (combine (IntersectionIdx axis) (IntersectionValues axis)) \/
  (0 <= fst p <= len (Params axis) - 1 /\
   snd p = param_at (Params axis) (fst p)).

(** The state in which [doSelectionByIndices] enters its loop. *)
Definition sel_init (axis : DatasetAxis) : SelState :=
  {| idxLookup := []; selIdx := IntersectionIdx axis;
     selValues := IntersectionValues axis |}.

(** What the loop over the selectors keeps: as many values as indices,
    every index with its value. *)
Definition sel_inv (axis : DatasetAxis) (st : SelState) : Prop :=
  List.length (selValues st) = List.length (selIdx st) /\
  Forall (paired axis) (combine (selIdx st) (selValues st)).

(** A selector whose fields are values of type [int]. *)
Definition selector_ints (sel : GeoTileIdxSelector) : Prop :=
  in_range KInt (or_default (sel_Start sel) 0) = true /\
  in_range KInt (or_default (sel_End sel) 0) = true /\
  in_range KInt (or_default (sel_Step sel) 1) = true.

(** An axis of eight parameters 10, 11, ..., 17. *)
Definition axis8 : DatasetAxis :=
  enum_axis "level" [10; 11; 12; 13; 14; 15; 16; 17] 1.

(** The value at the position an [ArgSort] entry came from. *)
Definition value_of (vals : list float64) (a : ArgSort) : float64 :=
  param_at vals (SortIdx a).

(** The number the counters stand for, last axis first: the counter of
    the last axis counts units. *)
Fixpoint rval (rcnt rlens : list nat) : nat :=
  match rcnt, rlens with
  | c :: rest, l :: lrest => (c + l * rval rest lrest)%nat
  | _, _ => O
  end.

(** A single-index selector, and the one for index [i]. *)
Definition point_selector (sel : GeoTileIdxSelector) : Prop :=
  IsAll sel = false /\ IsRange sel = false.

Definition point_at (i : Z) : GeoTileIdxSelector :=
  {| sel_Start := Some i; sel_End := None; sel_Step := None;
     IsRange := false; IsAll := false |}.

(** The indices gathered so far are the recorded ones, none twice. *)
Definition recorded (st : SelState) : Prop :=
  (forall i, In i (idxLookup st) <-> In i (selIdx st)) /\ NoDup (selIdx st).

(** The expansion before the first dataset, and a dataset as the
    selection leaves it: two indices on the axis [a], three on [b]. *)
Definition expansion0 : Expansion :=
  {| bandNameSpaces := []; granList := [] |}.

Definition dataset_selected : GDALDataset :=
  dataset "B"
          [set_intersection (enum_axis "a" [0; 1] 3) [0; 3]
                            (map f64_of_Z [0; 1]);
           set_intersection (enum_axis "b" [0; 1; 2] 1) [0; 1; 2]
                            (map f64_of_Z [0; 1; 2])].

(** The granule as [URLIndexGet] sends it: with the new configuration,
    if there is one. *)
Definition with_config (newConfig : option ConfigPayLoad)
           (gran : GeoTileGranule) : GeoTileGranule :=
  match newConfig with
  | Some c => set_gran_Config gran c
  | None => gran
  end.

(** The sum of a list of integers. *)
Definition sum_Z (l : list Z) : Z := fold_right Z.add 0 l.

(** The indices of axis [a] are those of some selection, each multiplied
    by the first stride of the axis. *)
Definition stride_multiplied (E : Env) (geoReq : GeoTileRequest)
           (a : DatasetAxis) : Prop :=
  exists ds c o a0 a_sel c' o',
    select_unscaled E geoReq ds c o a0 = Ok (a_sel, c', o') /\
    IntersectionIdx a
    = map (fun i => wrapK KInt (i * nth 0 (Strides a_sel) 0))
          (IntersectionIdx a_sel).

(** [sels] holds one index of every axis of [ds], in the order of the
    axes. *)
Definition one_per_axis (ds : GDALDataset) (sels : list Z) : Prop :=
  Forall2 (fun a s => In s (IntersectionIdx a)) (ds_Axes ds) sels.

(** The band index of [g] is one plus the sum of one index of every axis
    of a dataset of [dss], in [int] arithmetic. *)
Definition band_sum (dss : list GDALDataset) (g : GeoTileGranule) : Prop :=
  exists ds sels,
    In ds dss /\ IsOutRange ds = false /\ one_per_axis ds sels /\
    BandIdx g = wrapK KInt (1 + sum_Z sels).

(** A request for every band of the name space [B]: no axis is named and
    the axis mapping is 1. *)
Definition request_all : GeoTileRequest :=
  request "/c" (config ["B"] 1 []) [0; 0; 10; 10] [].

(** A response with one dataset over the axes [a] (two values, stride
    [s1]) and [b] (three values, stride [s2]). *)
Definition response_grid (s1 s2 : Z) : MetadataResponse :=
  response [dataset "B" [enum_axis "a" [0; 1] s1;
                         enum_axis "b" [0; 1; 2] s2]].

(** The selection starts from the request's axes and an empty
    [axisParamsLookup]. *)
Definition ctx0 (geoReq : GeoTileRequest) : SelCtx :=
  {| reqAxes := Axes geoReq; axisParamsLookup := [] |}.

(** A request for the levels 0, 2, 4 and 6 of the axis [level], in
    descending order. *)
Definition request_desc : GeoTileRequest :=
  request "/c" (config ["B"] 1 []) [0; 0; 10; 10]
          [("level",
            {| ta_Start := None; ta_End := None; InValues := [];
               ta_Order := 1; ta_Aggregate := 0;
               IdxSelectors :=
                 [range_selector (Some 0) (Some 6) (Some 2)] |})].

Definition response_level : MetadataResponse :=
  response [dataset "B" [axis8]].

(** The name spaces the sorted list has for the request's name space
    [ns]: those of its group, sorted, or [ns] itself. *)
Definition namespace_group (E : Env)
           (bns : list (string * list (string * float64))) (ns : string)
  : list string :=
  match lookup ns bns with
  | Some bands => sorted_bands E bands
  | None => [ns]
  end.

(** An entry of a group as the sorting sees it, and back. *)
Definition band (p : string * float64) : BandNs :=
  {| bn_Name := fst p; bn_Val := snd p |}.

Definition unband (b : BandNs) : string * float64 := (bn_Name b, bn_Val b).

(** The band timestamps of a group are numbers, and no two are equal. *)
Definition no_nan (b : list (string * float64)) : Prop :=
  Forall (fun p => is_nan (snd p) = false) b.

Definition no_ties (b : list (string * float64)) : Prop :=
  ForallOrdPairs (fun p q => f_lt (snd p) (snd q) = true \/
                             f_lt (snd q) (snd p) = true) b.

(** The accumulator a combination starts from. *)
Definition combo_init (dsNameSpace : string) : Combo :=
  {| bandIdx := 1; aggTimeStamp := f_zero; bandTimeStamp := f_zero;
     namespace := dsNameSpace; isFirst := true; hasNonAgg := false |}.

(** Every entry of [bandNameSpaces] is the name space of a combination
    of a dataset of [dss], with the band timestamp of that
    combination. *)
Definition bands_from (E : Env) (dss : list GDALDataset)
           (bns : list (string * list (string * float64))) : Prop :=
  forall dsNs b ns v,
    lookup dsNs bns = Some b -> In (ns, v) b ->
    exists ds cnts c,
      In ds dss /\
      combo E (ds_Axes ds) cnts (combo_init dsNs) = Ok c /\
      namespace c = ns /\ bandTimeStamp c = v.

End Indexer.

(* ================================================================== *)
(** * Part II. Properties                                              *)
(* ================================================================== *)

(** ** Integers, floats, sorting *)

Lemma Ok_inj {X A} (a b : A) : @Ok X A a = Ok b -> a = b.
Proof. intros H. injection H. exact (fun e => e). Qed.

Lemma bind_Ok {X A B} (o : Outcome X A) (k : A -> Outcome X B) (b : B) :
  bind o k = Ok b -> exists a, o = Ok a /\ k a = Ok b.
Proof.
  destruct o as [a|e|m]; cbn [bind]; intros H; try discriminate.
  exists a. split; [reflexivity | exact H].
Qed.

Section NumericFacts.

Lemma wrapK_in_range k z : in_range k z = true -> wrapK k z = z.
Proof.
  unfold in_range, wrapK, min_of, max_of.
  destruct k; simpl; intros H; apply andb_prop in H; destruct H as [H1 H2];
    apply Z.leb_le in H1; apply Z.leb_le in H2;
    first [ apply Z.mod_small; lia
          | rewrite Z.mod_small; lia ].
Qed.

Lemma wrapK_range k z : in_range k (wrapK k z) = true.
Proof.
  unfold in_range, wrapK, min_of, max_of.
  destruct k; simpl;
    match goal with
    | |- context [?a mod ?m] =>
        pose proof (Z.mod_pos_bound a m ltac:(lia))
    end;
    apply andb_true_intro; split; apply Z.leb_le; lia.
Qed.

(** Adding into a wrapped sum is wrapping the sum. *)
Lemma wrapK_add_l k a b : wrapK k (wrapK k a + b) = wrapK k (a + b).
Proof.
  unfold wrapK. destruct (signed k).
  - f_equal.
    replace ((a + 2 ^ (bits k - 1)) mod 2 ^ bits k - 2 ^ (bits k - 1) + b
             + 2 ^ (bits k - 1))
      with ((a + 2 ^ (bits k - 1)) mod 2 ^ bits k + b) by lia.
    rewrite Zplus_mod_idemp_l. f_equal. lia.
  - apply Zplus_mod_idemp_l.
Qed.

Lemma f2i_range undef k f : in_range k (f2i undef k f) = true.
Proof.
  unfold f2i. destruct (trunc_Z f) as [z|].
  - destruct (in_range k z) eqn:E; [exact E | apply wrapK_range].
  - apply wrapK_range.
Qed.

(** *** The order of the floats *)

Lemma compare_cont_Eq_antisym m1 m2 :
  Pos.compare_cont Eq m2 m1 = CompOpp (Pos.compare_cont Eq m1 m2).
Proof. apply Pos.compare_antisym. Qed.

Lemma SFcompare_antisym a b :
  SFcompare b a = option_map CompOpp (SFcompare a b).
Proof.
  destruct a as [sa|sa| |sa ma ea], b as [sb|sb| |sb mb eb]; simpl;
    try reflexivity;
    try (destruct sa; reflexivity);
    try (destruct sb; reflexivity);
    try (destruct sa, sb; reflexivity).
  destruct sa, sb; simpl; try reflexivity;
    rewrite (Z.compare_antisym ea eb);
    destruct (ea ?= eb); simpl; try reflexivity;
    rewrite (compare_cont_Eq_antisym ma mb);
    destruct (Pos.compare_cont Eq ma mb); reflexivity.
Qed.

Lemma f_le_not_gt a b : f_le a b = true -> f_lt b a = false.
Proof.
  unfold f_le, f_lt, SFleb, SFltb. rewrite (SFcompare_antisym a b).
  destruct (SFcompare a b) as [[| |]|]; simpl; congruence.
Qed.

Lemma f_eq_not_lt a b : f_eq a b = true -> f_lt a b = false.
Proof.
  unfold f_eq, f_lt, SFeqb, SFltb.
  destruct (SFcompare a b) as [[| |]|]; simpl; congruence.
Qed.

Lemma f_lt_le a b : f_lt a b = true -> f_le a b = true.
Proof.
  unfold f_le, f_lt, SFleb, SFltb.
  destruct (SFcompare a b) as [[| |]|]; simpl; congruence.
Qed.

Lemma f_lt_not_le a b : f_lt a b = true -> f_le b a = false.
Proof.
  unfold f_le, f_lt, SFleb, SFltb. rewrite (SFcompare_antisym a b).
  destruct (SFcompare a b) as [[| |]|]; simpl; congruence.
Qed.

(** Two floats that are ordered one way or the other are never in the
    wrong order for [<=] both ways round. *)
Lemma f_le_total a b :
  f_lt a b = true \/ f_lt b a = true \/ f_eq a b = true ->
  f_le a b = false -> f_le b a = true.
Proof.
  unfold f_le, f_lt, f_eq, SFleb, SFltb, SFeqb.
  rewrite (SFcompare_antisym a b).
  destruct (SFcompare a b) as [[| |]|]; simpl; intuition congruence.
Qed.

Ltac cmp_cases :=
  repeat match goal with
    | H : context [Z.compare ?x ?y] |- _ =>
        destruct (Z.compare_spec x y); subst
    | |- context [Z.compare ?x ?y] =>
        destruct (Z.compare_spec x y); subst
    | H : context [Pos.compare_cont Eq ?x ?y] |- _ =>
        change (Pos.compare_cont Eq x y) with (Pos.compare x y) in *;
        destruct (Pos.compare_spec x y); subst
    | |- context [Pos.compare_cont Eq ?x ?y] =>
        change (Pos.compare_cont Eq x y) with (Pos.compare x y) in *;
        destruct (Pos.compare_spec x y); subst
    end.

Lemma f_le_trans a b c :
  f_le a b = true -> f_le b c = true -> f_le a c = true.
Proof.
  unfold f_le, SFleb.
  destruct a as [sa|sa| |sa ma ea], b as [sb|sb| |sb mb eb],
           c as [sc|sc| |sc mc ec]; simpl;
    try discriminate; try reflexivity;
    try (destruct sa; simpl; congruence);
    try (destruct sb; simpl; congruence);
    try (destruct sc; simpl; congruence);
    try (destruct sa, sb; simpl; congruence);
    try (destruct sa, sc; simpl; congruence);
    try (destruct sb, sc; simpl; congruence);
    try (destruct sa, sb, sc; simpl; congruence).
  destruct sa, sb, sc; simpl; try congruence; intros H1 H2;
    cmp_cases; simpl in *; try congruence; try lia.
Qed.

End NumericFacts.

(** ** The scaler *)

Section ScalerFacts.
Import Scaler.

(** *** Lists and the heap *)

Lemma list_set_spec {A} (l : list A) : forall i x l',
  list_set l i x = Some l' ->
  List.length l' = List.length l /\
  nth_error l' i = Some x /\
  (forall j, j <> i -> nth_error l' j = nth_error l j).
Proof.
  induction l as [|y tl IH]; intros i x l' H; simpl in H.
  - discriminate.
  - destruct i as [|i].
    + inversion H; subst; simpl. repeat split; auto.
      intros [|j] Hj; [congruence | reflexivity].
    + destruct (list_set tl i x) as [tl'|] eqn:Etl; [|discriminate].
      inversion H; subst. destruct (IH _ _ _ Etl) as (Hl & Hi & Ho).
      simpl. repeat split; auto.
      intros [|j] Hj; [reflexivity | apply Ho; congruence].
Qed.

Lemma list_set_some {A} (l : list A) : forall i x,
  (i < List.length l)%nat -> exists l', list_set l i x = Some l'.
Proof.
  induction l as [|y tl IH]; intros i x Hi; simpl in *; [lia|].
  destruct i as [|i]; [eauto|].
  destruct (IH i x) as [tl' Htl]; [lia|]. rewrite Htl; eauto.
Qed.

Lemma write_int_spec h a i c h' :
  write_int h a i c = Some h' ->
  List.length h' = List.length h /\
  (forall b, b <> a -> nth_error h' b = nth_error h b) /\
  exists l l', heap_ints h a = Some l /\ list_set l i c = Some l' /\
               heap_ints h' a = Some l'.
Proof.
  unfold write_int. intros H.
  destruct (heap_ints h a) as [l|] eqn:El; [|discriminate].
  destruct (list_set l i c) as [l'|] eqn:Es; [|discriminate].
  destruct (list_set_spec _ _ _ _ H) as (Hl & Hi & Ho).
  repeat split; auto. exists l, l'. repeat split; auto.
  unfold heap_ints. rewrite Hi. reflexivity.
Qed.

Lemma write_int_some h a i c l :
  heap_ints h a = Some l -> (i < List.length l)%nat ->
  exists h', write_int h a i c = Some h'.
Proof.
  intros Hl Hi. unfold write_int. rewrite Hl.
  destruct (list_set_some l i c Hi) as [l' Hl']. rewrite Hl'.
  apply list_set_some. unfold heap_ints in Hl.
  destruct (nth_error h a) eqn:En; [|discriminate].
  apply nth_error_Some. congruence.
Qed.

Lemma heap_ints_frame h h' a :
  nth_error h' a = nth_error h a -> heap_ints h' a = heap_ints h a.
Proof. unfold heap_ints. intros ->. reflexivity. Qed.

Lemma heap_f32s_frame h h' a :
  nth_error h' a = nth_error h a -> heap_f32s h' a = heap_f32s h a.
Proof. unfold heap_f32s. intros ->. reflexivity. Qed.

Lemma make_bytes_spec h n h1 out :
  make_bytes h n = Ok (h1, out) ->
  out = List.length h /\
  List.length h1 = S (List.length h) /\
  (forall a, (a < List.length h)%nat -> nth_error h1 a = nth_error h a).
Proof.
  unfold make_bytes. destruct (n <? 0); [discriminate|].
  intros H; inversion H; subst. repeat split.
  - rewrite length_app. simpl. lia.
  - intros a Ha. apply nth_error_app1. exact Ha.
Qed.

(** *** The loops write to the destination array only *)

Lemma scale_int_loop_frame E k nd clip tr src dst : forall n i h h' p,
  scale_int_loop E k nd clip tr src dst n i h = (h', p) ->
  List.length h' = List.length h /\
  (forall b, b <> dst -> nth_error h' b = nth_error h b).
Proof.
  induction n as [|n IH]; intros i h h' p H; simpl in H.
  - inversion H; subst. auto.
  - destruct (read_int h src i) as [v|]; [|inversion H; subst; auto].
    destruct (scale_int_px E k nd clip tr v) as [c|m|m];
      try (inversion H; subst; auto; fail).
    destruct (write_int h dst i c) as [h1|] eqn:Ew;
      [|inversion H; subst; auto].
    destruct (write_int_spec _ _ _ _ _ Ew) as (Hl & Ho & _).
    destruct (IH _ _ _ _ H) as (Hl' & Ho').
    split; [congruence|].
    intros b Hb. rewrite Ho' by exact Hb. apply Ho; exact Hb.
Qed.

Lemma scale_f32_loop_frame E cs nd64 nd clip tr src dst : forall n i h h' p,
  scale_f32_loop E cs nd64 nd clip tr src dst n i h = (h', p) ->
  List.length h' = List.length h /\
  (forall b, b <> dst -> nth_error h' b = nth_error h b).
Proof.
  induction n as [|n IH]; intros i h h' p H; simpl in H.
  - inversion H; subst. auto.
  - destruct (read_f32 h src i) as [v|]; [|inversion H; subst; auto].
    destruct (write_int h dst i _) as [h1|] eqn:Ew;
      [|inversion H; subst; auto].
    destruct (write_int_spec _ _ _ _ _ Ew) as (Hl & Ho & _).
    destruct (IH _ _ _ _ H) as (Hl' & Ho').
    split; [congruence|].
    intros b Hb. rewrite Ho' by exact Hb. apply Ho; exact Hb.
Qed.

(** *** The in-place loop of the [Byte] branch *)

(** Run on one array ([src = dst = a]), the loop leaves the array's
    length alone, does not touch the samples below [i], and turns every
    no-data sample from [i] on into 255. *)
Lemma scale_int_loop_in_place E k nd clip tr a : forall n i h h' l,
  scale_int_loop E k nd clip tr a a n i h = (h', None) ->
  heap_ints h a = Some l ->
  exists l', heap_ints h' a = Some l' /\
             List.length l' = List.length l /\
             (forall j, (j < i)%nat -> nth_error l' j = nth_error l j) /\
             (forall j, (i <= j < i + n)%nat -> nth_error l j = Some nd ->
                        nth_error l' j = Some 255).
Proof.
  induction n as [|n IH]; intros i h h' l H Hl; simpl in H.
  - inversion H; subst. exists l. repeat split; auto. intros; lia.
  - unfold read_int in H. rewrite Hl in H.
    destruct (nth_error l i) as [v|] eqn:Ev; [|discriminate].
    destruct (scale_int_px E k nd clip tr v) as [c|m|m] eqn:Epx;
      try discriminate.
    destruct (write_int h a i c) as [h1|] eqn:Ew; [|discriminate].
    destruct (write_int_spec _ _ _ _ _ Ew) as (_ & _ & l0 & l1 & Hl0 & Hs & Hl1).
    assert (l0 = l) by congruence. subst l0.
    destruct (list_set_spec _ _ _ _ Hs) as (Hlen & Hi & Ho).
    destruct (IH _ _ _ _ H Hl1) as (l' & Hl' & Hlen' & Hlow & Hnd).
    exists l'. split; [exact Hl'|]. split; [congruence|]. split.
    + intros j Hj. rewrite Hlow by lia. apply Ho. lia.
    + intros j Hj Hjnd.
      destruct (Nat.eq_dec j i) as [->|Hne].
      * rewrite Hlow by lia. rewrite Hi.
        assert (v = nd) by congruence. subst v.
        unfold scale_int_px in Epx. rewrite Z.eqb_refl in Epx.
        congruence.
      * apply Hnd; [lia|]. rewrite Ho by exact Hne. exact Hjnd.
Qed.

(** With a divisor that is not zero the in-place loop runs to its end. *)
Lemma scale_int_loop_total E k nd clip tr a : forall n i h l,
  tr <> 0 -> heap_ints h a = Some l -> (i + n <= List.length l)%nat ->
  exists h', scale_int_loop E k nd clip tr a a n i h = (h', None).
Proof.
  induction n as [|n IH]; intros i h l Htr Hl Hn; simpl.
  - eauto.
  - unfold read_int. rewrite Hl.
    destruct (nth_error l i) as [v|] eqn:Ev.
    2:{ apply nth_error_None in Ev. lia. }
    assert (Hpx : exists c, scale_int_px E k nd clip tr v = Ok c).
    { unfold scale_int_px, int_div.
      destruct (v =? nd); [eauto|].
      destruct (tr =? 0) eqn:Et; [apply Z.eqb_eq in Et; contradiction|].
      eauto. }
    destruct Hpx as [c ->].
    destruct (write_int_some h a i c l Hl) as [h1 Hw]; [lia|].
    rewrite Hw.
    destruct (write_int_spec _ _ _ _ _ Hw) as (_ & _ & l0 & l1 & Hl0 & Hs & Hl1).
    destruct (list_set_spec _ _ _ _ Hs) as (Hlen & _ & _).
    apply (IH (S i) h1 l1 Htr Hl1).
    assert (l0 = l) by congruence. subst. lia.
Qed.

Lemma finish_heap t d r : fst (finish t d r) = fst r.
Proof. unfold finish. destruct (snd r); reflexivity. Qed.

Lemma finish_Ok t d r out :
  snd (finish t d r) = Ok out -> snd r = None /\ Data out = d.
Proof.
  unfold finish. destruct (snd r); simpl; intros H; inversion H.
  auto.
Qed.

Lemma scale_int_fresh_frame E k h t params h' o :
  (Data t < List.length h)%nat ->
  scale_int_fresh E k h t params = (h', o) ->
  (forall a, (a < List.length h)%nat -> nth_error h' a = nth_error h a) /\
  (forall out, o = Ok out ->
               Data out = List.length h /\
               (List.length h < List.length h')%nat).
Proof.
  intros Ht H. unfold scale_int_fresh in H.
  destruct (make_bytes h _) as [[h1 out]|e|m] eqn:Em;
    try (inversion H; subst; split; [auto | discriminate]).
  destruct (make_bytes_spec _ _ _ _ Em) as (-> & Hlen & Hold).
  destruct (heap_ints h1 (Data t)) as [data|];
    [|inversion H; subst; split; [auto | discriminate]].
  match type of H with finish _ _ ?r = _ => destruct r as [h2 p] eqn:El end.
  destruct (scale_int_loop_frame _ _ _ _ _ _ _ _ _ _ _ _ El) as (Hl2 & Ho2).
  assert (Hh : h' = h2).
  { pose proof (finish_heap t (List.length h) (h2, p)) as F.
    rewrite H in F. exact F. }
  subst h2. split.
  - intros a Ha. rewrite Ho2 by lia. apply Hold; exact Ha.
  - intros out ->.
    assert (F : snd (finish t (List.length h) (h', p)) = Ok out)
      by (rewrite H; reflexivity).
    apply finish_Ok in F. destruct F as [_ F]. split; [exact F | lia].
Qed.

Lemma scale_float32_frame E h t params h' o :
  (Data t < List.length h)%nat ->
  scale_float32 E h t params = (h', o) ->
  (forall a, (a < List.length h)%nat -> nth_error h' a = nth_error h a) /\
  (forall out, o = Ok out ->
               Data out = List.length h /\
               (List.length h < List.length h')%nat).
Proof.
  intros Ht H. unfold scale_float32 in H.
  destruct (make_bytes h _) as [[h1 out]|e|m] eqn:Em;
    try (inversion H; subst; split; [auto | discriminate]).
  destruct (make_bytes_spec _ _ _ _ Em) as (-> & Hlen & Hold).
  destruct (heap_f32s h1 (Data t)) as [data|];
    [|inversion H; subst; split; [auto | discriminate]].
  match type of H with finish _ _ ?r = _ => destruct r as [h2 p] eqn:El end.
  destruct (scale_f32_loop_frame _ _ _ _ _ _ _ _ _ _ _ _ _ El) as (Hl2 & Ho2).
  assert (Hh : h' = h2).
  { pose proof (finish_heap t (List.length h) (h2, p)) as F.
    rewrite H in F. exact F. }
  subst h2. split.
  - intros a Ha. rewrite Ho2 by lia. apply Hold; exact Ha.
  - intros out ->.
    assert (F : snd (finish t (List.length h) (h', p)) = Ok out)
      by (rewrite H; reflexivity).
    apply finish_Ok in F. destruct F as [_ F]. split; [exact F | lia].
Qed.

(** *** The numerator of the linear map *)

(** C1. The specification adopts [floor((v - offset) / (clip - offset) *
    255)] for every sample [v] that is not no-data. The [Float32] branch
    of [scaleNew] subtracts [clip], not [offset]: with [offset = 0] and
    [clip = 10] the samples 10 and 15 are scaled to 0 and 127, where the
    adopted mapping gives 255 and the no-data byte 255 (382 is above
    255). *)
Theorem scaleNew_float32_subtracts_clip : forall E,
  scaleNew E [F32Buf [f32_of_Z 10; f32_of_Z 15]]
           (Float32Raster (raster1 0%nat 2 (-1))) params_0_10
  = ([F32Buf [f32_of_Z 10; f32_of_Z 15]; IntBuf [0; 127]],
     Ok (raster1 1%nat 2 (-1)))
  /\ map (spec_linear_map (0 # 1) (10 # 1)) [10 # 1; 15 # 1]%Q
     = [255; 255]
  /\ map Q_of_float [f32_of_Z 10; f32_of_Z 15]
     = [Some (10 # 1); Some (15 # 1)]%Q.
Proof.
  intros E. repeat split; vm_compute; reflexivity.
Qed.

(** *** The divisor after the widening *)

(** C7. With [offset = clip = 0] and a raster whose samples are all
    equal, [maxVal += 0.1] is undone by the conversion of [maxVal] to the
    integer element type: [clip = offset], the divisor is 0 and the first
    sample that is not no-data makes the integer division panic. In the
    [Float32] branch [16777216 + 0.1] rounds back to [16777216] and the
    divisor is the float zero. *)
Theorem scaleNew_constant_raster_divisor_zero : forall E,
  divisor_int E KUint8 [IntBuf [5]] (raster1 0%nat 1 255) params_auto = Some 0
  /\ divisor_int E KInt8 [IntBuf [5]] (raster1 0%nat 1 (-1)) params_auto = Some 0
  /\ divisor_int E KInt16 [IntBuf [5]] (raster1 0%nat 1 (-1)) params_auto = Some 0
  /\ divisor_int E KUint16 [IntBuf [5]] (raster1 0%nat 1 0) params_auto = Some 0
  /\ divisor_f32 E [F32Buf [f32_of_Z 16777216]] (raster1 0%nat 1 (-1)) params_auto
     = Some (S754_zero false)
  /\ snd (scaleNew E [IntBuf [5]] (ByteRaster (raster1 0%nat 1 255)) params_auto)
     = Panic "runtime error: integer divide by zero"
  /\ snd (scaleNew E [IntBuf [5]] (SignedByteRaster (raster1 0%nat 1 (-1)))
                   params_auto)
     = Panic "runtime error: integer divide by zero"
  /\ snd (scaleNew E [IntBuf [5]] (Int16Raster (raster1 0%nat 1 (-1)))
                   params_auto)
     = Panic "runtime error: integer divide by zero"
  /\ snd (scaleNew E [IntBuf [5]] (UInt16Raster (raster1 0%nat 1 0)) params_auto)
     = Panic "runtime error: integer divide by zero".
Proof.
  intros E. repeat split; vm_compute; reflexivity.
Qed.

(** *** In place for [Byte], a fresh array otherwise *)

(** *** The branches that allocate: the new array, and the result *)

Lemma scale_int_loop_dst E k nd clip tr src dst : forall n i h h' p l2,
  scale_int_loop E k nd clip tr src dst n i h = (h', p) ->
  heap_ints h dst = Some l2 ->
  exists l2', heap_ints h' dst = Some l2' /\
              List.length l2' = List.length l2.
Proof.
  induction n as [|n IH]; intros i h h' p l2 H Hd; simpl in H.
  - inversion H; subst. eauto.
  - destruct (read_int h src i) as [v|]; [|inversion H; subst; eauto].
    destruct (scale_int_px E k nd clip tr v) as [c|m|m];
      try (inversion H; subst; eauto; fail).
    destruct (write_int h dst i c) as [h1|] eqn:Ew;
      [|inversion H; subst; eauto].
    destruct (write_int_spec _ _ _ _ _ Ew)
      as (_ & _ & l0 & l1 & Hl0 & Hs & Hl1).
    destruct (list_set_spec _ _ _ _ Hs) as (Hlen & _ & _).
    destruct (IH _ _ _ _ _ H Hl1) as (l2' & Hl2' & Hlen').
    exists l2'. split; [exact Hl2' | congruence].
Qed.

Lemma scale_f32_loop_dst E cs nd64 nd clip tr src dst :
  forall n i h h' p l2,
    scale_f32_loop E cs nd64 nd clip tr src dst n i h = (h', p) ->
    heap_ints h dst = Some l2 ->
    exists l2', heap_ints h' dst = Some l2' /\
                List.length l2' = List.length l2.
Proof.
  induction n as [|n IH]; intros i h h' p l2 H Hd; simpl in H.
  - inversion H; subst. eauto.
  - destruct (read_f32 h src i) as [v|]; [|inversion H; subst; eauto].
    destruct (write_int h dst i _) as [h1|] eqn:Ew;
      [|inversion H; subst; eauto].
    destruct (write_int_spec _ _ _ _ _ Ew)
      as (_ & _ & l0 & l1 & Hl0 & Hs & Hl1).
    destruct (list_set_spec _ _ _ _ Hs) as (Hlen & _ & _).
    destruct (IH _ _ _ _ _ H Hl1) as (l2' & Hl2' & Hlen').
    exists l2'. split; [exact Hl2' | congruence].
Qed.

(** With a divisor that is not zero, a source array of at least [i + n]
    samples and a destination array of at least [i + n] bytes, the
    integer loop runs to its end. *)
Lemma scale_int_loop_returns E k nd clip tr src dst : forall n i h,
  tr <> 0 ->
  (exists l, heap_ints h src = Some l /\ (i + n <= List.length l)%nat) ->
  (exists l2, heap_ints h dst = Some l2 /\ (i + n <= List.length l2)%nat) ->
  exists h', scale_int_loop E k nd clip tr src dst n i h = (h', None).
Proof.
  induction n as [|n IH]; intros i h Htr (l & Hl & Hn) (l2 & Hl2 & Hn2);
    simpl.
  - eauto.
  - unfold read_int. rewrite Hl.
    destruct (nth_error l i) as [v|] eqn:Ev.
    2:{ apply nth_error_None in Ev. lia. }
    assert (Hpx : exists c, scale_int_px E k nd clip tr v = Ok c).
    { unfold scale_int_px, int_div.
      destruct (v =? nd); [eauto|].
      destruct (tr =? 0) eqn:Et; [apply Z.eqb_eq in Et; contradiction|].
      eauto. }
    destruct Hpx as [c ->].
    destruct (write_int_some h dst i c l2 Hl2) as [h1 Hw]; [lia|].
    rewrite Hw.
    destruct (write_int_spec _ _ _ _ _ Hw)
      as (_ & Ho & l0 & l1 & Hl0 & Hs & Hl1).
    destruct (list_set_spec _ _ _ _ Hs) as (Hlen & _ & _).
    assert (l0 = l2) by congruence. subst l0.
    apply IH; [exact Htr | |].
    + destruct (Nat.eq_dec src dst) as [->|Hne].
      * exists l1. split; [exact Hl1|].
        assert (l = l2) by congruence. subst l. lia.
      * exists l. split; [|lia].
        rewrite <- Hl. apply heap_ints_frame. apply Ho. exact Hne.
    + exists l1. split; [exact Hl1 | lia].
Qed.

Lemma scale_f32_loop_returns E cs nd64 nd clip tr src dst : forall n i h,
  (exists l, heap_f32s h src = Some l /\ (i + n <= List.length l)%nat) ->
  (exists l2, heap_ints h dst = Some l2 /\ (i + n <= List.length l2)%nat) ->
  exists h', scale_f32_loop E cs nd64 nd clip tr src dst n i h = (h', None).
Proof.
  induction n as [|n IH]; intros i h (l & Hl & Hn) (l2 & Hl2 & Hn2); simpl.
  - eauto.
  - unfold read_f32. rewrite Hl.
    destruct (nth_error l i) as [v|] eqn:Ev.
    2:{ apply nth_error_None in Ev. lia. }
    match goal with |- context [write_int h dst i ?c] =>
      destruct (write_int_some h dst i c l2 Hl2) as [h1 Hw]; [lia|] end.
    rewrite Hw.
    destruct (write_int_spec _ _ _ _ _ Hw)
      as (_ & Ho & l0 & l1 & Hl0 & Hs & Hl1).
    destruct (list_set_spec _ _ _ _ Hs) as (Hlen & _ & _).
    assert (l0 = l2) by congruence. subst l0.
    apply IH.
    + exists l. split; [|lia].
      rewrite <- Hl. apply heap_f32s_frame. apply Ho.
      intros ->. unfold heap_f32s, heap_ints in *.
      destruct (nth_error h dst) as [[?|?]|]; discriminate.
    + exists l1. split; [exact Hl1 | lia].
Qed.

Lemma make_bytes_Ok h n :
  0 <= n ->
  make_bytes h n = Ok (h ++ [IntBuf (repeat 0 (Z.to_nat n))], List.length h).
Proof.
  intros Hn. unfold make_bytes.
  destruct (n <? 0) eqn:E; [apply Z.ltb_lt in E; lia | reflexivity].
Qed.

Lemma heap_ints_new h l :
  heap_ints (h ++ [IntBuf l]) (List.length h) = Some l.
Proof.
  unfold heap_ints. rewrite nth_error_app2 by lia.
  rewrite Nat.sub_diag. reflexivity.
Qed.

Lemma heap_ints_old h b a :
  (a < List.length h)%nat -> heap_ints (h ++ [b]) a = heap_ints h a.
Proof. intros Ha. apply heap_ints_frame, nth_error_app1, Ha. Qed.

Lemma heap_f32s_old h b a :
  (a < List.length h)%nat -> heap_f32s (h ++ [b]) a = heap_f32s h a.
Proof. intros Ha. apply heap_f32s_frame, nth_error_app1, Ha. Qed.

(** An allocating branch leaves the heap one array longer, the new array
    of [out_len t] bytes, whatever the outcome. *)
Lemma scale_int_fresh_alloc E k h t params h' o :
  0 <= out_len t ->
  scale_int_fresh E k h t params = (h', o) ->
  List.length h' = S (List.length h) /\
  exists bytes, heap_ints h' (List.length h) = Some bytes /\
                List.length bytes = Z.to_nat (out_len t).
Proof.
  intros Hn H. unfold scale_int_fresh in H. fold (out_len t) in H.
  rewrite (make_bytes_Ok h _ Hn) in H.
  set (h1 := h ++ [IntBuf (repeat 0 (Z.to_nat (out_len t)))]) in *.
  assert (Hlen1 : List.length h1 = S (List.length h))
    by (unfold h1; rewrite length_app; simpl; lia).
  assert (Hnew : heap_ints h1 (List.length h)
                 = Some (repeat 0 (Z.to_nat (out_len t))))
    by apply heap_ints_new.
  destruct (heap_ints h1 (Data t)) as [data|].
  - match type of H with finish _ _ ?r = _ => destruct r as [h2 p] eqn:El end.
    assert (Hh : h' = h2).
    { pose proof (finish_heap t (List.length h) (h2, p)) as F.
      rewrite H in F. exact F. }
    subst h2.
    destruct (scale_int_loop_frame _ _ _ _ _ _ _ _ _ _ _ _ El) as (Hl & _).
    destruct (scale_int_loop_dst _ _ _ _ _ _ _ _ _ _ _ _ _ El Hnew)
      as (l2 & Hl2 & Hlen2).
    split; [congruence|]. exists l2. split; [exact Hl2|].
    rewrite Hlen2. apply repeat_length.
  - inversion H; subst. split; [exact Hlen1|].
    eexists. split; [exact Hnew | apply repeat_length].
Qed.

Lemma scale_float32_alloc E h t params h' o :
  0 <= out_len t ->
  scale_float32 E h t params = (h', o) ->
  List.length h' = S (List.length h) /\
  exists bytes, heap_ints h' (List.length h) = Some bytes /\
                List.length bytes = Z.to_nat (out_len t).
Proof.
  intros Hn H. unfold scale_float32 in H. fold (out_len t) in H.
  rewrite (make_bytes_Ok h _ Hn) in H.
  set (h1 := h ++ [IntBuf (repeat 0 (Z.to_nat (out_len t)))]) in *.
  assert (Hlen1 : List.length h1 = S (List.length h))
    by (unfold h1; rewrite length_app; simpl; lia).
  assert (Hnew : heap_ints h1 (List.length h)
                 = Some (repeat 0 (Z.to_nat (out_len t))))
    by apply heap_ints_new.
  destruct (heap_f32s h1 (Data t)) as [data|].
  - match type of H with finish _ _ ?r = _ => destruct r as [h2 p] eqn:El end.
    assert (Hh : h' = h2).
    { pose proof (finish_heap t (List.length h) (h2, p)) as F.
      rewrite H in F. exact F. }
    subst h2.
    destruct (scale_f32_loop_frame _ _ _ _ _ _ _ _ _ _ _ _ _ El) as (Hl & _).
    destruct (scale_f32_loop_dst _ _ _ _ _ _ _ _ _ _ _ _ _ _ El Hnew)
      as (l2 & Hl2 & Hlen2).
    split; [congruence|]. exists l2. split; [exact Hl2|].
    rewrite Hlen2. apply repeat_length.
  - inversion H; subst. split; [exact Hlen1|].
    eexists. split; [exact Hnew | apply repeat_length].
Qed.

(** An allocating integer branch returns its result when the divisor is
    not zero and the new array has room for every sample. *)
Lemma scale_int_fresh_returns E k h t params h' o data d :
  (Data t < List.length h)%nat ->
  scale_int_fresh E k h t params = (h', o) ->
  heap_ints h (Data t) = Some data ->
  divisor_int E k h t params = Some d -> d <> 0 ->
  len data <= out_len t ->
  exists out, o = Ok out.
Proof.
  intros Ht H Hd Hdiv Hne Hroom. unfold scale_int_fresh in H.
  fold (out_len t) in H.
  assert (Hn : 0 <= out_len t) by (unfold len in Hroom; lia).
  rewrite (make_bytes_Ok h _ Hn) in H.
  rewrite (heap_ints_old _ _ _ Ht), Hd in H.
  unfold divisor_int in Hdiv. rewrite Hd in Hdiv.
  apply (f_equal (fun x => match x with Some z => z | None => 0 end))
    in Hdiv. cbv beta iota in Hdiv.
  cbv zeta in H. rewrite Hdiv in H.
  match type of H with
  | finish _ _ (scale_int_loop ?E ?k ?nd ?cl ?tr ?src ?dst ?n ?i ?h0) = _ =>
      destruct (scale_int_loop_returns E k nd cl tr src dst n i h0 Hne)
        as [h3 Hh3]
  end.
  - exists data. split; [|simpl; lia].
    rewrite (heap_ints_old _ _ _ Ht). exact Hd.
  - eexists. split; [apply heap_ints_new|].
    rewrite repeat_length. unfold len in Hroom. simpl. lia.
  - rewrite Hh3 in H. unfold finish in H. simpl in H.
    inversion H. eauto.
Qed.

(** The [Float32] branch returns its result when the new array has room
    for every sample. *)
Lemma scale_float32_returns E h t params h' o data :
  (Data t < List.length h)%nat ->
  scale_float32 E h t params = (h', o) ->
  heap_f32s h (Data t) = Some data ->
  len data <= out_len t ->
  exists out, o = Ok out.
Proof.
  intros Ht H Hd Hroom. unfold scale_float32 in H.
  fold (out_len t) in H.
  assert (Hn : 0 <= out_len t) by (unfold len in Hroom; lia).
  rewrite (make_bytes_Ok h _ Hn) in H.
  rewrite (heap_f32s_old _ _ _ Ht), Hd in H. cbv zeta in H.
  match type of H with
  | finish _ _ (scale_f32_loop ?E ?cs ?nd64 ?nd ?cl ?tr ?src ?dst ?n ?i ?h0)
    = _ =>
      destruct (scale_f32_loop_returns E cs nd64 nd cl tr src dst n i h0)
        as [h3 Hh3]
  end.
  - exists data. split; [|simpl; lia].
    rewrite (heap_f32s_old _ _ _ Ht). exact Hd.
  - eexists. split; [apply heap_ints_new|].
    rewrite repeat_length. unfold len in Hroom. simpl. lia.
  - rewrite Hh3 in H. unfold finish in H. simpl in H.
    inversion H. eauto.
Qed.

(** C8. For a [Byte] raster the scaler writes into the raster's own
    array: no array is allocated, no other array changes, the result
    refers to the same array, and every sample equal to the no-data value
    is 255 afterwards; the call returns whenever the divisor is not
    zero. For every other raster type, whatever the outcome, every array
    that existed before the call (the input's among them) is unchanged,
    and the result refers to an array allocated by the call: the call
    allocates exactly one array, of [Height * Width] bytes (when that
    product is not negative), and it returns its result when that array
    has room for every sample and, for the integer types, the divisor is
    not zero. *)
Theorem scaleNew_in_place_iff_byte : forall E h r params t h' o,
  fields r = Some t ->
  (Data t < List.length h)%nat ->
  scaleNew E h r params = (h', o) ->
  (if is_byte r then
    List.length h' = List.length h /\
    (forall a, a <> Data t -> nth_error h' a = nth_error h a) /\
    (forall out, o = Ok out ->
       Data out = Data t /\
       forall data, heap_ints h (Data t) = Some data ->
         exists data', heap_ints h' (Data t) = Some data' /\
           List.length data' = List.length data /\
           forall i,
             nth_error data i = Some (f2i (conv_undef E) KUint8 (NoData t)) ->
             nth_error data' i = Some 255) /\
    (forall data d, heap_ints h (Data t) = Some data ->
       divisor_int E KUint8 h t params = Some d -> d <> 0 ->
       exists out, o = Ok out)
  else
    (forall a, (a < List.length h)%nat -> nth_error h' a = nth_error h a) /\
    (forall out, o = Ok out ->
       Data out = List.length h /\ (List.length h < List.length h')%nat) /\
    (0 <= out_len t ->
     List.length h' = S (List.length h) /\
     exists bytes, heap_ints h' (List.length h) = Some bytes /\
                   List.length bytes = Z.to_nat (out_len t)) /\
    (forall k data d,
       int_kind r = Some k ->
       heap_ints h (Data t) = Some data ->
       divisor_int E k h t params = Some d -> d <> 0 ->
       len data <= out_len t ->
       exists out, o = Ok out) /\
    (forall data,
       int_kind r = None ->
       heap_f32s h (Data t) = Some data ->
       len data <= out_len t ->
       exists out, o = Ok out)).
Proof.
  intros E h r params t h' o Hf Ht H.
  destruct r as [u|u|u|u|u|]; cbn [fields] in Hf; inversion Hf; subst u;
    cbn [is_byte]; cbn [scaleNew] in H; cbn [int_kind].
  - destruct (scale_int_fresh_frame _ _ _ _ _ _ _ Ht H) as [F1 F2].
    split; [exact F1|]. split; [exact F2|]. split; [|split].
    + intros Hn. eapply scale_int_fresh_alloc; eassumption.
    + intros k data d Hk. apply (f_equal (fun x => match x with
                                                    | Some z => z
                                                    | None => KInt8
                                                    end)) in Hk.
      cbv beta iota in Hk. subst k.
      eapply scale_int_fresh_returns; eassumption.
    + discriminate.
  - unfold scale_byte in H.
    destruct (heap_ints h (Data t)) as [data|] eqn:Ed.
    + match type of H with finish _ _ ?r = _ =>
        destruct r as [h2 p] eqn:El end.
      destruct (scale_int_loop_frame _ _ _ _ _ _ _ _ _ _ _ _ El)
        as (Hl2 & Ho2).
      assert (Hh : h' = h2).
      { pose proof (finish_heap t (Data t) (h2, p)) as F.
        rewrite H in F. exact F. }
      subst h2. split; [exact Hl2|]. split; [exact Ho2|]. split.
      * intros out ->.
        assert (F : snd (finish t (Data t) (h', p)) = Ok out)
          by (rewrite H; reflexivity).
        apply finish_Ok in F. destruct F as [Hp F]. simpl in Hp. subst p.
        split; [exact F|].
        intros data0 Hd0. inversion Hd0; subst data0.
        destruct (scale_int_loop_in_place _ _ _ _ _ _ _ _ _ _ _ El Ed)
          as (l' & Hl' & Hlen & _ & Hnd).
        exists l'. split; [exact Hl'|]. split; [exact Hlen|].
        intros i Hi. apply Hnd; [|exact Hi].
        assert (i < List.length data)%nat
          by (apply nth_error_Some; congruence).
        lia.
      * intros data0 d Hd0 Hdiv Hd. inversion Hd0; subst data0.
        unfold divisor_int in Hdiv. rewrite Ed in Hdiv.
        inversion Hdiv; subst d.
        destruct (scale_int_loop_total E KUint8
                    (f2i (conv_undef E) KUint8 (NoData t))
                    (snd (offset_clip_int E KUint8 params
                            (f2i (conv_undef E) KUint8 (NoData t)) data))
                    _ (Data t) (List.length data) 0 h data Hd Ed)
          as [h3 Hh3]; [lia|].
        rewrite Hh3 in El. inversion El; subst.
        unfold finish in H. simpl in H. inversion H. eauto.
    + inversion H; subst. split; [reflexivity|]. split; [auto|].
      split; [discriminate|]. intros; discriminate.
  - destruct (scale_int_fresh_frame _ _ _ _ _ _ _ Ht H) as [F1 F2].
    split; [exact F1|]. split; [exact F2|]. split; [|split].
    + intros Hn. eapply scale_int_fresh_alloc; eassumption.
    + intros k data d Hk. apply (f_equal (fun x => match x with
                                                    | Some z => z
                                                    | None => KInt16
                                                    end)) in Hk.
      cbv beta iota in Hk. subst k.
      eapply scale_int_fresh_returns; eassumption.
    + discriminate.
  - destruct (scale_int_fresh_frame _ _ _ _ _ _ _ Ht H) as [F1 F2].
    split; [exact F1|]. split; [exact F2|]. split; [|split].
    + intros Hn. eapply scale_int_fresh_alloc; eassumption.
    + intros k data d Hk. apply (f_equal (fun x => match x with
                                                    | Some z => z
                                                    | None => KUint16
                                                    end)) in Hk.
      cbv beta iota in Hk. subst k.
      eapply scale_int_fresh_returns; eassumption.
    + discriminate.
  - destruct (scale_float32_frame _ _ _ _ _ _ Ht H) as [F1 F2].
    split; [exact F1|]. split; [exact F2|]. split; [|split].
    + intros Hn. eapply scale_float32_alloc; eassumption.
    + discriminate.
    + intros data _. eapply scale_float32_returns; eassumption.
Qed.

Lemma scaleNew_in_place_iff_byte_witness :
  (scaleNew env0 [IntBuf [5; 255; 7]] (ByteRaster (raster1 0%nat 3 255))
            params_auto
   = ([IntBuf [129; 255; 0]], Ok (raster1 0%nat 3 255)) /\
   exists data',
     heap_ints [IntBuf [129; 255; 0]] (Data (raster1 0%nat 3 255))
     = Some data' /\
     nth_error data' 1 = Some 255) /\
  (exists h' out bytes,
     scaleNew env0 [IntBuf [5; -1; 7]] (Int16Raster (raster1 0%nat 3 (-1)))
              params_auto
     = (h', Ok out) /\
     nth_error h' 0%nat = Some (IntBuf [5; -1; 7]) /\
     List.length h' = 2%nat /\
     Data out = 1%nat /\
     heap_ints h' 1%nat = Some bytes /\ List.length bytes = 3%nat).
Proof.
  split.
  - assert (H0 : scaleNew env0 [IntBuf [5; 255; 7]]
                          (ByteRaster (raster1 0%nat 3 255)) params_auto
                 = ([IntBuf [129; 255; 0]], Ok (raster1 0%nat 3 255)))
      by (vm_compute; reflexivity).
    split; [exact H0|].
    pose proof (scaleNew_in_place_iff_byte env0 [IntBuf [5; 255; 7]]
                  (ByteRaster (raster1 0%nat 3 255)) params_auto
                  (raster1 0%nat 3 255) _ _ eq_refl
                  (Nat.lt_0_succ 0) H0) as H.
    cbn [is_byte] in H. destruct H as (_ & _ & Ho & _).
    destruct (Ho (raster1 0%nat 3 255) eq_refl) as (_ & Hd).
    destruct (Hd [5; 255; 7] eq_refl) as (data' & Hh & _ & Hn).
    exists data'. split; [exact Hh|].
    apply Hn. vm_compute. reflexivity.
  - destruct (scaleNew env0 [IntBuf [5; -1; 7]]
                       (Int16Raster (raster1 0%nat 3 (-1))) params_auto)
      as [h' o] eqn:H0.
    pose proof (scaleNew_in_place_iff_byte env0 [IntBuf [5; -1; 7]]
                  (Int16Raster (raster1 0%nat 3 (-1))) params_auto
                  (raster1 0%nat 3 (-1)) h' o eq_refl
                  (Nat.lt_0_succ 0) H0) as H.
    cbn [is_byte] in H. destruct H as (Hold & Hout & Halloc & Hret & _).
    destruct (Hret KInt16 [5; -1; 7] 2 eq_refl eq_refl
                   ltac:(vm_compute; reflexivity)
                   ltac:(discriminate)
                   ltac:(vm_compute; discriminate)) as (out & ->).
    destruct (Halloc ltac:(vm_compute; discriminate))
      as (Hlen & bytes & Hb & Hbl).
    destruct (Hout out eq_refl) as (Hd & _).
    exists h', out, bytes. split; [reflexivity|].
    split; [apply (Hold 0%nat); simpl; lia|].
    split; [exact Hlen|]. split; [exact Hd|]. split; assumption.
Defined.

End ScalerFacts.

(** ** The band-math complexity check *)

Section ConfigFacts.
Import Config.

(** C9. With an empty [VariableLookup] the check rejects every set of
    expressions with the error "user-defined band math is not enabled
    for this layer", whatever the ceilings and the ACL are and whatever
    the expressions contain. *)
Theorem CheckBandExpressionsComplexity_no_variables :
  forall bandExpr criteria,
    VariableLookup criteria = [] ->
    CheckBandExpressionsComplexity bandExpr criteria = Some NotEnabled.
Proof.
  intros bandExpr criteria H.
  unfold CheckBandExpressionsComplexity. rewrite H. reflexivity.
Qed.

(** The expression [1 + 2] under generous ceilings: it has no variable
    and passes every ceiling and the ACL, and is rejected all the
    same. *)
Lemma CheckBandExpressionsComplexity_no_variables_witness :
  has_variable expr_one_plus_two = false /\
  passes_ceilings_and_acl expr_one_plus_two criteria_no_variables = true /\
  CheckBandExpressionsComplexity expr_one_plus_two criteria_no_variables
  = Some NotEnabled.
Proof.
  split; [reflexivity|]. split; [reflexivity|].
  apply (CheckBandExpressionsComplexity_no_variables
           expr_one_plus_two criteria_no_variables).
  reflexivity.
Defined.

(** The first guard is what rejects: with one variable exposed the same
    expression passes. *)
Lemma CheckBandExpressionsComplexity_one_variable :
  CheckBandExpressionsComplexity
    expr_one_plus_two
    {| MaxVariables := 10; MaxTokens := 10; MaxExpressions := 10;
       TokenACL := []; VariableLookup := ["B4"] |} = None.
Proof. reflexivity. Qed.

End ConfigFacts.

(** ** [sort.Slice] *)

Section SortFacts.
Import Indexer.

Context {A : Type} (less : A -> A -> bool).

Let R (x y : A) : Prop := less x y = true.

Lemma sift_perm x racc : Permutation (x :: racc) (sift less x racc).
Proof.
  induction racc as [|y r IH]; simpl.
  - apply Permutation_refl.
  - destruct (less x y).
    + eapply Permutation_trans; [apply perm_swap|].
      apply perm_skip. exact IH.
    + apply Permutation_refl.
Qed.

Lemma fold_sift_perm l : forall racc,
  Permutation (rev racc ++ l)
              (rev (fold_left (fun racc x => sift less x racc) l racc)).
Proof.
  induction l as [|x l IH]; intros racc; simpl.
  - rewrite app_nil_r. apply Permutation_refl.
  - eapply Permutation_trans; [|apply IH].
    replace (rev racc ++ x :: l) with ((rev racc ++ [x]) ++ l)
      by (rewrite <- app_assoc; reflexivity).
    apply Permutation_app_tail.
    change (rev racc ++ [x]) with (rev (x :: racc)).
    eapply Permutation_trans; [apply Permutation_sym, Permutation_rev|].
    eapply Permutation_trans; [apply sift_perm|].
    apply Permutation_rev.
Qed.

Lemma insertionSort_perm l : Permutation l (insertionSort less l).
Proof. apply (fold_sift_perm l []). Qed.

(** The order is total and transitive on the elements that satisfy
    [P]. *)
Variable P : A -> Prop.
Hypothesis total : forall x y, P x -> P y -> less x y = false -> R y x.
Hypothesis trans : forall x y z, R x y -> R y z -> R x z.

Let R' (y x : A) : Prop := R x y.

Lemma sift_sorted x racc :
  P x -> Forall P racc -> StronglySorted R' racc ->
  StronglySorted R' (sift less x racc).
Proof.
  intros Px. induction racc as [|y r IH]; intros HP HS; simpl.
  - repeat constructor.
  - inversion HP as [|? ? Py HPr]; subst.
    inversion HS as [|? ? HSr Hy]; subst.
    destruct (less x y) eqn:Exy.
    + constructor; [apply IH; assumption|].
      apply (Permutation_Forall (sift_perm x r)).
      constructor; [exact Exy | exact Hy].
    + constructor; [exact HS|].
      assert (Ryx : R y x) by (apply total; assumption).
      constructor; [exact Ryx|].
      eapply Forall_impl; [|exact Hy].
      intros z Hz. unfold R' in *. eapply trans; eassumption.
Qed.

Lemma fold_sift_sorted l : forall racc,
  Forall P l -> Forall P racc -> StronglySorted R' racc ->
  StronglySorted R' (fold_left (fun racc x => sift less x racc) l racc).
Proof.
  induction l as [|x l IH]; intros racc Hl Hr HS; simpl; [exact HS|].
  inversion Hl; subst. apply IH; [assumption| |].
  - apply (Permutation_Forall (sift_perm x racc)). constructor; assumption.
  - apply sift_sorted; assumption.
Qed.

Lemma StronglySorted_snoc (Q : A -> A -> Prop) l a :
  StronglySorted Q l -> Forall (fun z => Q z a) l ->
  StronglySorted Q (l ++ [a]).
Proof.
  induction l as [|y l IH]; intros HS HF; simpl.
  - repeat constructor.
  - inversion HS; subst. inversion HF; subst.
    constructor; [apply IH; assumption|].
    apply Forall_app. split; [assumption | repeat constructor; assumption].
Qed.

Lemma StronglySorted_rev l :
  StronglySorted R' l -> StronglySorted R (rev l).
Proof.
  induction l as [|y l IH]; intros HS; simpl; [constructor|].
  inversion HS; subst. apply StronglySorted_snoc; [apply IH; assumption|].
  apply Forall_rev. assumption.
Qed.

Lemma insertionSort_sorted l :
  Forall P l -> StronglySorted R (insertionSort less l).
Proof.
  intros Hl. apply StronglySorted_rev.
  apply fold_sift_sorted; [exact Hl | constructor | constructor].
Qed.

End SortFacts.

Section SortedUnique.

Context {A : Type} (R : A -> A -> Prop).

(** Two sorted arrangements of the same elements are the same list, when
    no two different elements are below each other. *)
Lemma sorted_perm_unique : forall l1 l2 : list A,
  StronglySorted R l1 -> StronglySorted R l2 -> Permutation l1 l2 ->
  (forall a b, In a l1 -> In b l1 -> R a b -> R b a -> a = b) ->
  l1 = l2.
Proof.
  induction l1 as [|a l1 IH]; intros l2 H1 H2 HP Hanti.
  - apply Permutation_nil in HP. congruence.
  - destruct l2 as [|b l2].
    + apply Permutation_sym, Permutation_nil in HP. discriminate.
    + inversion H1 as [|? ? H1' Ha]; subst.
      inversion H2 as [|? ? H2' Hb]; subst.
      assert (Hab : a = b).
      { assert (Ia : In a (b :: l2))
          by (eapply Permutation_in; [exact HP | left; reflexivity]).
        assert (Ib : In b (a :: l1))
          by (eapply Permutation_in;
              [apply Permutation_sym; exact HP | left; reflexivity]).
        destruct Ia as [Ia|Ia]; [congruence|].
        destruct Ib as [Ib|Ib]; [congruence|].
        apply Hanti; [left; reflexivity | right; exact Ib | |].
        - rewrite Forall_forall in Ha. apply Ha; exact Ib.
        - rewrite Forall_forall in Hb. apply Hb; exact Ia. }
      subst b. f_equal. apply IH; try assumption.
      * eapply Permutation_cons_inv; exact HP.
      * intros x y Hx Hy. apply Hanti; right; assumption.
Qed.

End SortedUnique.

(** ** The indexer: errors, the empty tile, the spatial extent *)

Section RunFacts.
Import Indexer.

(** *** What the channel and queue operations leave alone *)

Lemma sendError_frame s err :
  Out (sendError s err) = Out s /\
  Queries (sendError s err) = Queries s /\
  ctx_done (sendError s err) = ctx_done s.
Proof. repeat split. Qed.

Lemma checkCancellation_frame E s :
  Queries (fst (checkCancellation E s)) = Queries s /\
  Out (fst (checkCancellation E s)) = Out s.
Proof.
  unfold checkCancellation. destruct (select_cancel E s); split; reflexivity.
Qed.

Lemma emit_Queries E cfg grans : forall s,
  Queries (emit E s cfg grans) = Queries s.
Proof.
  induction grans as [|g tl IH]; intros s; simpl; [reflexivity|].
  pose proof (checkCancellation_frame E s) as [Hq _].
  destruct (checkCancellation E s) as [s' [|]]; simpl in *.
  - exact Hq.
  - rewrite IH. simpl. exact Hq.
Qed.

Lemma URLIndexGet_Queries E s url geoReq isEmptyTile resp s' r :
  URLIndexGet E s url geoReq isEmptyTile resp = Ok (s', r) ->
  Queries s' = Queries s ++ [url].
Proof.
  unfold URLIndexGet. destruct resp as [c|c|c|md].
  1-3: intros H; inversion H; reflexivity.
  destruct (GDALDatasets md) as [|d dss] eqn:Ed.
  - intros H; inversion H; reflexivity.
  - destruct (index_response E geoReq isEmptyTile md) as [ix|e|m];
      intros H; inversion H; subst.
    + rewrite emit_Queries. reflexivity.
    + reflexivity.
Qed.

Lemma run_queries_Queries E isEmptyTile urls : forall s geoReq s' r,
  run_queries E s geoReq isEmptyTile urls = Ok (s', r) ->
  Queries s' = Queries s ++ urls.
Proof.
  induction urls as [|u tl IH]; intros s geoReq s' r H; simpl in H.
  - inversion H; subst. rewrite app_nil_r. reflexivity.
  - destruct (URLIndexGet E s u geoReq isEmptyTile (http E u))
      as [[s1 r1]|e|m] eqn:Eu; simpl in H; try discriminate.
    apply URLIndexGet_Queries in Eu. apply IH in H. simpl in H.
    rewrite H, Eu, <- app_assoc. reflexivity.
Qed.

Lemma record_metrics_frame E s geoReq ns url s' :
  record_metrics E s geoReq ns url = Ok s' ->
  Out s' = Out s /\ Queries s' = Queries s.
Proof.
  unfold record_metrics.
  destruct (MetricsCollector (req_Config geoReq)) as [mc|];
    [|intros H; inversion H; auto].
  destruct (lookup_ref mc (RawURL s)); [intros H; inversion H; auto|].
  destruct (OrigBBox geoReq) as [|b tl].
  - simpl. intros H; inversion H; auto.
  - destruct (BBox2WKT (b :: tl)) as [w|e|m]; simpl; try discriminate.
    destruct (getIndexerURL E geoReq (Collection geoReq) ns (Some w)
                            (req_CRS geoReq)) as [u|e|m];
      simpl; try discriminate.
    intros H; inversion H; auto.
Qed.

(** *** A failed exchange with the metadata service *)

(** C6. When the HTTP GET, the reading of the body or the decoding of the
    JSON fails, [URLIndexGet] sends exactly one empty-tile granule, and
    offers the error to the channel without blocking: an empty channel
    takes it, a channel that holds an error keeps that error and the new
    one is dropped. *)
Theorem URLIndexGet_failure : forall E s url geoReq isEmptyTile resp err,
  failure_of url resp = Some err ->
  exists s',
    URLIndexGet E s url geoReq isEmptyTile resp = Ok (s', geoReq) /\
    Out s' = Out s ++ [empty_tile E geoReq] /\
    Error s' = match Error s with
               | [] => [err]
               | first :: rest => first :: rest
               end /\
    Path (empty_tile E geoReq) = "NULL" /\
    NameSpace (empty_tile E geoReq) = EmptyTileNS E /\
    RasterType (empty_tile E geoReq) = "Byte".
Proof.
  intros E s url geoReq isEmptyTile resp err H.
  destruct resp as [c|c|c|md]; simpl in H; inversion H; subst;
    eexists; (split; [reflexivity|]); simpl;
    (split; [reflexivity|]);
    (split; [|repeat split]);
    unfold chan_try_send, chan_full, ErrorCap;
    destruct (Error s) as [|e0 tl]; reflexivity.
Qed.

Lemma URLIndexGet_failure_witness :
  exists s',
    URLIndexGet env_plain state0
                {| u_address := "mas:8888"; u_collection := "/c";
                   u_time := 0; u_until := None; u_srs := "EPSG:3857";
                   u_wkt := None; u_namespace := "B"; u_nseg := 2;
                   u_limit := 0 |}
                (request "/c" (config ["B"] 0 []) [0; 0; 10; 10] [])
                false (GetError "connection refused")
    = Ok (s', request "/c" (config ["B"] 0 []) [0; 0; 10; 10] []) /\
    List.length (Out s') = 1%nat /\ List.length (Error s') = 1%nat.
Proof.
  destruct (URLIndexGet_failure env_plain state0
              {| u_address := "mas:8888"; u_collection := "/c";
                 u_time := 0; u_until := None; u_srs := "EPSG:3857";
                 u_wkt := None; u_namespace := "B"; u_nseg := 2;
                 u_limit := 0 |}
              (request "/c" (config ["B"] 0 []) [0; 0; 10; 10] [])
              false (GetError "connection refused") _ eq_refl)
    as (s' & H & Ho & He & _).
  exists s'. split; [exact H|]. rewrite Ho, He. split; reflexivity.
Defined.

(** *** The request without a collection *)

(** C2, as stated, at a cancelled context: the request has no collection,
    and the indexer returns without sending any granule. *)
Lemma Run_empty_collection_cancelled :
  strlen (TrimSpace (Collection (request "  " (config ["B"] 0 [])
                                         [0; 0; 10; 10] []))) = 0 /\
  exists s',
    Run env_plain state_cancelled
        [request "  " (config ["B"] 0 []) [0; 0; 10; 10] []] = Ok s' /\
    Out s' = [].
Proof.
  split; [reflexivity|]. eexists. split; reflexivity.
Qed.

(** What the [select] of [Run] does with a cancelled context or a queued
    error: the loop ends there, nothing is sent and no query is made. *)
Lemma Run_loop_cancelled E isInit s geoReq rest :
  ctx_done s = true \/ Error s <> [] ->
  exists s',
    Run_loop E isInit s (geoReq :: rest) = Ok s' /\
    Out s' = Out s /\ Queries s' = Queries s.
Proof.
  intros H. cbn [Run_loop]. unfold select_cancel.
  destruct (Error s) as [|err tl] eqn:He.
  - destruct H as [H|H]; [|contradiction]. rewrite H.
    eexists. split; [reflexivity|]. split; reflexivity.
  - destruct (ctx_done s && select_ctx_first E);
      eexists; (split; [reflexivity|]); split; reflexivity.
Qed.

(** C2, amended. The request's collection is empty after trimming. When
    the indexer takes the request up (the context is not done and no
    error is queued), it sends exactly one granule, the empty tile with
    path "NULL", the empty-tile name space, raster type "Byte" and the
    request's width and height, issues no metadata query, and returns
    without serving the requests behind it. With a cancelled context or
    a queued error it returns without sending anything and without a
    query. *)
Theorem Run_empty_collection : forall E isInit s geoReq rest,
  strlen (TrimSpace (Collection geoReq)) = 0 ->
  (ctx_done s = false ->
   Error s = [] ->
   exists g,
     Run_loop E isInit s (geoReq :: rest) = Ok (send s g) /\
     Out (send s g) = Out s ++ [g] /\
     Queries (send s g) = Queries s /\
     Path g = "NULL" /\
     NameSpace g = EmptyTileNS E /\
     NameSpaces (gran_Config g) = [EmptyTileNS E] /\
     RasterType g = "Byte" /\
     gran_Width g = req_Width geoReq /\
     gran_Height g = req_Height geoReq) /\
  (ctx_done s = true \/ Error s <> [] ->
   exists s',
     Run_loop E isInit s (geoReq :: rest) = Ok s' /\
     Out s' = Out s /\ Queries s' = Queries s).
Proof.
  intros E isInit s geoReq rest Hl. split.
  - intros Hc He. exists (empty_tile E geoReq). split.
    + simpl. unfold select_cancel. rewrite He, Hc.
      unfold serve. rewrite Hl. reflexivity.
    + repeat split.
  - apply Run_loop_cancelled.
Qed.

Lemma Run_empty_collection_witness :
  (exists g,
     Run env_plain state0
         [request "" (config ["B"] 0 []) [0; 0; 10; 10] [];
          request "/c" (config ["B"] 0 []) [0; 0; 10; 10] []]
     = Ok (send state0 g) /\
     gran_Width g = 256 /\ gran_Height g = 256) /\
  (exists s',
     Run env_plain state_queued
         [request "" (config ["B"] 0 []) [0; 0; 10; 10] []] = Ok s' /\
     Out s' = [] /\ Queries s' = []).
Proof.
  split.
  - destruct (Run_empty_collection env_plain true state0
                (request "" (config ["B"] 0 []) [0; 0; 10; 10] [])
                [request "/c" (config ["B"] 0 []) [0; 0; 10; 10] []]
                eq_refl) as [H _].
    destruct (H eq_refl eq_refl)
      as (g & Hr & _ & _ & _ & _ & _ & _ & Hw & Hh).
    exists g. split; [exact Hr|]. split; assumption.
  - destruct (Run_empty_collection env_plain true state_queued
                (request "" (config ["B"] 0 []) [0; 0; 10; 10] [])
                [] eq_refl) as [_ H].
    apply H. right. discriminate.
Defined.

End RunFacts.

(** ** The spatial-extent check *)

Section ExtentFacts.
Import Indexer.

Lemma zero_extent_not_inverted c : zero_extent c = true -> inverted c = false.
Proof.
  destruct c as [[[c0 c1] c2] c3]. unfold zero_extent, inverted.
  intros H. apply orb_prop in H.
  destruct H as [H|H]; apply andb_prop in H; destruct H as [H1 H2].
  - rewrite (f_eq_not_lt _ _ H1), (f_le_not_gt _ _ H2). reflexivity.
  - rewrite (f_le_not_gt _ _ H2), (f_eq_not_lt _ _ H1). reflexivity.
Qed.

Lemma tile_steps_S fuel size : tile_steps (S fuel) 0 size <> [].
Proof.
  unfold tile_steps; fold tile_steps. change (0 <? 256) with true.
  cbv iota. discriminate.
Qed.

Lemma tile_steps_nonempty size : tile_steps 256 0 size <> [].
Proof. apply (tile_steps_S 255). Qed.

Lemma tile_bboxes_nonempty E geoReq c xRes yRes :
  tile_bboxes E geoReq c xRes yRes <> [].
Proof.
  unfold tile_bboxes.
  set (mx := max_tile_size E (IndexTileXSize (req_Config geoReq))).
  set (my := max_tile_size E (IndexTileYSize (req_Config geoReq))).
  pose proof (tile_steps_nonempty mx) as Hx.
  pose proof (tile_steps_nonempty my) as Hy.
  destruct (tile_steps 256 0 my) as [|y ys]; [contradiction|].
  destruct (tile_steps 256 0 mx) as [|x xs]; [contradiction|].
  cbn [flat_map map app]. discriminate.
Qed.

Lemma traverse_length {X A B} (f : A -> Outcome X B) l : forall bs,
  traverse f l = Ok bs -> List.length bs = List.length l.
Proof.
  induction l as [|a tl IH]; cbn [traverse]; intros bs H.
  - inversion H; reflexivity.
  - destruct (f a) as [b|e|m]; cbn [bind] in H; try discriminate.
    destruct (traverse f tl) as [bs'|e|m]; cbn [bind] in H; try discriminate.
    inversion H; subst. cbn [List.length]. f_equal. apply IH. reflexivity.
Qed.

Lemma traverse_getIndexerURL E geoReq ns crs t boxes :
  StartTime geoReq = Some t ->
  exists urls,
    traverse (X := Empty_set)
             (fun b => getIndexerURL E geoReq (Collection geoReq) ns
                                     (Some b) crs) boxes = Ok urls.
Proof.
  intros Ht. induction boxes as [|b tl IH]; cbn [traverse].
  - exists []. reflexivity.
  - destruct IH as (urls & Hu).
    unfold getIndexerURL at 1. rewrite Ht. cbn [bind]. rewrite Hu.
    cbn [bind]. eexists. reflexivity.
Qed.

Lemma perm_nonempty {A} (l l' : list A) :
  Permutation l l' -> l <> [] -> l' <> [].
Proof.
  intros HP Hl ->. apply Permutation_sym, Permutation_nil in HP.
  contradiction.
Qed.

Lemma length_nonempty {A} (l : list A) : l <> [] <-> List.length l <> 0%nat.
Proof. destruct l; cbn [List.length]; split; intros H; congruence. Qed.

(** The sub-division never gives the empty tile, and starts at least one
    query. *)
Lemma subdivide_launch E geoReq ns w url c p :
  env_ok E ->
  subdivide E geoReq ns w url c = Ok p ->
  exists urls w', p = Launch urls w' /\ urls <> [].
Proof.
  intros (_ & _ & Hsh). unfold subdivide.
  destruct c as [[[x0 x1] x2] x3]. cbv beta iota zeta.
  match goal with |- context [if ?b then _ else _] => destruct b end.
  - match goal with |- context [traverse ?f ?l] =>
      destruct (traverse f l) as [us|e|m] eqn:Et end;
      cbn [bind]; try discriminate.
    intros H. apply Ok_inj in H. subst p.
    eexists. eexists. split; [reflexivity|].
    apply traverse_length in Et.
    eapply perm_nonempty; [apply Hsh|].
    apply length_nonempty. rewrite Et. apply length_nonempty.
    apply tile_bboxes_nonempty.
  - intros H. apply Ok_inj in H. subst p. eexists. eexists.
    split; [reflexivity | discriminate].
Qed.

Lemma subdivide_returns E geoReq ns w url c t :
  StartTime geoReq = Some t ->
  exists p, subdivide E geoReq ns w url c = Ok p.
Proof.
  intros Ht. unfold subdivide.
  destruct c as [[[x0 x1] x2] x3]. cbv beta iota zeta.
  match goal with |- context [if ?b then _ else _] => destruct b end.
  - match goal with |- context [traverse ?f ?l] =>
      destruct (traverse_getIndexerURL E geoReq ns "EPSG:3857" t l Ht)
        as (urls & Hu) end.
    rewrite Hu. cbn [bind]. eexists. reflexivity.
  - eexists. reflexivity.
Qed.

Lemma extent_stage_clipped E geoReq ns w url c :
  clipped_box E geoReq c ->
  extent_stage E geoReq ns w url
  = if inverted c then Ok EmitEmpty else subdivide E geoReq ns w url c.
Proof.
  intros (c0 & H4 & Hg & Hc). unfold extent_stage. cbv zeta.
  apply Z.leb_le in H4. rewrite H4, Hg. cbn [bind]. rewrite Hc.
  cbn [bind]. reflexivity.
Qed.

Lemma extent_stage_EmitEmpty E geoReq ns w url :
  env_ok E ->
  extent_stage E geoReq ns w url = Ok EmitEmpty ->
  exists c, clipped_box E geoReq c /\ inverted c = true.
Proof.
  intros Hok. unfold extent_stage. cbv zeta.
  destruct (4 <=? len (SpatialExtent (req_Config geoReq))) eqn:E4;
    [|cbn [bind]; discriminate].
  destruct (GetCanonicalBbox E (req_CRS geoReq) (req_BBox geoReq))
    as [c0|e|m] eqn:Eg; [|cbn [bind]; discriminate..].
  destruct (clip_bbox c0 (SpatialExtent (req_Config geoReq)))
    as [c|e|m] eqn:Ec; cbn [bind]; try discriminate.
  destruct (inverted c) eqn:Ei.
  - intros _. exists c. split; [|exact Ei].
    exists c0. apply Z.leb_le in E4. auto.
  - intros H. destruct (subdivide_launch _ _ _ _ _ _ _ Hok H)
      as (urls & w' & Hp & _). discriminate.
Qed.

Lemma extent_stage_launch_nonempty E geoReq ns w url urls w' :
  env_ok E ->
  extent_stage E geoReq ns w url = Ok (Launch urls w') -> urls <> [].
Proof.
  intros Hok. unfold extent_stage. cbv zeta.
  match goal with |- context [bind ?o _] => destruct o as [[c|]|e|m] end;
    cbn [bind]; try discriminate.
  2:{ intros H; inversion H; discriminate. }
  destruct (inverted c); [discriminate|].
  intros H. destruct (subdivide_launch _ _ _ _ _ _ _ Hok H)
    as (urls0 & w0 & Hp & Hn). inversion Hp; subst. exact Hn.
Qed.

Lemma env_plain_ok : env_ok env_plain.
Proof. repeat split; intros; apply Permutation_refl. Qed.


(** *** What [Run] changes in a request before the check *)

Lemma prepared_fields E geoReq :
  req_CRS (prepared E geoReq) = req_CRS geoReq /\
  req_BBox (prepared E geoReq) = req_BBox geoReq /\
  Collection (prepared E geoReq) = Collection geoReq /\
  SpatialExtent (req_Config (prepared E geoReq))
  = SpatialExtent (req_Config geoReq) /\
  MetricsCollector (req_Config (prepared E geoReq))
  = MetricsCollector (req_Config geoReq).
Proof.
  unfold prepared, add_default_namespace, resolve_time.
  destruct (lookup "time" (Axes geoReq)) as [axis|].
  - destruct (InValues axis) as [|v vs];
      match goal with
      | |- context [NameSpaces (req_Config ?r)] =>
          destruct (NameSpaces (req_Config r))
      end; repeat split.
  - destruct (NameSpaces (req_Config geoReq)); repeat split.
Qed.

Lemma clipped_box_prepared E geoReq c :
  clipped_box E (prepared E geoReq) c <-> clipped_box E geoReq c.
Proof.
  unfold clipped_box.
  destruct (prepared_fields E geoReq) as (-> & -> & _ & -> & _).
  reflexivity.
Qed.

Lemma clipped_box_unique E geoReq c c' :
  clipped_box E geoReq c -> clipped_box E geoReq c' -> c = c'.
Proof.
  intros (c0 & _ & Hg & Hc) (c0' & _ & Hg' & Hc').
  rewrite Hg in Hg'. apply Ok_inj in Hg'. subst c0'.
  rewrite Hc in Hc'. apply Ok_inj in Hc'. exact Hc'.
Qed.

(** A request that has a clipped box has a box of four corners. *)
Lemma clipped_box_BBox2WKT E geoReq c :
  clipped_box E geoReq c ->
  exists w, BBox2WKT (X := Empty_set) (req_BBox geoReq) = Ok w.
Proof.
  intros (c0 & _ & Hg & Hc). unfold GetCanonicalBbox in Hg.
  cbv zeta in Hg.
  destruct (ToUpper E (TrimSpace (req_CRS geoReq)) =? "EPSG:3857")%string.
  - apply Ok_inj in Hg. subst c0. unfold clip_bbox in Hc.
    destruct (req_BBox geoReq) as [|x0 [|x1 [|x2 [|x3 tl]]]];
      try discriminate.
    eexists. reflexivity.
  - destruct (negb (gdal_transformer E _)); [discriminate|].
    destruct (req_BBox geoReq) as [|x0 [|x1 [|x2 [|x3 tl]]]];
      try discriminate.
    eexists. reflexivity.
Qed.

(** [serve] up to the spatial-extent check, for a request that names a
    collection and a start time and has no metrics collector. *)
Lemma serve_to_extent_stage E isInit s geoReq c t :
  strlen (TrimSpace (Collection geoReq)) <> 0 ->
  clipped_box E geoReq c ->
  StartTime (prepared E geoReq) = Some t ->
  MetricsCollector (req_Config geoReq) = None ->
  exists w url,
    serve E isInit s geoReq
    = let* plan := extent_stage E (prepared E geoReq)
                                (query_namespaces E (prepared E geoReq))
                                w url in
      match plan with
      | EmitEmpty => Ok (Return (send s (empty_tile E (prepared E geoReq))))
      | Launch urls bboxWkt' =>
          let* mask := mask_query E (prepared E geoReq)
                                  (query_namespaces E (prepared E geoReq))
                                  bboxWkt' in
          let* r := run_queries E s (prepared E geoReq)
                                (is_empty_tile E (prepared E geoReq))
                                (urls ++ mask) in
          Ok (Next (fst r))
      end.
Proof.
  intros Hn Hc Ht Hm. unfold serve.
  apply Z.eqb_neq in Hn. rewrite Hn. cbv zeta.
  fold (prepared E geoReq).
  fold (query_namespaces E (prepared E geoReq)).
  destruct (prepared_fields E geoReq) as (_ & Hb & _ & _ & Hmc).
  destruct (clipped_box_BBox2WKT E geoReq c Hc) as (w0 & Hw).
  rewrite Hb, Hw. cbn [bind].
  match goal with
  | |- context [bind (if ?b then Ok (Some w0) else Ok None) _] =>
      set (w := if b then Some w0 else None);
      replace (if b then Ok (X := Empty_set) (Some w0) else Ok None)
        with (Ok (X := Empty_set) w) by (unfold w; destruct b; reflexivity)
  end.
  cbn [bind]. unfold getIndexerURL at 1. rewrite Ht. cbn [bind].
  match goal with
  | |- context [extent_stage _ _ _ _ ?u] => set (url := u)
  end.
  exists w, url. destruct isInit.
  - unfold record_metrics. rewrite Hmc, Hm. reflexivity.
  - reflexivity.
Qed.

(** C10. The spatial-extent check ends the request with the empty tile
    exactly when the box clipped to the extent is inverted
    ([xmax < xmin] or [ymax < ymin]). A clipped box of width or height
    zero is not inverted: the check lets the request through and at least
    one metadata query is started for it. Of the indexer itself: a
    request with a collection that is served to its end either has an
    inverted clipped box, and then the indexer sends the empty tile,
    makes no query and returns; or has no inverted clipped box, and then
    the indexer goes on to the next request having issued at least one
    metadata query. With a start time and no metrics collector the
    request is served up to the check: for an inverted clipped box the
    indexer returns with the empty tile sent, for any other clipped box
    it runs a list of queries that is not empty. *)
Theorem extent_check_empty_iff_inverted :
  forall E geoReq nameSpaces bboxWkt url,
    env_ok E ->
    (extent_stage E geoReq nameSpaces bboxWkt url = Ok EmitEmpty <->
     exists c, clipped_box E geoReq c /\ inverted c = true)
    /\
    (forall c t,
       clipped_box E geoReq c ->
       zero_extent c = true ->
       StartTime geoReq = Some t ->
       inverted c = false /\
       exists urls w,
         extent_stage E geoReq nameSpaces bboxWkt url = Ok (Launch urls w) /\
         urls <> [])
    /\
    (forall isInit s r,
       strlen (TrimSpace (Collection geoReq)) <> 0 ->
       serve E isInit s geoReq = Ok r ->
       ((exists c, clipped_box E geoReq c /\ inverted c = true) /\
        exists s1,
          r = Return (send s1 (empty_tile E (prepared E geoReq))) /\
          Out s1 = Out s /\ Queries s1 = Queries s)
       \/
       ((forall c, clipped_box E geoReq c -> inverted c = false) /\
        exists s' urls,
          r = Next s' /\ urls <> [] /\ Queries s' = Queries s ++ urls))
    /\
    (forall isInit s c t,
       strlen (TrimSpace (Collection geoReq)) <> 0 ->
       clipped_box E geoReq c ->
       StartTime (prepared E geoReq) = Some t ->
       MetricsCollector (req_Config geoReq) = None ->
       if inverted c
       then serve E isInit s geoReq
            = Ok (Return (send s (empty_tile E (prepared E geoReq))))
       else
         exists urls w,
           urls <> [] /\
           serve E isInit s geoReq
           = let* mask := mask_query E (prepared E geoReq)
                            (query_namespaces E (prepared E geoReq)) w in
             let* r := run_queries E s (prepared E geoReq)
                                   (is_empty_tile E (prepared E geoReq))
                                   (urls ++ mask) in
             Ok (Next (fst r))).
Proof.
  intros E geoReq ns w url Hok. split; [|split; [|split]].
  - split.
    + apply extent_stage_EmitEmpty. exact Hok.
    + intros (c & Hc & Hi).
      rewrite (extent_stage_clipped _ _ _ _ _ _ Hc), Hi. reflexivity.
  - intros c t Hc Hz Ht.
    pose proof (zero_extent_not_inverted c Hz) as Hi.
    split; [exact Hi|].
    rewrite (extent_stage_clipped _ _ _ _ _ _ Hc), Hi.
    destruct (subdivide_returns E geoReq ns w url c t Ht) as (p & Hp).
    destruct (subdivide_launch _ _ _ _ _ _ _ Hok Hp)
      as (urls & w' & -> & Hn).
    exists urls, w'. split; assumption.
  - intros isInit s r Hcol. unfold serve.
    apply Z.eqb_neq in Hcol. rewrite Hcol. cbv zeta.
    fold (prepared E geoReq).
    set (g1 := prepared E geoReq).
    set (ns1 := if is_empty_tile E g1 then ""
                else Join (NameSpaces (req_Config g1)) ",").
    match goal with |- context [bind ?o _] => destruct o as [w1|e|m] end;
      cbn [bind]; try discriminate.
    destruct (getIndexerURL E g1 (Collection g1) ns1 w1 (req_CRS g1))
      as [u1|e|m]; cbn [bind]; try discriminate.
    match goal with |- context [bind ?o _] =>
      destruct o as [s1|e|m] eqn:Em end; cbn [bind]; try discriminate.
    assert (Hs1 : Out s1 = Out s /\ Queries s1 = Queries s).
    { destruct isInit; [eapply record_metrics_frame; exact Em|].
      apply Ok_inj in Em. subst s1. auto. }
    destruct Hs1 as [Ho1 Hq1].
    destruct (extent_stage E g1 ns1 w1 u1) as [[|urls w']|e|m] eqn:Es;
      cbn [bind]; try discriminate.
    + intros H. apply Ok_inj in H. subst r. left.
      destruct (extent_stage_EmitEmpty _ _ _ _ _ Hok Es) as (c & Hc & Hi).
      split.
      * exists c. split; [|exact Hi].
        apply clipped_box_prepared. exact Hc.
      * exists s1. auto.
    + destruct (mask_query E g1 ns1 w') as [mask|e|m]; cbn [bind];
        try discriminate.
      destruct (run_queries E s1 g1 (is_empty_tile E g1) (urls ++ mask))
        as [[s2 r2]|e|m] eqn:Er; cbn [bind]; try discriminate.
      intros H. apply Ok_inj in H. subst r. right. split.
      * intros c Hc. destruct (inverted c) eqn:Hi; [|reflexivity].
        apply clipped_box_prepared in Hc. fold g1 in Hc.
        rewrite (extent_stage_clipped _ _ _ _ _ _ Hc), Hi in Es.
        discriminate.
      * exists s2, (urls ++ mask). split; [reflexivity|]. split.
        -- pose proof (extent_stage_launch_nonempty _ _ _ _ _ _ _ Hok Es).
           destruct urls; [contradiction | discriminate].
        -- apply run_queries_Queries in Er. rewrite Er, Hq1. reflexivity.
  - intros isInit s c t Hcol Hc Ht Hm.
    destruct (serve_to_extent_stage E isInit s geoReq c t Hcol Hc Ht Hm)
      as (w1 & u1 & Hs).
    pose proof (proj2 (clipped_box_prepared E geoReq c) Hc) as Hc'.
    rewrite (extent_stage_clipped _ _ _ _ _ _ Hc') in Hs.
    destruct (inverted c).
    + rewrite Hs. reflexivity.
    + destruct (subdivide_returns E (prepared E geoReq)
                  (query_namespaces E (prepared E geoReq)) w1 u1 c t Ht)
        as (p & Hp).
      destruct (subdivide_launch _ _ _ _ _ _ _ Hok Hp)
        as (urls & w' & -> & Hn).
      exists urls, w'. split; [exact Hn|].
      rewrite Hs, Hp. reflexivity.
Qed.

Lemma request_edge_clipped :
  clipped_box env_plain request_edge
              (f64_of_Z 10, f64_of_Z 0, f64_of_Z 10, f64_of_Z 10).
Proof.
  exists (map f64_of_Z [0; 0; 10; 10]).
  split; [vm_compute; discriminate|].
  split; vm_compute; reflexivity.
Qed.

Lemma extent_check_empty_iff_inverted_witness :
  zero_extent (f64_of_Z 10, f64_of_Z 0, f64_of_Z 10, f64_of_Z 10) = true /\
  (exists urls w,
     extent_stage env_plain request_edge "B" None
                  {| u_address := "mas:8888"; u_collection := "/c";
                     u_time := 0; u_until := None; u_srs := "EPSG:3857";
                     u_wkt := None; u_namespace := "B"; u_nseg := 2;
                     u_limit := 0 |}
     = Ok (Launch urls w) /\ urls <> []) /\
  (exists s' urls,
     serve env_plain true state0 request_edge = Ok (Next s') /\
     urls <> [] /\ Queries s' = urls).
Proof.
  split; [vm_compute; reflexivity|].
  destruct (extent_check_empty_iff_inverted env_plain request_edge "B" None
              {| u_address := "mas:8888"; u_collection := "/c";
                 u_time := 0; u_until := None; u_srs := "EPSG:3857";
                 u_wkt := None; u_namespace := "B"; u_nseg := 2;
                 u_limit := 0 |} env_plain_ok) as (_ & H & H3 & _).
  split.
  - destruct (H (f64_of_Z 10, f64_of_Z 0, f64_of_Z 10, f64_of_Z 10) 0
                request_edge_clipped
                ltac:(vm_compute; reflexivity) eq_refl)
      as (_ & urls & w & Hu & Hn).
    exists urls, w. split; assumption.
  - assert (Hr : exists r, serve env_plain true state0 request_edge = Ok r)
      by (eexists; vm_compute; reflexivity).
    destruct Hr as (r & Hr).
    destruct (H3 true state0 r ltac:(vm_compute; discriminate) Hr)
      as [((c & Hc & Hi) & _) | (_ & s' & urls & -> & Hn & Hq)].
    + rewrite (clipped_box_unique _ _ _ _ Hc request_edge_clipped) in Hi.
      vm_compute in Hi. discriminate.
    + exists s', urls. split; [exact Hr|]. split; [exact Hn | exact Hq].
Defined.

End ExtentFacts.
Section SelectionFacts.
Import Indexer.

Lemma index_nth {X A} (l : list A) (i : Z) (d : A) :
  0 <= i < len l -> index (X := X) l i = Ok (nth (Z.to_nat i) l d).
Proof.
  intros [H0 H1]. unfold index, len in *.
  destruct (i <? 0) eqn:Ei; [apply Z.ltb_lt in Ei; lia|].
  destruct (nth_error l (Z.to_nat i)) as [x|] eqn:En.
  - f_equal. symmetry. apply nth_error_nth. exact En.
  - apply nth_error_None in En. lia.
Qed.

Lemma index_negative {X A} (l : list A) (i : Z) :
  i < 0 -> index (X := X) l i = Panic idx_panic.
Proof.
  intros H. unfold index. destruct (i <? 0) eqn:Ei; [reflexivity|].
  apply Z.ltb_ge in Ei. lia.
Qed.

Lemma range_indices_nil start end_ step :
  1 <= step -> end_ < start -> range_indices start end_ step = [].
Proof.
  intros Hs He. unfold range_indices.
  assert ((end_ - start) / step < 0) by (apply Z.div_lt_upper_bound; lia).
  replace (Z.to_nat ((end_ - start) / step + 1)) with 0%nat by lia.
  reflexivity.
Qed.

Lemma range_indices_cons start end_ step :
  1 <= step -> start <= end_ ->
  range_indices start end_ step
  = start :: range_indices (start + step) end_ step.
Proof.
  intros Hs He. unfold range_indices.
  assert (Hq : (end_ - start) / step = (end_ - (start + step)) / step + 1).
  { replace (end_ - start) with ((end_ - (start + step)) + 1 * step) by lia.
    rewrite Z.div_add by lia. reflexivity. }
  assert (Hn : 0 <= (end_ - start) / step) by (apply Z.div_pos; lia).
  replace (Z.to_nat ((end_ - start) / step + 1))
    with (S (Z.to_nat ((end_ - (start + step)) / step + 1))) by lia.
  cbn [seq map]. f_equal; [lia|].
  rewrite <- seq_shift, map_map. apply map_ext. intros i. lia.
Qed.

Lemma mem_Z_true x l : mem_Z x l = true <-> In x l.
Proof.
  unfold mem_Z. rewrite existsb_exists. split.
  - intros (y & Hy & He). apply Z.eqb_eq in He. subst. exact Hy.
  - intros H. exists x. split; [exact H | apply Z.eqb_refl].
Qed.

(** The loop of a range selector, when its start is not negative and the
    index does not overflow: the indices of the range, without those in
    [idxLookup], each with its parameter. *)
Lemma range_loop_spec params lookup idxEnd step :
  1 <= step -> idxEnd <= len params - 1 ->
  idxEnd + step <= max_of KInt ->
  forall fuel idx ai av,
    0 <= idx ->
    (Z.to_nat (idxEnd - idx + 1) <= fuel)%nat ->
    range_loop fuel params lookup idx idxEnd step ai av
    = Ok (ai ++ filter (fun i => negb (mem_Z i lookup))
                       (range_indices idx idxEnd step),
          av ++ map (param_at params)
                    (filter (fun i => negb (mem_Z i lookup))
                            (range_indices idx idxEnd step))).
Proof.
  intros Hs He Hm. induction fuel as [|f IH]; intros idx ai av H0 Hf.
  - assert (idxEnd < idx) by lia.
    cbn [range_loop]. destruct (idx <=? idxEnd) eqn:Ec;
      [apply Z.leb_le in Ec; lia|].
    rewrite range_indices_nil by lia. cbn [filter map].
    rewrite !app_nil_r. reflexivity.
  - cbn [range_loop]. destruct (idx <=? idxEnd) eqn:Ec.
    + apply Z.leb_le in Ec.
      assert (Hw : wrapK KInt (idx + step) = idx + step).
      { apply wrapK_in_range. unfold in_range.
        apply andb_true_intro. split; apply Z.leb_le.
        - unfold min_of. cbn. lia.
        - lia. }
      rewrite Hw, (range_indices_cons idx idxEnd step) by lia.
      cbn [filter]. destruct (mem_Z idx lookup) eqn:Em; cbn [negb].
      * apply IH; lia.
      * rewrite (index_nth params idx f_zero) by lia. cbn [bind].
        rewrite IH by lia. cbn [map]. rewrite <- !app_assoc.
        reflexivity.
    + apply Z.leb_gt in Ec. rewrite range_indices_nil by lia.
      cbn [filter map]. rewrite !app_nil_r. reflexivity.
Qed.

(** The fuel of [range_loop] is enough: the loop does not run out of it,
    whatever the selector. *)
Lemma range_loop_fuel params lookup idxEnd step :
  1 <= step -> in_range KInt step = true ->
  Forall (fun x => 0 <= x) lookup ->
  forall fuel idx ai av,
    in_range KInt idx = true ->
    (0 <= idx -> idx <= idxEnd ->
     (Z.to_nat (idxEnd - idx) + 2 <= fuel)%nat) ->
    (idx < 0 -> (1 <= fuel)%nat) ->
    range_loop fuel params lookup idx idxEnd step ai av
    <> Panic "range_loop: out of fuel".
Proof.
  intros Hs Hr Hl. induction fuel as [|f IH]; intros idx ai av Hi Hp Hn.
  - cbn [range_loop]. destruct (idx <=? idxEnd) eqn:Ec; [|discriminate].
    apply Z.leb_le in Ec. destruct (Z.lt_ge_cases idx 0); lia.
  - cbn [range_loop]. destruct (idx <=? idxEnd) eqn:Ec; [|discriminate].
    apply Z.leb_le in Ec.
    assert (Hnext : forall ai' av',
               0 <= idx ->
               range_loop f params lookup (wrapK KInt (idx + step)) idxEnd
                          step ai' av'
               <> Panic "range_loop: out of fuel").
    { intros ai' av' H0. apply IH.
      - apply wrapK_range.
      - intros H1 H2.
        assert (wrapK KInt (idx + step) = idx + step \/
                wrapK KInt (idx + step) < 0).
        { unfold in_range, min_of, max_of in Hi, Hr. cbn in Hi, Hr.
          apply andb_prop in Hi. destruct Hi as [Hi1 Hi2].
          apply andb_prop in Hr. destruct Hr as [Hr1 Hr2].
          apply Z.leb_le in Hi1, Hi2, Hr1, Hr2.
          destruct (Z.le_gt_cases (idx + step) 9223372036854775807).
          - left. apply wrapK_in_range. unfold in_range, min_of, max_of.
            cbn. apply andb_true_intro. split; apply Z.leb_le; lia.
          - right. unfold wrapK. cbn.
            pose proof (Z.mod_unique
                          (idx + step + 9223372036854775808)
                          18446744073709551616 1
                          (idx + step - 9223372036854775808)) as U.
            rewrite <- U; [lia | left; lia | lia]. }
        destruct H as [H|H]; [|lia].
        specialize (Hp H0 Ec). rewrite H in *. lia.
      - intros _. specialize (Hp H0 Ec). lia. }
    destruct (Z.lt_ge_cases idx 0) as [Hneg|Hpos].
    + assert (Em : mem_Z idx lookup = false).
      { destruct (mem_Z idx lookup) eqn:Em; [|reflexivity].
        apply mem_Z_true in Em. rewrite Forall_forall in Hl.
        specialize (Hl _ Em). lia. }
      rewrite Em, index_negative by exact Hneg. cbn [bind]. discriminate.
    + destruct (mem_Z idx lookup).
      * apply Hnext. exact Hpos.
      * destruct (index params idx) as [v|e|m] eqn:Ei; cbn [bind].
        -- apply Hnext. exact Hpos.
        -- discriminate.
        -- unfold index in Ei. destruct (idx <? 0);
             [inversion Ei; discriminate|].
           destruct (nth_error params (Z.to_nat idx));
             inversion Ei; discriminate.
Qed.

End SelectionFacts.

Section SelectionSort.
Import Indexer.

Lemma list_set_app {A} (pre : list A) x tl v :
  list_set (pre ++ x :: tl) (List.length pre) v = Some (pre ++ v :: tl).
Proof.
  induction pre as [|y pre IH]; cbn [app List.length list_set].
  - reflexivity.
  - rewrite IH. reflexivity.
Qed.


Lemma fill_values_spec vals : forall args pre m,
  Forall (fun a => 0 <= SortIdx a < len vals) args ->
  fill_values args (List.length pre) vals
              (pre ++ repeat f_zero (List.length args + m))
  = Ok (pre ++ map (value_of vals) args ++ repeat f_zero m).
Proof.
  induction args as [|a args IH]; intros pre m HF.
  - reflexivity.
  - inversion HF as [|? ? Ha HF']; subst.
    cbn [fill_values List.length Nat.add repeat map app].
    rewrite (index_nth vals (SortIdx a) f_zero Ha). cbn [bind].
    rewrite list_set_app.
    pose proof (IH (pre ++ [nth (Z.to_nat (SortIdx a)) vals f_zero]) m HF')
      as IH'.
    rewrite length_app in IH'. cbn [List.length] in IH'.
    rewrite Nat.add_1_r, <- !app_assoc in IH'. cbn [app] in IH'.
    exact IH'.
Qed.

Lemma combine_map_l {A B C} (f : A -> C) (l : list A) : forall l' : list B,
  combine (map f l) l' = map (fun p => (f (fst p), snd p)) (combine l l').
Proof.
  induction l as [|a l IH]; intros [|b l']; cbn [map combine fst snd];
    try reflexivity.
  rewrite IH. reflexivity.
Qed.

Lemma argSort_cons x idx :
  argSort (x :: idx)
  = {| SortIdx := 0; Val := x |}
      :: map (fun a => {| SortIdx := SortIdx a + 1; Val := Val a |})
             (argSort idx).
Proof.
  unfold argSort. cbn [List.length seq combine map fst snd]. f_equal.
  rewrite <- seq_shift, combine_map_l, !map_map. apply map_ext.
  intros [i v]. cbn [fst snd SortIdx Val]. f_equal. lia.
Qed.

Lemma argSort_Val idx : map Val (argSort idx) = idx.
Proof.
  induction idx as [|x idx IH]; [reflexivity|].
  rewrite argSort_cons. cbn [map Val]. rewrite map_map. f_equal.
  rewrite <- IH at 2. apply map_ext. reflexivity.
Qed.

Lemma argSort_length idx : List.length (argSort idx) = List.length idx.
Proof. rewrite <- (argSort_Val idx) at 2. rewrite length_map. reflexivity. Qed.

Lemma argSort_bounds idx :
  Forall (fun a => 0 <= SortIdx a < len idx) (argSort idx).
Proof.
  induction idx as [|x idx IH]; [constructor|].
  rewrite argSort_cons. unfold len in *. constructor.
  - cbn [SortIdx List.length]. lia.
  - rewrite Forall_map. eapply Forall_impl; [|exact IH].
    intros a Ha. cbv beta in Ha. cbn [SortIdx List.length]. lia.
Qed.

Lemma argSort_pairs idx : forall vals,
  List.length vals = List.length idx ->
  map (fun a => (Val a, value_of vals a)) (argSort idx) = combine idx vals.
Proof.
  induction idx as [|x idx IH]; intros vals Hl.
  - reflexivity.
  - destruct vals as [|v vals]; [discriminate|].
    rewrite argSort_cons. cbn [map combine Val]. f_equal.
    rewrite map_map. rewrite <- (IH vals) by (cbn in Hl; lia).
    apply map_ext_in. intros a Ha. cbn [Val]. f_equal.
    pose proof (argSort_bounds idx) as B. rewrite Forall_forall in B.
    specialize (B a Ha). unfold value_of, param_at. cbn [SortIdx].
    replace (Z.to_nat (SortIdx a + 1)) with (S (Z.to_nat (SortIdx a))) by lia.
    reflexivity.
Qed.

Lemma leb_total_Val (x y : ArgSort) :
  True -> True -> (Val x <=? Val y) = false -> (Val y <=? Val x) = true.
Proof. intros _ _ H. apply Z.leb_gt in H. apply Z.leb_le. lia. Qed.

Lemma leb_trans_Val (x y z : ArgSort) :
  (Val x <=? Val y) = true -> (Val y <=? Val z) = true ->
  (Val x <=? Val z) = true.
Proof. intros H1 H2. apply Z.leb_le in H1, H2. apply Z.leb_le. lia. Qed.

(** The argsort at the end of [doSelectionByIndices]: the indices come out
    in ascending order and every index keeps the value it was gathered
    with. *)
Lemma sort_selection_sorted E st :
  env_ok E ->
  List.length (selValues st) = List.length (selIdx st) ->
  exists idx vals,
    sort_selection E st = Ok (idx, vals) /\
    List.length idx = List.length vals /\
    StronglySorted Z.le idx /\
    Permutation (combine (selIdx st) (selValues st)) (combine idx vals).
Proof.
  intros (_ & Hso & _) Hl. unfold sort_selection, sort_Slice.
  set (less := fun a b : ArgSort => Val a <=? Val b).
  set (sorted := insertionSort less (sort_order E ArgSort (argSort (selIdx st)))).
  assert (HP : Permutation (argSort (selIdx st)) sorted).
  { eapply Permutation_trans; [apply Hso | apply insertionSort_perm]. }
  assert (HS : StronglySorted (fun a b => less a b = true) sorted).
  { apply (insertionSort_sorted less (fun _ => True)).
    - intros x y. apply leb_total_Val.
    - intros x y z. apply leb_trans_Val.
    - apply Forall_forall. intros; exact I. }
  assert (HB : Forall (fun a => 0 <= SortIdx a < len (selValues st)) sorted).
  { apply (Permutation_Forall HP). unfold len. rewrite Hl.
    apply argSort_bounds. }
  assert (HL : List.length sorted = List.length (selValues st)).
  { rewrite <- (Permutation_length HP), argSort_length. congruence. }
  pose proof (fill_values_spec (selValues st) sorted [] 0%nat HB) as HF.
  cbn [List.length app] in HF. rewrite Nat.add_0_r, HL in HF.
  rewrite HF. cbn [bind repeat]. rewrite app_nil_r.
  eexists. eexists. split; [reflexivity|].
  split; [rewrite !length_map; reflexivity|]. split.
  - clear -HS. induction HS as [|a l HSl IH Ha]; cbn [map]; constructor.
    + exact IH.
    + rewrite Forall_map. eapply Forall_impl; [|exact Ha].
      intros b Hb. apply Z.leb_le. exact Hb.
  - rewrite <- (argSort_pairs (selIdx st) (selValues st) Hl).
    assert (Hc : forall l : list ArgSort,
               combine (map Val l) (map (value_of (selValues st)) l)
               = map (fun a => (Val a, value_of (selValues st) a)) l).
    { induction l as [|a l IH]; cbn [map combine]; congruence. }
    rewrite Hc. apply Permutation_map. exact HP.
Qed.

(** A selection that is already in strictly ascending order is left as it
    is. *)
Lemma sort_selection_id E st :
  env_ok E ->
  List.length (selValues st) = List.length (selIdx st) ->
  StronglySorted Z.lt (selIdx st) ->
  sort_selection E st = Ok (selIdx st, selValues st).
Proof.
  intros Hok Hl Hlt.
  destruct (sort_selection_sorted E st Hok Hl)
    as (idx & vals & Hs & Hlen & Hsorted & HP).
  rewrite Hs. f_equal.
  assert (Hp : combine (selIdx st) (selValues st) = combine idx vals).
  { apply (sorted_perm_unique (fun p q : Z * float64 => fst p <= fst q)).
    - clear -Hlt Hl. revert Hl. generalize (selValues st) as vs.
      induction Hlt as [|a l HSl IH Ha]; intros vs Hl.
      + constructor.
      + destruct vs as [|v vs]; [constructor|]. cbn [combine].
        constructor; [apply IH; cbn in Hl; lia|].
        apply Forall_forall. intros [i w] Hin. cbn [fst].
        apply in_combine_l in Hin. rewrite Forall_forall in Ha.
        specialize (Ha i Hin). lia.
    - clear -Hsorted. revert vals.
      induction Hsorted as [|a l HSl IH Ha]; intros vals.
      + constructor.
      + destruct vals as [|v vs]; [constructor|]. cbn [combine].
        constructor; [apply IH|].
        apply Forall_forall. intros [i w] Hin. cbn [fst].
        apply in_combine_l in Hin. rewrite Forall_forall in Ha.
        exact (Ha i Hin).
    - exact HP.
    - intros [i v] [j w] Hi Hj H1 H2. cbn [fst] in H1, H2.
      assert (i = j) by lia. subst j. f_equal.
      clear -Hlt Hi Hj. revert Hi Hj. generalize (selValues st) as vs.
      induction Hlt as [|a l HSl IH Ha]; intros vs Hi Hj.
      + destruct Hi.
      + destruct vs as [|x vs]; [destruct Hi|]. cbn [combine] in Hi, Hj.
        rewrite Forall_forall in Ha.
        destruct Hi as [Hi|Hi], Hj as [Hj|Hj].
        * congruence.
        * inversion Hi; subst. apply in_combine_l in Hj.
          specialize (Ha _ Hj). lia.
        * inversion Hj; subst. apply in_combine_l in Hi.
          specialize (Ha _ Hi). lia.
        * eapply IH; eassumption. }
  assert (H1 : List.length (selIdx st) = List.length idx).
  { apply (f_equal (@List.length _)) in Hp. rewrite !length_combine in Hp.
    lia. }
  pose proof (f_equal (@List.split Z float64) Hp) as Hsp.
  rewrite !combine_split in Hsp by congruence.
  congruence.
Qed.

End SelectionSort.

Section SelectionClaim.
Import Indexer.

Lemma range_indices_bounds start end_ step :
  1 <= step ->
  Forall (fun i => start <= i <= end_) (range_indices start end_ step).
Proof.
  intros Hs. unfold range_indices. rewrite Forall_map, Forall_forall.
  intros i Hi. apply in_seq in Hi.
  destruct (Z.le_gt_cases start end_) as [Hle|Hgt].
  - assert (Hn : 0 <= (end_ - start) / step) by (apply Z.div_pos; lia).
    assert (Z.of_nat i <= (end_ - start) / step) by lia.
    assert (Z.of_nat i * step <= end_ - start).
    { eapply Z.le_trans; [apply Z.mul_le_mono_nonneg_r; [lia | eassumption]|].
      rewrite Z.mul_comm. apply Z.mul_div_le. lia. }
    lia.
  - assert ((end_ - start) / step < 0) by (apply Z.div_lt_upper_bound; lia).
    lia.
Qed.

(** The indices of a range go up strictly. *)
Lemma range_indices_sorted step : 1 <= step -> forall n start end_,
  Z.to_nat ((end_ - start) / step + 1) = n ->
  StronglySorted Z.lt (range_indices start end_ step).
Proof.
  intros Hs. induction n as [|n IH]; intros start end_ Hn.
  - unfold range_indices. rewrite Hn. constructor.
  - destruct (Z.le_gt_cases start end_) as [Hle|Hgt].
    + rewrite range_indices_cons by assumption. constructor.
      * apply IH.
        replace (end_ - start) with ((end_ - (start + step)) + 1 * step)
          in Hn by lia.
        rewrite Z.div_add in Hn by lia. lia.
      * pose proof (range_indices_bounds (start + step) end_ step Hs) as B.
        eapply Forall_impl; [|exact B]. cbv beta. intros; lia.
    + rewrite range_indices_nil by assumption. constructor.
Qed.

Lemma index_Ok_inv {X A} (l : list A) (i : Z) (x d : A) :
  index (X := X) l i = Ok x ->
  0 <= i <= len l - 1 /\ x = nth (Z.to_nat i) l d.
Proof.
  unfold index, len. destruct (i <? 0) eqn:Ei; [discriminate|].
  apply Z.ltb_ge in Ei.
  destruct (nth_error l (Z.to_nat i)) as [y|] eqn:En; [|discriminate].
  intros H. apply Ok_inj in H. subst y. split.
  - assert (Z.to_nat i < List.length l)%nat
      by (apply nth_error_Some; congruence).
    lia.
  - symmetry. apply nth_error_nth. exact En.
Qed.

Lemma combine_app_eq {A B} (l1 l2 : list A) (m1 m2 : list B) :
  List.length l1 = List.length m1 ->
  combine (l1 ++ l2) (m1 ++ m2) = combine l1 m1 ++ combine l2 m2.
Proof.
  revert m1. induction l1 as [|a l1 IH]; intros [|b m1] H;
    try discriminate; cbn [app combine]; [reflexivity|].
  f_equal. apply IH. cbn in H. lia.
Qed.

(** Whatever the loop of a range selector returns, it has appended
    indices in range, each with its parameter. *)
Lemma range_loop_appends params lookup idxEnd step :
  forall fuel idx ai av ai' av',
    range_loop fuel params lookup idx idxEnd step ai av = Ok (ai', av') ->
    exists new,
      ai' = ai ++ new /\ av' = av ++ map (param_at params) new /\
      Forall (fun i => 0 <= i <= len params - 1) new.
Proof.
  induction fuel as [|f IH]; intros idx ai av ai' av' H;
    cbn [range_loop] in H; destruct (idx <=? idxEnd).
  - discriminate.
  - apply Ok_inj in H. inversion H; subst. exists [].
    rewrite !app_nil_r. repeat split. constructor.
  - destruct (mem_Z idx lookup).
    + eapply IH. exact H.
    + apply bind_Ok in H. destruct H as (v & Hv & H).
      destruct (index_Ok_inv _ _ _ f_zero Hv) as (Hi & Hx).
      destruct (IH _ _ _ _ _ H) as (new & -> & -> & HF).
      exists (idx :: new). rewrite <- !app_assoc. cbn [app map].
      split; [reflexivity|]. split; [|constructor; assumption].
      rewrite Hx. reflexivity.
  - apply Ok_inj in H. inversion H; subst. exists [].
    rewrite !app_nil_r. repeat split. constructor.
Qed.

(** *** What the loop over the selectors keeps *)

Lemma paired_params axis (new : list Z) :
  Forall (fun i => 0 <= i <= len (Params axis) - 1) new ->
  Forall (paired axis) (combine new (map (param_at (Params axis)) new)).
Proof.
  induction 1 as [|i new Hi HF IH]; cbn [map combine]; constructor.
  - right. cbn [fst snd]. split; [exact Hi | reflexivity].
  - exact IH.
Qed.

Lemma sel_inv_app axis st new lk :
  sel_inv axis st ->
  Forall (fun i => 0 <= i <= len (Params axis) - 1) new ->
  sel_inv axis {| idxLookup := lk; selIdx := selIdx st ++ new;
                  selValues := selValues st
                                 ++ map (param_at (Params axis)) new |}.
Proof.
  intros [Hl HF] Hn. split; cbn [selIdx selValues].
  - rewrite !length_app, length_map. lia.
  - rewrite combine_app_eq by (symmetry; exact Hl).
    apply Forall_app. split; [exact HF | apply paired_params; exact Hn].
Qed.

Lemma all_sorted n : forall a,
  StronglySorted Z.le (map Z.of_nat (seq a n)).
Proof.
  induction n as [|n IH]; intros a; cbn [seq map]; constructor.
  - apply IH.
  - rewrite Forall_map, Forall_forall. intros i Hi.
    apply in_seq in Hi. lia.
Qed.

Lemma all_paired axis : forall pre l,
  Params axis = pre ++ l ->
  Forall (paired axis)
         (combine (map Z.of_nat (seq (List.length pre) (List.length l))) l).
Proof.
  intros pre l. revert pre.
  induction l as [|x l IH]; intros pre Hp; cbn [List.length seq map combine];
    constructor.
  - right. cbn [fst snd]. unfold param_at, len. rewrite Hp.
    rewrite length_app, Nat2Z.id. cbn [List.length]. split; [lia|].
    rewrite app_nth2 by lia. rewrite Nat.sub_diag. reflexivity.
  - specialize (IH (pre ++ [x])). rewrite length_app in IH.
    cbn [List.length] in IH. rewrite Nat.add_1_r in IH. apply IH.
    rewrite <- app_assoc. exact Hp.
Qed.

Lemma sel_inv_all axis lk :
  sel_inv axis {| idxLookup := lk;
                  selIdx := map Z.of_nat
                                (seq 0 (List.length (Params axis)));
                  selValues := Params axis |}.
Proof.
  split; cbn [selIdx selValues].
  - rewrite length_map, length_seq. reflexivity.
  - apply (all_paired axis []). reflexivity.
Qed.

(** A selector leaves the state paired; a result that is not out of
    range and leaves the loop is the whole axis. *)
Lemma select_one_inv axis st sel r :
  select_one (Params axis) st sel = Ok r ->
  sel_inv axis st ->
  match r with
  | Next st' => sel_inv axis st'
  | Return (st', outRange) =>
      outRange = false ->
      selIdx st' = map Z.of_nat (seq 0 (List.length (Params axis))) /\
      selValues st' = Params axis
  end.
Proof.
  unfold select_one. intros H Hinv.
  destruct (IsAll sel).
  { apply Ok_inj in H. subst r. intros _. split; reflexivity. }
  destruct (negb (IsRange sel)).
  { destruct (sel_Start sel) as [idx|]; [|discriminate].
    destruct ((idx <? 0) || (idx >? len (Params axis) - 1)).
    { apply Ok_inj in H. subst r. discriminate. }
    destruct (mem_Z idx (idxLookup st)).
    { apply Ok_inj in H. subst r. exact Hinv. }
    apply bind_Ok in H. destruct H as (v & Hv & H).
    apply Ok_inj in H. subst r.
    destruct (index_Ok_inv _ _ _ f_zero Hv) as (Hi & Hx).
    replace [v] with (map (param_at (Params axis)) [idx])
      by (rewrite Hx; reflexivity).
    apply sel_inv_app; [exact Hinv|]. constructor; [exact Hi|constructor]. }
  cbv zeta in H.
  match type of H with (if ?b then _ else _) = _ => destruct b end.
  { apply Ok_inj in H. subst r. discriminate. }
  match type of H with (if ?b then _ else _) = _ => destruct b end;
    [discriminate|].
  match type of H with (if ?b then _ else _) = _ => destruct b end;
    [discriminate|].
  apply bind_Ok in H. destruct H as ([ai' av'] & Hl & H).
  apply Ok_inj in H. subst r. cbn [fst snd].
  destruct (range_loop_appends _ _ _ _ _ _ _ _ _ _ Hl)
    as (new & -> & -> & HF).
  apply sel_inv_app; assumption.
Qed.

Lemma select_all_inv axis : forall sels st r,
  select_all (Params axis) sels st = Ok r ->
  sel_inv axis st ->
  match r with
  | Next st' => sel_inv axis st'
  | Return (st', outRange) =>
      outRange = false ->
      selIdx st' = map Z.of_nat (seq 0 (List.length (Params axis))) /\
      selValues st' = Params axis
  end.
Proof.
  induction sels as [|sel tl IH]; intros st r H Hinv; cbn [select_all] in H.
  - apply Ok_inj in H. subst r. exact Hinv.
  - apply bind_Ok in H. destruct H as (r1 & H1 & H).
    pose proof (select_one_inv axis st sel r1 H1 Hinv) as Hr1.
    destruct r1 as [st1|[st1 o1]].
    + eapply IH; eassumption.
    + apply Ok_inj in H. subst r. exact Hr1.
Qed.

Lemma sel_init_inv axis :
  List.length (IntersectionValues axis)
  = List.length (IntersectionIdx axis) ->
  sel_inv axis (sel_init axis).
Proof.
  intros Hl. split; [exact Hl|]. cbn [sel_init selIdx selValues].
  apply Forall_forall. intros p Hp. left. exact Hp.
Qed.

(** What [doSelectionByIndices] returns without [outRange] is sorted and
    paired. *)
Lemma doSelectionByIndices_sorted E axis tileAxis axis' :
  env_ok E ->
  List.length (IntersectionValues axis)
  = List.length (IntersectionIdx axis) ->
  doSelectionByIndices E axis tileAxis = Ok (axis', false) ->
  StronglySorted Z.le (IntersectionIdx axis') /\
  List.length (IntersectionValues axis')
  = List.length (IntersectionIdx axis') /\
  Forall (paired axis)
         (combine (IntersectionIdx axis') (IntersectionValues axis')).
Proof.
  intros Hok Hl H. unfold doSelectionByIndices in H.
  destruct (negb (Grid axis =? "enum")%string); [discriminate|].
  fold (sel_init axis) in H.
  apply bind_Ok in H. destruct H as (r & Hr & H).
  pose proof (select_all_inv axis _ _ _ Hr (sel_init_inv axis Hl)) as Hinv.
  destruct r as [st|[st o]].
  - apply bind_Ok in H. destruct H as ([idx vals] & Hs & H).
    apply Ok_inj in H. inversion H; subst axis'.
    cbn [set_intersection IntersectionIdx IntersectionValues fst snd].
    destruct Hinv as [Hlen HF].
    destruct (sort_selection_sorted E st Hok Hlen)
      as (idx' & vals' & Hs' & Hlen' & Hsorted & HP).
    rewrite Hs in Hs'. apply Ok_inj in Hs'. inversion Hs'; subst idx' vals'.
    split; [exact Hsorted|]. split; [symmetry; exact Hlen'|].
    eapply Permutation_Forall; [exact HP | exact HF].
  - apply Ok_inj in H. inversion H; subst axis' o.
    cbn [set_intersection IntersectionIdx IntersectionValues].
    destruct (Hinv eq_refl) as [-> ->]. split; [apply all_sorted|].
    split; [rewrite length_map, length_seq; reflexivity|].
    apply (all_paired axis []). reflexivity.
Qed.

(** When the loop over the selectors runs to its end, the call returns
    what was gathered, rearranged. *)
Lemma doSelectionByIndices_returns E axis tileAxis st :
  env_ok E ->
  Grid axis = "enum" ->
  List.length (IntersectionValues axis)
  = List.length (IntersectionIdx axis) ->
  select_all (Params axis) (IdxSelectors tileAxis) (sel_init axis)
  = Ok (Next st) ->
  exists idx vals,
    doSelectionByIndices E axis tileAxis
    = Ok (set_intersection axis idx vals, false) /\
    Permutation (combine (selIdx st) (selValues st)) (combine idx vals).
Proof.
  intros Hok Hg Hl Hs. unfold doSelectionByIndices.
  rewrite Hg. change (negb ("enum" =? "enum")%string) with false.
  cbv iota. fold (sel_init axis). rewrite Hs. cbn [bind].
  destruct (select_all_inv axis _ _ _ Hs (sel_init_inv axis Hl))
    as [Hlen _].
  destruct (sort_selection_sorted E st Hok Hlen)
    as (idx & vals & Hsort & _ & _ & HP).
  rewrite Hsort. cbn [bind fst snd]. exists idx, vals. split; auto.
Qed.

(** The four cases of a range selector. *)
Lemma select_one_range params st sel :
  IsAll sel = false -> IsRange sel = true ->
  select_one params st sel
  = if or_default (sel_End sel) (len params - 1) >? len params - 1
    then Ok (Return (st, true))
    else if or_default (sel_Start sel) 0
            >? or_default (sel_End sel) (len params - 1)
    then Err StartAfterEnd
    else if or_default (sel_Step sel) 1 <? 1 then Err BadStep
    else
      let* r := range_loop (S (List.length params)) params (idxLookup st)
                           (or_default (sel_Start sel) 0)
                           (or_default (sel_End sel) (len params - 1))
                           (or_default (sel_Step sel) 1)
                           (selIdx st) (selValues st) in
      Ok (Next {| idxLookup := idxLookup st;
                  selIdx := fst r; selValues := snd r |}).
Proof. intros Hall Hrange. unfold select_one. rewrite Hall, Hrange. reflexivity. Qed.

Lemma select_one_range_cases params st sel :
  IsAll sel = false -> IsRange sel = true ->
  let idxStart := or_default (sel_Start sel) 0 in
  let idxEnd := or_default (sel_End sel) (len params - 1) in
  let step := or_default (sel_Step sel) 1 in
  (len params - 1 < idxEnd ->
   select_one params st sel = Ok (Return (st, true))) /\
  (idxEnd <= len params - 1 -> idxEnd < idxStart ->
   select_one params st sel = Err StartAfterEnd) /\
  (idxEnd <= len params - 1 -> idxStart <= idxEnd -> step < 1 ->
   select_one params st sel = Err BadStep) /\
  (idxEnd <= len params - 1 -> 0 <= idxStart <= idxEnd -> 1 <= step ->
   idxEnd + step <= max_of KInt ->
   select_one params st sel
   = Ok (Next {| idxLookup := idxLookup st;
                 selIdx :=
                   selIdx st
                     ++ filter (fun i => negb (mem_Z i (idxLookup st)))
                               (range_indices idxStart idxEnd step);
                 selValues :=
                   selValues st
                     ++ map (param_at params)
                            (filter (fun i => negb (mem_Z i (idxLookup st)))
                                    (range_indices idxStart idxEnd step))
              |})).
Proof.
  intros Hall Hrange idxStart idxEnd step.
  rewrite (select_one_range params st sel Hall Hrange).
  fold idxStart idxEnd step.
  split; [|split; [|split]].
  - intros H.
    destruct (idxEnd >? len params - 1) eqn:E1; [reflexivity|].
    rewrite Z.gtb_ltb in E1; apply Z.ltb_ge in E1. lia.
  - intros H1 H2.
    destruct (idxEnd >? len params - 1) eqn:E1;
      [rewrite Z.gtb_ltb in E1; apply Z.ltb_lt in E1; lia|].
    destruct (idxStart >? idxEnd) eqn:E2; [reflexivity|].
    rewrite Z.gtb_ltb in E2; apply Z.ltb_ge in E2. lia.
  - intros H1 H2 H3.
    destruct (idxEnd >? len params - 1) eqn:E1;
      [rewrite Z.gtb_ltb in E1; apply Z.ltb_lt in E1; lia|].
    destruct (idxStart >? idxEnd) eqn:E2;
      [rewrite Z.gtb_ltb in E2; apply Z.ltb_lt in E2; lia|].
    destruct (step <? 1) eqn:E3; [reflexivity|].
    apply Z.ltb_ge in E3. lia.
  - intros H1 H2 H3 H4.
    destruct (idxEnd >? len params - 1) eqn:E1;
      [rewrite Z.gtb_ltb in E1; apply Z.ltb_lt in E1; lia|].
    destruct (idxStart >? idxEnd) eqn:E2;
      [rewrite Z.gtb_ltb in E2; apply Z.ltb_lt in E2; lia|].
    destruct (step <? 1) eqn:E3; [apply Z.ltb_lt in E3; lia|].
    rewrite (range_loop_spec params (idxLookup st) idxEnd step H3 H1 H4)
      by (unfold len in *; lia).
    reflexivity.
Qed.

Lemma filter_nothing (l : list Z) :
  filter (fun i => negb (mem_Z i [])) l = l.
Proof.
  apply forallb_filter_id, forallb_forall. intros x _. reflexivity.
Qed.

Lemma mem_Z_iff i l1 l2 :
  (In i l1 <-> In i l2) -> mem_Z i l1 = mem_Z i l2.
Proof.
  intros H. destruct (mem_Z i l1) eqn:E1, (mem_Z i l2) eqn:E2;
    try reflexivity.
  - apply mem_Z_true, H, mem_Z_true in E1. congruence.
  - apply mem_Z_true, H, mem_Z_true in E2. congruence.
Qed.

(** The call with one range selector, on an axis with nothing gathered
    yet. *)
Lemma doSelectionByIndices_one E axis tileAxis sel :
  Grid axis = "enum" ->
  IdxSelectors tileAxis = [sel] ->
  doSelectionByIndices E axis tileAxis
  = let* r := select_one (Params axis) (sel_init axis) sel in
    match r with
    | Return (st, outRange) =>
        Ok (set_intersection axis (selIdx st) (selValues st), outRange)
    | Next st =>
        let* s := sort_selection E st in
        Ok (set_intersection axis (fst s) (snd s), false)
    end.
Proof.
  intros Hg Hs. unfold doSelectionByIndices. rewrite Hg, Hs.
  change (negb ("enum" =? "enum")%string) with false. cbv iota.
  fold (sel_init axis). cbn [select_all].
  destruct (select_one (Params axis) (sel_init axis) sel) as [[st|x]|e|m];
    reflexivity.
Qed.

(** C5, as stated, at one input: a range selector with step 0 and an end
    beyond the axis is answered with [outRange] and no error. *)
Lemma doSelectionByIndices_range_counterexample :
  or_default (sel_Step (range_selector (Some 0) (Some 9) (Some 0))) 1 < 1 /\
  doSelectionByIndices
    env_plain axis8
    (index_axis [range_selector (Some 0) (Some 9) (Some 0)])
  = Ok (axis8, true).
Proof. split; [cbn; lia | vm_compute; reflexivity]. Qed.

(** C5, amended. For an index-range selector the defaults are start 0, end
    [len(params) - 1] and step 1. An end beyond the axis is answered with
    [outRange] and no error, whatever start and step are; otherwise a
    start above the end is an error, and otherwise a step below 1 is an
    error. Otherwise, with a start that is not negative and an end that
    the step does not carry beyond the largest [int], the selector
    appends the indices start, start + step, ... up to the end that are
    not yet selected, each with its parameter, all of them in range,
    provided the indices selected so far are those the single-index
    selectors have recorded. Alone on an axis with nothing gathered yet,
    the selector makes the call return these four outcomes. Whatever the
    selectors, on an axis that comes with as many values as indices, what
    the call returns without [outRange] is sorted in ascending order,
    every index with a value paired with it, and the call returns
    whenever the loop over the selectors runs to its end. The selector
    [{0, 6, 2}] on an axis of 8 parameters gives the indices 0, 2, 4,
    6. *)
Theorem doSelectionByIndices_range : forall E axis sel,
  env_ok E ->
  Grid axis = "enum" ->
  IsAll sel = false ->
  IsRange sel = true ->
  let params := Params axis in
  let idxStart := or_default (sel_Start sel) 0 in
  let idxEnd := or_default (sel_End sel) (len params - 1) in
  let step := or_default (sel_Step sel) 1 in
  (forall st,
     (len params - 1 < idxEnd ->
      select_one params st sel = Ok (Return (st, true))) /\
     (idxEnd <= len params - 1 -> idxEnd < idxStart ->
      select_one params st sel = Err StartAfterEnd) /\
     (idxEnd <= len params - 1 -> idxStart <= idxEnd -> step < 1 ->
      select_one params st sel = Err BadStep) /\
     (idxEnd <= len params - 1 -> 0 <= idxStart <= idxEnd -> 1 <= step ->
      idxEnd + step <= max_of KInt ->
      (forall i, In i (idxLookup st) <-> In i (selIdx st)) ->
      select_one params st sel
      = Ok (Next {| idxLookup := idxLookup st;
                    selIdx :=
                      selIdx st
                        ++ range_unselected st idxStart idxEnd step;
                    selValues :=
                      selValues st
                        ++ map (param_at params)
                               (range_unselected st idxStart idxEnd step)
                 |}) /\
      Forall (fun i => 0 <= i <= len params - 1 /\ ~ In i (selIdx st))
             (range_unselected st idxStart idxEnd step))) /\
  (forall tileAxis,
     IdxSelectors tileAxis = [sel] ->
     IntersectionIdx axis = [] ->
     IntersectionValues axis = [] ->
     (len params - 1 < idxEnd ->
      doSelectionByIndices E axis tileAxis
      = Ok (set_intersection axis [] [], true)) /\
     (idxEnd <= len params - 1 -> idxEnd < idxStart ->
      doSelectionByIndices E axis tileAxis = Err StartAfterEnd) /\
     (idxEnd <= len params - 1 -> idxStart <= idxEnd -> step < 1 ->
      doSelectionByIndices E axis tileAxis = Err BadStep) /\
     (idxEnd <= len params - 1 -> 0 <= idxStart <= idxEnd -> 1 <= step ->
      idxEnd + step <= max_of KInt ->
      doSelectionByIndices E axis tileAxis
      = Ok (set_intersection
              axis (range_indices idxStart idxEnd step)
              (map (param_at params) (range_indices idxStart idxEnd step)),
            false))) /\
  (forall tileAxis axis',
     List.length (IntersectionValues axis)
     = List.length (IntersectionIdx axis) ->
     doSelectionByIndices E axis tileAxis = Ok (axis', false) ->
     StronglySorted Z.le (IntersectionIdx axis') /\
     List.length (IntersectionValues axis')
     = List.length (IntersectionIdx axis') /\
     Forall (paired axis)
            (combine (IntersectionIdx axis') (IntersectionValues axis'))) /\
  (forall tileAxis st,
     List.length (IntersectionValues axis)
     = List.length (IntersectionIdx axis) ->
     select_all params (IdxSelectors tileAxis) (sel_init axis)
     = Ok (Next st) ->
     exists idx vals,
       doSelectionByIndices E axis tileAxis
       = Ok (set_intersection axis idx vals, false) /\
       Permutation (combine (selIdx st) (selValues st))
                   (combine idx vals)) /\
  doSelectionByIndices
    E axis8 (index_axis [range_selector (Some 0) (Some 6) (Some 2)])
  = Ok (set_intersection axis8 [0; 2; 4; 6]
                         (map f64_of_Z [10; 12; 14; 16]), false).
Proof.
  intros E axis sel Hok Hg Hall Hrange params idxStart idxEnd step.
  split; [|split; [|split; [|split]]].
  - intros st.
    destruct (select_one_range_cases params st sel Hall Hrange)
      as (C1 & C2 & C3 & C4).
    split; [exact C1|]. split; [exact C2|]. split; [exact C3|].
    intros H1 H2 H3 H4 Hlk.
    assert (Hf : filter (fun i => negb (mem_Z i (idxLookup st)))
                        (range_indices idxStart idxEnd step)
                 = range_unselected st idxStart idxEnd step).
    { unfold range_unselected. apply filter_ext. intros i.
      f_equal. apply mem_Z_iff. apply Hlk. }
    split.
    + rewrite (C4 H1 H2 H3 H4). fold idxStart idxEnd step.
      rewrite Hf. reflexivity.
    + unfold range_unselected. apply Forall_forall. intros i Hi.
      apply filter_In in Hi. destruct Hi as [Hi Hm].
      pose proof (range_indices_bounds idxStart idxEnd step H3) as B.
      rewrite Forall_forall in B. specialize (B i Hi). split; [lia|].
      intros Hin. apply mem_Z_true in Hin. rewrite Hin in Hm. discriminate.
  - intros tileAxis Hs Hi0 Hv0.
    rewrite (doSelectionByIndices_one E axis tileAxis sel Hg Hs).
    destruct (select_one_range_cases params (sel_init axis) sel Hall Hrange)
      as (C1 & C2 & C3 & C4).
    fold params. fold idxStart idxEnd step in C1, C2, C3, C4.
    split; [|split; [|split]].
    + intros H. rewrite (C1 H). cbn [bind sel_init selIdx selValues].
      rewrite Hi0, Hv0. reflexivity.
    + intros H1 H2. rewrite (C2 H1 H2). reflexivity.
    + intros H1 H2 H3. rewrite (C3 H1 H2 H3). reflexivity.
    + intros H1 H2 H3 H4. rewrite (C4 H1 H2 H3 H4).
      cbn [bind sel_init idxLookup selIdx selValues].
      rewrite Hi0, Hv0, filter_nothing. cbn [app].
      rewrite sort_selection_id; [reflexivity | exact Hok | |].
      * cbn [selIdx selValues]. apply length_map.
      * cbn [selIdx]. eapply range_indices_sorted; [exact H3 | reflexivity].
  - intros tileAxis axis' Hl H.
    eapply doSelectionByIndices_sorted; eassumption.
  - intros tileAxis st Hl H.
    eapply doSelectionByIndices_returns; eassumption.
  - unfold doSelectionByIndices.
    change (Grid axis8 =? "enum")%string with true. cbn [negb].
    assert (Hsel : select_all (Params axis8)
                     (IdxSelectors
                        (index_axis
                           [range_selector (Some 0) (Some 6) (Some 2)]))
                     {| idxLookup := []; selIdx := IntersectionIdx axis8;
                        selValues := IntersectionValues axis8 |}
                   = Ok (Next {| idxLookup := []; selIdx := [0; 2; 4; 6];
                                 selValues := map f64_of_Z [10; 12; 14; 16] |}))
      by (vm_compute; reflexivity).
    rewrite Hsel. cbn [bind].
    rewrite sort_selection_id; [reflexivity | exact Hok | reflexivity |].
    cbn [selIdx]. repeat constructor; lia.
Qed.

Lemma doSelectionByIndices_range_witness :
  doSelectionByIndices
    env_plain axis8 (index_axis [range_selector None (Some 6) (Some 2)])
  = Ok (set_intersection axis8 [0; 2; 4; 6]
                         (map f64_of_Z [10; 12; 14; 16]), false).
Proof.
  destruct (doSelectionByIndices_range
              env_plain axis8 (range_selector None (Some 6) (Some 2))
              env_plain_ok eq_refl eq_refl eq_refl)
    as (_ & H & _).
  destruct (H (index_axis [range_selector None (Some 6) (Some 2)])
              eq_refl eq_refl eq_refl) as (_ & _ & _ & H4).
  rewrite H4.
  - vm_compute. reflexivity.
  - vm_compute. discriminate.
  - split; vm_compute; discriminate.
  - vm_compute. discriminate.
  - vm_compute. discriminate.
Defined.

End SelectionClaim.

(** ** The selection by stride and the expansion into granules *)

Section ExpansionFacts.
Import Indexer.

Lemma index_In {X A} (l : list A) (i : Z) (x : A) :
  index (X := X) l i = Ok x -> In x l.
Proof.
  unfold index. destruct (i <? 0); [discriminate|].
  destruct (nth_error l (Z.to_nat i)) as [y|] eqn:En; [|discriminate].
  intros H. apply Ok_inj in H. subst y. eapply nth_error_In. exact En.
Qed.

(** *** The stride *)

Lemma scale_by_stride_idx axis a :
  scale_by_stride axis = Ok a ->
  IntersectionIdx a
  = map (fun i => wrapK KInt (i * nth 0 (Strides axis) 0))
        (IntersectionIdx axis).
Proof.
  unfold scale_by_stride.
  destruct (IntersectionIdx axis) as [|i0 tl] eqn:Ei.
  - intros H. apply Ok_inj in H. subst a. rewrite Ei. reflexivity.
  - intros H. apply bind_Ok in H. destruct H as (s0 & Hs & H).
    apply Ok_inj in H. subst a. cbn [set_intersection IntersectionIdx].
    unfold index in Hs. cbn in Hs.
    destruct (Strides axis) as [|s tl']; [discriminate|].
    cbn in Hs. apply Ok_inj in Hs. subst s. reflexivity.
Qed.

Lemma select_axis_stride E geoReq ds c o axis a c' o' :
  select_axis E geoReq ds c o axis = Ok (a, c', o') ->
  stride_multiplied E geoReq a.
Proof.
  unfold select_axis. intros H.
  apply bind_Ok in H. destruct H as ([[a_sel c1] o1] & Hsel & H).
  apply bind_Ok in H. destruct H as (a1 & Hscale & H).
  apply Ok_inj in H. inversion H; subst a1 c1 o1.
  exists ds, c, o, axis, a_sel, c', o'. split; [exact Hsel|].
  apply scale_by_stride_idx. exact Hscale.
Qed.

Lemma select_axes_stride E geoReq ds : forall axes c o axes' c' o',
  select_axes E geoReq ds c o axes = Ok (axes', c', o') ->
  Forall (stride_multiplied E geoReq) axes'.
Proof.
  induction axes as [|axis tl IH]; intros c o axes' c' o' H.
  - cbn in H. apply Ok_inj in H. inversion H. constructor.
  - cbn [select_axes] in H.
    apply bind_Ok in H. destruct H as ([[a1 c1] o1] & Ha & H).
    apply bind_Ok in H. destruct H as ([[tl1 c2] o2] & Ht & H).
    apply Ok_inj in H. inversion H; subst axes' c2 o2.
    constructor.
    + eapply select_axis_stride. exact Ha.
    + eapply IH. exact Ht.
Qed.

Lemma select_dataset_stride E geoReq c ds ds' c' :
  select_dataset E geoReq c ds = Ok (ds', c') ->
  Forall (stride_multiplied E geoReq) (ds_Axes ds').
Proof.
  unfold select_dataset. intros H.
  apply bind_Ok in H. destruct H as ([[axes' c1] o1] & Ha & H).
  apply Ok_inj in H. inversion H; subst ds' c1.
  cbn [set_ds ds_Axes]. eapply select_axes_stride. exact Ha.
Qed.

Lemma select_datasets_stride E geoReq : forall dss c dss' c',
  select_datasets E geoReq c dss = Ok (dss', c') ->
  Forall (fun ds => Forall (stride_multiplied E geoReq) (ds_Axes ds)) dss'.
Proof.
  induction dss as [|ds tl IH]; intros c dss' c' H.
  - cbn in H. apply Ok_inj in H. inversion H. constructor.
  - cbn [select_datasets] in H.
    apply bind_Ok in H. destruct H as ([ds1 c1] & Hd & H).
    apply bind_Ok in H. destruct H as ([tl1 c2] & Ht & H).
    apply Ok_inj in H. cbn [fst snd] in *. inversion H; subst dss' c2.
    constructor.
    + eapply select_dataset_stride. exact Hd.
    + eapply IH. exact Ht.
Qed.

(** *** The band index of a combination *)

Lemma combo_axis_bandIdx E axis cnt c c' :
  combo_axis E axis cnt c = Ok c' ->
  exists sel, In sel (IntersectionIdx axis) /\
              bandIdx c' = wrapK KInt (bandIdx c + sel).
Proof.
  unfold combo_axis. intros H.
  apply bind_Ok in H. destruct H as (sel & Hs & H).
  apply bind_Ok in H. destruct H as (v & Hv & H).
  apply bind_Ok in H. destruct H as (va & Hva & H).
  apply Ok_inj in H. subst c'. cbn [bandIdx].
  exists sel. split; [eapply index_In; exact Hs | reflexivity].
Qed.

Lemma combo_bandIdx E : forall axes cnts c c',
  List.length cnts = List.length axes ->
  in_range KInt (bandIdx c) = true ->
  combo E axes cnts c = Ok c' ->
  exists sels,
    Forall2 (fun a s => In s (IntersectionIdx a)) axes sels /\
    bandIdx c' = wrapK KInt (bandIdx c + sum_Z sels).
Proof.
  induction axes as [|axis tl IH]; intros cnts c c' Hl Hr H.
  - destruct cnts; [|discriminate]. cbn in H. apply Ok_inj in H. subst c'.
    exists []. split; [constructor|]. cbn [sum_Z fold_right].
    rewrite Z.add_0_r. symmetry. apply wrapK_in_range. exact Hr.
  - destruct cnts as [|cnt cnts]; [discriminate|].
    cbn [combo] in H. apply bind_Ok in H. destruct H as (c1 & H1 & H).
    destruct (combo_axis_bandIdx E axis cnt c c1 H1) as (sel & Hin & Hb).
    destruct (IH cnts c1 c') as (sels & HF & Hs).
    + cbn in Hl. lia.
    + rewrite Hb. apply wrapK_range.
    + exact H.
    + exists (sel :: sels). split; [constructor; assumption|].
      rewrite Hs, Hb, wrapK_add_l. cbn [sum_Z fold_right].
      f_equal. fold (sum_Z sels). lia.
Qed.

Lemma expand_one_band E geoReq ds isEmptyTile dsNameSpace cnts x x' dss :
  In ds dss -> IsOutRange ds = false ->
  List.length cnts = List.length (ds_Axes ds) ->
  expand_one E geoReq ds isEmptyTile dsNameSpace cnts x = Ok x' ->
  Forall (band_sum dss) (granList x) ->
  Forall (band_sum dss) (granList x').
Proof.
  intros Hin Hout Hl H HF. unfold expand_one in H.
  apply bind_Ok in H. destruct H as (c & Hc & H).
  apply Ok_inj in H. subst x'. cbn [granList].
  match goal with |- context [if ?b then _ else _] => destruct b end;
    [|exact HF].
  apply Forall_app. split; [exact HF|]. constructor; [|constructor].
  eapply combo_bandIdx in Hc; [| exact Hl | vm_compute; reflexivity].
  destruct Hc as (sels & HS & Hb). cbn [bandIdx] in Hb.
  exists ds, sels. repeat split; try assumption.
Qed.

Lemma incr_length : forall rcnt rlens,
  List.length (incr rcnt rlens) = List.length rcnt.
Proof.
  induction rcnt as [|c rest IH]; intros rlens; [reflexivity|].
  destruct rest as [|c2 rest'].
  - reflexivity.
  - destruct rlens as [|l lrest]; [reflexivity|].
    change (incr (c :: c2 :: rest') (l :: lrest))
      with (if (l <=? S c)%nat then O :: incr (c2 :: rest') lrest
            else S c :: c2 :: rest').
    destruct (l <=? S c)%nat; [|reflexivity].
    change (List.length (O :: incr (c2 :: rest') lrest))
      with (S (List.length (incr (c2 :: rest') lrest))).
    rewrite IH. reflexivity.
Qed.

Lemma advance_length cnts lens :
  List.length (advance cnts lens) = List.length cnts.
Proof.
  unfold advance. rewrite length_rev, incr_length, length_rev. reflexivity.
Qed.

Lemma expand_loop_band E geoReq ds isEmptyTile dsNameSpace dss :
  In ds dss -> IsOutRange ds = false ->
  forall fuel cnts x x',
    List.length cnts = List.length (ds_Axes ds) ->
    expand_loop fuel E geoReq ds isEmptyTile dsNameSpace cnts x = Ok x' ->
    Forall (band_sum dss) (granList x) ->
    Forall (band_sum dss) (granList x').
Proof.
  intros Hin Hout. induction fuel as [|f IH]; intros cnts x x' Hl H HF.
  - cbn [expand_loop] in H.
    destruct cnts as [|c0 ?]; [discriminate|].
    destruct (axis_lens ds) as [|l0 ?]; [discriminate|].
    destruct (c0 <? l0)%nat; [discriminate|].
    apply Ok_inj in H. subst x'. exact HF.
  - cbn [expand_loop] in H.
    destruct cnts as [|c0 cnts']; [discriminate|].
    destruct (axis_lens ds) as [|l0 lens'] eqn:El; [discriminate|].
    destruct (c0 <? l0)%nat.
    + apply bind_Ok in H. destruct H as (x1 & H1 & H).
      eapply IH; [| exact H |].
      * rewrite advance_length. exact Hl.
      * eapply expand_one_band; eassumption.
    + apply Ok_inj in H. subst x'. exact HF.
Qed.

Lemma expand_dataset_band E geoReq isEmptyTile x ds x' dss :
  In ds dss ->
  expand_dataset E geoReq isEmptyTile x ds = Ok x' ->
  Forall (band_sum dss) (granList x) ->
  Forall (band_sum dss) (granList x').
Proof.
  intros Hin H HF. unfold expand_dataset in H.
  destruct (IsOutRange ds) eqn:Ho.
  - apply Ok_inj in H. subst x'. exact HF.
  - eapply expand_loop_band; [exact Hin | exact Ho | | exact H | exact HF].
    apply repeat_length.
Qed.

Lemma expand_datasets_band E geoReq isEmptyTile all : forall dss x x',
  incl dss all ->
  expand_datasets E geoReq isEmptyTile x dss = Ok x' ->
  Forall (band_sum all) (granList x) ->
  Forall (band_sum all) (granList x').
Proof.
  induction dss as [|ds tl IH]; intros x x' Hi H HF.
  - cbn in H. apply Ok_inj in H. subst x'. exact HF.
  - cbn [expand_datasets] in H.
    apply bind_Ok in H. destruct H as (x1 & H1 & H).
    eapply IH; [| exact H |].
    + intros d Hd. apply Hi. right. exact Hd.
    + eapply expand_dataset_band; [| exact H1 | exact HF].
      apply Hi. left. reflexivity.
Qed.

Lemma index_response_inv E geoReq isEmptyTile metadata ix :
  index_response E geoReq isEmptyTile metadata = Ok ix ->
  exists c x,
    select_datasets E geoReq (ctx0 geoReq) (GDALDatasets metadata)
    = Ok (ix_datasets ix, c) /\
    ix_req ix = set_Axes geoReq (reqAxes c) /\
    expand_datasets E (ix_req ix) isEmptyTile
                    {| bandNameSpaces := []; granList := [] |}
                    (ix_datasets ix) = Ok x /\
    ix_bands ix = bandNameSpaces x /\
    ix_granList ix = granList x /\
    (sortedNameSpaces ix, hasNewNs ix)
    = sort_namespaces E (bandNameSpaces x)
                      (NameSpaces (req_Config (ix_req ix))) ([], false).
Proof.
  unfold index_response. intros H.
  apply bind_Ok in H. destruct H as ([dss c] & Hs & H).
  apply bind_Ok in H. destruct H as (x & Hx & H).
  apply Ok_inj in H. subst ix. cbn [fst snd] in *.
  exists c, x. cbn [ix_datasets ix_req ix_bands ix_granList
                    sortedNameSpaces hasNewNs].
  repeat split; try assumption. symmetry. apply surjective_pairing.
Qed.


(** *** The loop over the combinations ends *)

Lemma prod_app (l1 l2 : list nat) :
  combinations (l1 ++ l2) = (combinations l1 * combinations l2)%nat.
Proof.
  unfold combinations. induction l1 as [|a l1 IH]; cbn [app fold_right].
  - lia.
  - rewrite IH. lia.
Qed.

Lemma prod_rev (l : list nat) : combinations (rev l) = combinations l.
Proof.
  induction l as [|a l IH]; [reflexivity|].
  cbn [rev]. rewrite prod_app, IH. unfold combinations. cbn [fold_right]. lia.
Qed.

Lemma rval_bound : forall r rl,
  Forall2 lt r rl -> (rval r rl < combinations rl)%nat.
Proof.
  induction 1 as [|c l r rl Hc HF IH]; cbn [rval].
  - unfold combinations. cbn. lia.
  - unfold combinations in *. cbn [fold_right]. nia.
Qed.

Lemma incr_rval : forall r rl,
  Forall2 lt r rl -> r <> [] ->
  rval (incr r rl) rl = S (rval r rl).
Proof.
  induction 1 as [|c l r rl Hc HF IH]; intros Hne; [congruence|].
  destruct r as [|c2 rest].
  - inversion HF; subst. cbn [incr rval]. lia.
  - destruct rl as [|l2 lrest]; [inversion HF|].
    change (incr (c :: c2 :: rest) (l :: l2 :: lrest))
      with (if (l <=? S c)%nat then O :: incr (c2 :: rest) (l2 :: lrest)
            else S c :: c2 :: rest).
    destruct (l <=? S c)%nat eqn:El.
    + apply Nat.leb_le in El.
      change (rval (O :: incr (c2 :: rest) (l2 :: lrest)) (l :: l2 :: lrest))
        with (0 + l * rval (incr (c2 :: rest) (l2 :: lrest)) (l2 :: lrest))%nat.
      rewrite IH by discriminate.
      change (rval (c :: c2 :: rest) (l :: l2 :: lrest))
        with (c + l * rval (c2 :: rest) (l2 :: lrest))%nat.
      nia.
    + reflexivity.
Qed.

Lemma incr_valid : forall r rl,
  Forall2 lt r rl -> r <> [] ->
  (last (incr r rl) O < last rl O)%nat ->
  Forall2 lt (incr r rl) rl.
Proof.
  induction 1 as [|c l r rl Hc HF IH]; intros Hne Hlast; [congruence|].
  destruct r as [|c2 rest].
  - inversion HF; subst. cbn [incr last] in *. constructor; [lia|constructor].
  - destruct rl as [|l2 lrest]; [inversion HF|].
    change (incr (c :: c2 :: rest) (l :: l2 :: lrest))
      with (if (l <=? S c)%nat then O :: incr (c2 :: rest) (l2 :: lrest)
            else S c :: c2 :: rest) in *.
    destruct (l <=? S c)%nat eqn:El.
    + constructor; [lia|]. apply IH; [discriminate|].
      pose proof (incr_length (c2 :: rest) (l2 :: lrest)) as Hlen.
      destruct (incr (c2 :: rest) (l2 :: lrest)) as [|i0 itl];
        [discriminate|].
      exact Hlast.
    + apply Nat.leb_gt in El. constructor; [lia | exact HF].
Qed.

Lemma Forall2_rev_lt : forall (l1 l2 : list nat),
  Forall2 lt l1 l2 -> Forall2 lt (rev l1) (rev l2).
Proof.
  induction 1 as [|a b l1 l2 Hab HF IH]; [constructor|].
  cbn [rev]. apply Forall2_app; [exact IH|]. constructor; [exact Hab|constructor].
Qed.

Lemma last_rev_hd (l : list nat) : last (rev l) O = hd O l.
Proof.
  destruct l as [|a l]; [reflexivity|]. cbn [rev hd].
  apply last_last.
Qed.

(** After a combination whose counters are all in range, the counters
    count one more, and they are in range again unless the first one has
    reached its length. *)
Lemma advance_spec cnts lens :
  Forall2 lt cnts lens -> cnts <> [] ->
  List.length (advance cnts lens) = List.length cnts /\
  rval (rev (advance cnts lens)) (rev lens) = S (rval (rev cnts) (rev lens)) /\
  ((hd O (advance cnts lens) < hd O lens)%nat ->
   Forall2 lt (advance cnts lens) lens).
Proof.
  intros HF Hne. split; [apply advance_length|].
  pose proof (Forall2_rev_lt _ _ HF) as HR.
  assert (Hrne : rev cnts <> []).
  { intros H. apply (f_equal (@rev nat)) in H.
    rewrite rev_involutive in H. contradiction. }
  unfold advance. rewrite rev_involutive. split.
  - apply incr_rval; assumption.
  - intros Hlt. rewrite <- (rev_involutive lens) at 2.
    apply Forall2_rev_lt. apply incr_valid; try assumption.
    rewrite <- (rev_involutive (incr (rev cnts) (rev lens))).
    rewrite !last_rev_hd. exact Hlt.
Qed.

Lemma combo_valid E : forall axes cnts c c',
  List.length cnts = List.length axes ->
  combo E axes cnts c = Ok c' ->
  Forall2 lt cnts (map (fun a => List.length (IntersectionIdx a)) axes).
Proof.
  induction axes as [|axis tl IH]; intros cnts c c' Hl H.
  - destruct cnts; [constructor | discriminate].
  - destruct cnts as [|cnt cnts]; [discriminate|].
    cbn [combo] in H. apply bind_Ok in H. destruct H as (c1 & H1 & H).
    cbn [map]. constructor.
    + unfold combo_axis in H1. apply bind_Ok in H1.
      destruct H1 as (sel & Hs & _).
      destruct (index_Ok_inv _ _ _ 0 Hs) as (Hi & _). unfold len in Hi. lia.
    + eapply IH; [|exact H]. cbn in Hl. lia.
Qed.

Lemma combo_axis_panic E axis cnt c m :
  combo_axis E axis cnt c = Panic m -> m = idx_panic.
Proof.
  unfold combo_axis, index.
  repeat match goal with
         | |- context [if ?b then _ else _] => destruct b
         | |- context [nth_error ?l ?n] => destruct (nth_error l n)
         end; cbn [bind]; intros H; inversion H; reflexivity.
Qed.

Lemma combo_panic E : forall axes cnts c m,
  combo E axes cnts c = Panic m -> m = idx_panic.
Proof.
  induction axes as [|axis tl IH]; intros cnts c m H.
  - destruct cnts; discriminate.
  - destruct cnts as [|cnt cnts]; [discriminate|].
    cbn [combo] in H.
    destruct (combo_axis E axis cnt c) as [c1|e|m1] eqn:E1; cbn [bind] in H.
    + eapply IH. exact H.
    + discriminate.
    + inversion H; subst. eapply combo_axis_panic. exact E1.
Qed.

Lemma expand_one_panic E geoReq ds isEmptyTile ns cnts x m :
  expand_one E geoReq ds isEmptyTile ns cnts x = Panic m -> m = idx_panic.
Proof.
  unfold expand_one.
  match goal with |- context [combo ?E ?a ?c ?i] =>
    destruct (combo E a c i) as [c1|e|m1] eqn:Ec end; cbn [bind];
    try discriminate.
  intros H. inversion H; subst. eapply combo_panic. exact Ec.
Qed.

Lemma expand_one_valid E geoReq ds isEmptyTile ns cnts x x' :
  List.length cnts = List.length (ds_Axes ds) ->
  expand_one E geoReq ds isEmptyTile ns cnts x = Ok x' ->
  Forall2 lt cnts (axis_lens ds).
Proof.
  intros Hl H. unfold expand_one in H.
  apply bind_Ok in H. destruct H as (c & Hc & _).
  eapply combo_valid; eassumption.
Qed.

(** The loop never runs out of the iterations the model allows it. *)
Lemma expand_loop_fuel E geoReq ds isEmptyTile ns : forall fuel cnts x,
  List.length cnts = List.length (ds_Axes ds) ->
  ((hd O cnts < hd O (axis_lens ds))%nat ->
   (1 <= fuel)%nat /\
   (Forall2 lt cnts (axis_lens ds) ->
    (combinations (axis_lens ds)
     <= rval (rev cnts) (rev (axis_lens ds)) + fuel)%nat)) ->
  expand_loop fuel E geoReq ds isEmptyTile ns cnts x
  <> Panic "expand_loop: out of fuel".
Proof.
  induction fuel as [|f IH]; intros cnts x Hl Hf; cbn [expand_loop].
  - destruct cnts as [|c0 cnts]; [discriminate|].
    destruct (axis_lens ds) as [|l0 lens]; [discriminate|].
    destruct (c0 <? l0)%nat eqn:Ec; [|discriminate].
    apply Nat.ltb_lt in Ec. destruct (Hf Ec) as [H1 _]. lia.
  - destruct cnts as [|c0 cnts'] eqn:Ecn; [discriminate|].
    destruct (axis_lens ds) as [|l0 lens'] eqn:El; [discriminate|].
    destruct (c0 <? l0)%nat eqn:Ec; [|discriminate].
    apply Nat.ltb_lt in Ec. destruct (Hf Ec) as [_ Hb].
    destruct (expand_one E geoReq ds isEmptyTile ns (c0 :: cnts') x)
      as [x'|e|m] eqn:E1; cbn [bind].
    + pose proof (expand_one_valid _ _ _ _ _ _ _ _ Hl E1) as HV.
      rewrite El in HV.
      destruct (advance_spec (c0 :: cnts') (l0 :: lens') HV)
        as (Hlen & Hval & Hvalid); [discriminate|].
      apply IH; [congruence|].
      intros Hlt. specialize (Hvalid Hlt). specialize (Hb HV).
      pose proof (rval_bound _ _ (Forall2_rev_lt _ _ Hvalid)) as Hbd.
      rewrite prod_rev in Hbd. rewrite Hval in *. split; [lia|].
      intros _. lia.
    + discriminate.
    + apply expand_one_panic in E1. subst m. discriminate.
Qed.

Lemma rval_zeros : forall n rl, rval (repeat O n) rl = O.
Proof.
  induction n as [|n IH]; intros rl; [reflexivity|].
  destruct rl as [|l rl]; [reflexivity|]. cbn [repeat rval].
  rewrite IH. lia.
Qed.

Lemma rev_repeat {A} (a : A) : forall n, rev (repeat a n) = repeat a n.
Proof.
  induction n as [|n IH]; [reflexivity|]. cbn [repeat rev]. rewrite IH.
  clear IH. induction n as [|n IH]; [reflexivity|].
  cbn [repeat app]. rewrite IH. reflexivity.
Qed.

(** X1. The loop over the combinations of a dataset ends: whatever the
    selection, it never exhausts the iterations the model allows it, one
    more than the product of the numbers of indices selected on the
    axes. Every run of the model is a run of the code. *)
Theorem expand_dataset_fuel E geoReq isEmptyTile x ds :
  expand_dataset E geoReq isEmptyTile x ds
  <> Panic "expand_loop: out of fuel".
Proof.
  unfold expand_dataset. destruct (IsOutRange ds); [discriminate|].
  apply expand_loop_fuel; [apply repeat_length|].
  intros _. split; [lia|]. intros _.
  rewrite rev_repeat, rval_zeros. lia.
Qed.


(** *** What is sent *)

(** The granules sent are granules of the list, in its order, with the
    band index they were built with. *)
Lemma emit_Out E cfg : forall grans s,
  exists sent,
    Out (emit E s cfg grans) = Out s ++ sent /\
    Forall (fun g => exists g0, In g0 grans /\ BandIdx g = BandIdx g0) sent.
Proof.
  induction grans as [|g tl IH]; intros s; cbn [emit].
  - exists []. rewrite app_nil_r. split; [reflexivity | constructor].
  - pose proof (checkCancellation_frame E s) as [_ Ho].
    destruct (checkCancellation E s) as [s1 [|]]; cbn [fst] in Ho.
    + exists []. rewrite app_nil_r. split; [exact Ho | constructor].
    + match goal with |- context [emit E (send s1 ?g') cfg tl] =>
        destruct (IH (send s1 g')) as (sent & Hs & HF);
        exists (g' :: sent) end.
      split.
      * rewrite Hs. cbn [send Out]. rewrite Ho, <- app_assoc. reflexivity.
      * constructor.
        -- exists g. split; [left; reflexivity|]. destruct cfg; reflexivity.
        -- eapply Forall_impl; [|exact HF]. cbv beta.
           intros a (g0 & Hin & Hb). exists g0. split; [right; exact Hin|].
           exact Hb.
Qed.

Lemma band_sum_ext dss g g0 :
  BandIdx g = BandIdx g0 -> band_sum dss g0 -> band_sum dss g.
Proof.
  intros Hb (ds & sels & H1 & H2 & H3 & H4).
  exists ds, sels. repeat split; try assumption. congruence.
Qed.

Lemma sum_Z_nonneg sels : Forall (fun s => 0 <= s) sels -> 0 <= sum_Z sels.
Proof.
  induction 1 as [|s sels Hs HF IH]; cbn [sum_Z fold_right]; [lia|].
  fold (sum_Z sels). lia.
Qed.




End ExpansionFacts.

(** ** The sorted list of name spaces *)

Section NameSpaceFacts.
Import Indexer.

(** *** The order of visiting maps plays no part before the sorting *)

Section MapOrder.
Variable E : Env.
Variable f : forall A : Type, list A -> list A.
Let E' := with_map_order E f.

Lemma select_axis_map_order geoReq ds c o axis :
  select_axis E' geoReq ds c o axis = select_axis E geoReq ds c o axis.
Proof. reflexivity. Qed.

Lemma select_axes_map_order geoReq ds : forall axes c o,
  select_axes E' geoReq ds c o axes = select_axes E geoReq ds c o axes.
Proof.
  induction axes as [|axis tl IH]; intros c o; [reflexivity|].
  cbn [select_axes]. rewrite select_axis_map_order.
  destruct (select_axis E geoReq ds c o axis) as [[[a1 c1] o1]|e|m];
    cbn [bind]; [|reflexivity..].
  rewrite IH. reflexivity.
Qed.

Lemma select_datasets_map_order geoReq : forall dss c,
  select_datasets E' geoReq c dss = select_datasets E geoReq c dss.
Proof.
  induction dss as [|ds tl IH]; intros c; [reflexivity|].
  cbn [select_datasets]. unfold select_dataset.
  rewrite select_axes_map_order.
  match goal with |- bind ?o _ = bind ?o _ =>
    destruct o as [[ds1 c1]|e|m] end; cbn [bind]; [|reflexivity..].
  rewrite IH. reflexivity.
Qed.

Lemma combo_map_order : forall axes cnts c,
  combo E' axes cnts c = combo E axes cnts c.
Proof.
  induction axes as [|axis tl IH]; intros cnts c; [reflexivity|].
  destruct cnts as [|cnt cnts]; [reflexivity|]. cbn [combo].
  change (combo_axis E' axis cnt c) with (combo_axis E axis cnt c).
  destruct (combo_axis E axis cnt c) as [c1|e|m]; cbn [bind];
    [apply IH | reflexivity..].
Qed.

Lemma expand_one_map_order geoReq ds isEmptyTile ns cnts x :
  expand_one E' geoReq ds isEmptyTile ns cnts x
  = expand_one E geoReq ds isEmptyTile ns cnts x.
Proof. unfold expand_one. rewrite combo_map_order. reflexivity. Qed.

Lemma expand_loop_map_order geoReq ds isEmptyTile ns : forall fuel cnts x,
  expand_loop fuel E' geoReq ds isEmptyTile ns cnts x
  = expand_loop fuel E geoReq ds isEmptyTile ns cnts x.
Proof.
  induction fuel as [|fuel IH]; intros cnts x; [reflexivity|].
  cbn [expand_loop]. destruct cnts as [|c0 cnts]; [reflexivity|].
  destruct (axis_lens ds) as [|l0 lens]; [reflexivity|].
  destruct (c0 <? l0)%nat; [|reflexivity].
  rewrite expand_one_map_order.
  destruct (expand_one E geoReq ds isEmptyTile ns (c0 :: cnts) x)
    as [x'|e|m]; cbn [bind]; [apply IH | reflexivity..].
Qed.

Lemma expand_datasets_map_order geoReq isEmptyTile : forall dss x,
  expand_datasets E' geoReq isEmptyTile x dss
  = expand_datasets E geoReq isEmptyTile x dss.
Proof.
  induction dss as [|ds tl IH]; intros x; [reflexivity|].
  cbn [expand_datasets]. unfold expand_dataset.
  rewrite expand_loop_map_order.
  change (EmptyTileNS E') with (EmptyTileNS E).
  match goal with |- bind ?o _ = bind ?o _ =>
    destruct o as [x'|e|m] end; cbn [bind]; [apply IH | reflexivity..].
Qed.

End MapOrder.

(** *** The sorted list *)

Lemma sort_namespaces_spec E bns : forall nss acc,
  sort_namespaces E bns nss acc
  = (fst acc ++ flat_map (namespace_group E bns) nss,
     snd acc || existsb (fun ns => match lookup ns bns with
                                   | Some _ => true
                                   | None => false
                                   end) nss).
Proof.
  induction nss as [|ns tl IH]; intros [l b]; cbn [sort_namespaces].
  - cbn [flat_map existsb fst snd]. rewrite app_nil_r, orb_false_r.
    reflexivity.
  - rewrite IH. cbn [flat_map existsb]. unfold namespace_group at 2.
    destruct (lookup ns bns) as [bands|]; cbn [fst snd];
      rewrite <- app_assoc.
    + rewrite orb_true_r. reflexivity.
    + reflexivity.
Qed.

Lemma not_nan_comparable a b :
  is_nan a = false -> is_nan b = false ->
  f_lt a b = true \/ f_lt b a = true \/ f_eq a b = true.
Proof.
  intros Ha Hb. unfold f_lt, f_eq, SFltb, SFeqb.
  rewrite (SFcompare_antisym a b).
  assert (H : exists c, SFcompare a b = Some c).
  { destruct a as [sa|sa| |sa ma ea], b as [sb|sb| |sb mb eb];
      try discriminate; cbn [SFcompare];
      repeat match goal with
             | |- context [match ?x with _ => _ end] => destruct x
             end; eauto. }
  destruct H as (c & ->). destruct c; cbn; auto.
Qed.

Lemma unband_band l : map unband (map band l) = l.
Proof.
  rewrite map_map. rewrite <- (map_id l) at 2. apply map_ext.
  intros [n v]. reflexivity.
Qed.

Lemma sorted_bands_perm E bands :
  env_ok E ->
  Permutation (map band bands)
              (sort_Slice E (fun a b => f_le (bn_Val a) (bn_Val b))
                          (map band (map_order E _ bands))).
Proof.
  intros (Hmo & Hso & _). unfold sort_Slice.
  eapply Permutation_trans; [apply Permutation_map, Hmo|].
  eapply Permutation_trans; [apply Hso|]. apply insertionSort_perm.
Qed.

(** The name spaces of a group come out in ascending order of their
    band timestamps. *)
Lemma sorted_bands_sorted E bands :
  env_ok E -> no_nan bands ->
  exists l,
    Permutation bands l /\
    StronglySorted (fun p q => f_le (snd p) (snd q) = true) l /\
    sorted_bands E bands = map fst l.
Proof.
  intros Hok Hnn. pose proof (sorted_bands_perm E bands Hok) as HP.
  unfold sorted_bands.
  change (fun p : string * float64 => {| bn_Name := fst p; bn_Val := snd p |})
    with band.
  set (s := sort_Slice E _ _) in *.
  exists (map unband s). split; [|split].
  - rewrite <- (unband_band bands) at 1. apply Permutation_map. exact HP.
  - assert (HS : StronglySorted
                   (fun a b => f_le (bn_Val a) (bn_Val b) = true) s).
    { unfold s, sort_Slice.
      apply (insertionSort_sorted
               (fun a b => f_le (bn_Val a) (bn_Val b))
               (fun a => is_nan (bn_Val a) = false)).
      - intros x y Hx Hy Hxy. apply f_le_total; [|exact Hxy].
        apply not_nan_comparable; assumption.
      - intros x y z. apply f_le_trans.
      - destruct Hok as (Hmo & Hso & _).
        eapply Permutation_Forall; [apply Hso|].
        eapply Permutation_Forall; [apply Permutation_map, Hmo|].
        apply Forall_map. exact Hnn. }
    clear -HS. induction HS as [|a l HS IH Ha]; cbn [map]; constructor.
    + exact IH.
    + apply Forall_map. exact Ha.
  - rewrite map_map. apply map_ext. intros b. reflexivity.
Qed.

(** Without ties the sorted list of a group is the same whatever the
    order in which the map is visited and whatever [sort.Slice] does
    with equal elements. *)
Lemma sorted_bands_unique E1 E2 bands :
  env_ok E1 -> env_ok E2 -> no_nan bands -> no_ties bands ->
  sorted_bands E1 bands = sorted_bands E2 bands.
Proof.
  intros H1 H2 Hnn Hnt. unfold sorted_bands. f_equal.
  change (fun p : string * float64 => {| bn_Name := fst p; bn_Val := snd p |})
    with band.
  pose proof (sorted_bands_perm E1 bands H1) as P1.
  pose proof (sorted_bands_perm E2 bands H2) as P2.
  set (s1 := sort_Slice E1 _ _) in *. set (s2 := sort_Slice E2 _ _) in *.
  assert (HS : forall E, env_ok E ->
             StronglySorted (fun a b => f_le (bn_Val a) (bn_Val b) = true)
               (sort_Slice E (fun a b => f_le (bn_Val a) (bn_Val b))
                           (map band (map_order E _ bands)))).
  { intros E (Hmo & Hso & _). unfold sort_Slice.
    apply (insertionSort_sorted
             (fun a b => f_le (bn_Val a) (bn_Val b))
             (fun a => is_nan (bn_Val a) = false)).
    - intros x y Hx Hy Hxy. apply f_le_total; [|exact Hxy].
      apply not_nan_comparable; assumption.
    - intros x y z. apply f_le_trans.
    - eapply Permutation_Forall; [apply Hso|].
      eapply Permutation_Forall; [apply Permutation_map, Hmo|].
      apply Forall_map. exact Hnn. }
  apply (sorted_perm_unique
           (fun a b => f_le (bn_Val a) (bn_Val b) = true));
    [apply HS; exact H1 | apply HS; exact H2 | |].
  - eapply Permutation_trans; [apply Permutation_sym, P1 | exact P2].
  - intros a b Ha Hb Hab Hba.
    apply (Permutation_in _ (Permutation_sym P1)) in Ha, Hb.
    apply in_map_iff in Ha, Hb.
    destruct Ha as (p & <- & Hp), Hb as (q & <- & Hq).
    destruct (ForallOrdPairs_In Hnt _ _ Hp Hq) as [->|[[H|H]|[H|H]]];
      [reflexivity|..]; apply f_lt_not_le in H;
      cbv beta delta [band] in Hab, Hba; cbn [bn_Val] in Hab, Hba.
    all: first [ discriminate (eq_trans (eq_sym H) Hba)
               | discriminate (eq_trans (eq_sym H) Hab) ].
Qed.


(** *** Where the band timestamps come from *)

Lemma lookup_store_eq {V} k (v : V) : forall m,
  lookup k (store k v m) = Some v.
Proof.
  induction m as [|[k' v'] m IH]; cbn [store lookup].
  - rewrite String.eqb_refl. reflexivity.
  - destruct (String.eqb k k') eqn:Ek; cbn [lookup].
    + rewrite String.eqb_refl. reflexivity.
    + rewrite Ek. exact IH.
Qed.

Lemma lookup_store_neq {V} k k0 (v : V) : forall m,
  k0 <> k -> lookup k0 (store k v m) = lookup k0 m.
Proof.
  intros m Hne. induction m as [|[k' v'] m IH]; cbn [store lookup].
  - destruct (String.eqb k0 k) eqn:E0; [|reflexivity].
    apply String.eqb_eq in E0. contradiction.
  - destruct (String.eqb k k') eqn:Ek; cbn [lookup].
    + apply String.eqb_eq in Ek. subst k'.
      destruct (String.eqb k0 k) eqn:E0; [|reflexivity].
      apply String.eqb_eq in E0. contradiction.
    + rewrite IH. reflexivity.
Qed.

Lemma In_store {V} k (v : V) p : forall m,
  In p (store k v m) -> p = (k, v) \/ In p m.
Proof.
  induction m as [|[k' v'] m IH]; cbn [store]; intros H.
  - destruct H as [H|[]]. left. symmetry. exact H.
  - destruct (String.eqb k k').
    + destruct H as [H|H]; [left; symmetry; exact H | right; right; exact H].
    + destruct H as [H|H]; [right; left; exact H|].
      destruct (IH H) as [H'|H']; [left; exact H' | right; right; exact H'].
Qed.

Lemma expand_one_bands E geoReq ds isEmptyTile dsNs cnts x x' dss :
  In ds dss ->
  expand_one E geoReq ds isEmptyTile dsNs cnts x = Ok x' ->
  bands_from E dss (bandNameSpaces x) ->
  bands_from E dss (bandNameSpaces x').
Proof.
  intros Hin H HB. unfold expand_one in H.
  apply bind_Ok in H. destruct H as (c & Hc & H).
  apply Ok_inj in H. subst x'. cbn [bandNameSpaces].
  destruct (hasNonAgg c); [|exact HB].
  intros k b ns v Hl Hi.
  destruct (String.eqb k dsNs) eqn:Ek.
  - apply String.eqb_eq in Ek. subst k.
    rewrite lookup_store_eq in Hl. apply (f_equal (fun o => match o with
                                                            | Some z => z
                                                            | None => []
                                                            end)) in Hl.
    cbv beta iota in Hl. subst b.
    assert (Hold : forall p, In p match lookup dsNs (bandNameSpaces x) with
                                  | Some b => b
                                  | None => []
                                  end ->
                             exists b0, lookup dsNs (bandNameSpaces x) = Some b0
                                        /\ In p b0).
    { intros p Hp. destruct (lookup dsNs (bandNameSpaces x)) as [b0|];
        [eauto | contradiction]. }
    match type of Hi with In _ (if ?t then _ else _) => destruct t end.
    + destruct (Hold _ Hi) as (b0 & Hb0 & Hp). eapply HB; eassumption.
    + apply In_store in Hi. destruct Hi as [Hi|Hi].
      * inversion Hi; subst ns v. exists ds, cnts, c. auto.
      * destruct (Hold _ Hi) as (b0 & Hb0 & Hp). eapply HB; eassumption.
  - apply String.eqb_neq in Ek. rewrite lookup_store_neq in Hl by exact Ek.
    eapply HB; eassumption.
Qed.

Lemma expand_loop_bands E geoReq ds isEmptyTile dsNs dss :
  In ds dss ->
  forall fuel cnts x x',
    expand_loop fuel E geoReq ds isEmptyTile dsNs cnts x = Ok x' ->
    bands_from E dss (bandNameSpaces x) ->
    bands_from E dss (bandNameSpaces x').
Proof.
  intros Hin. induction fuel as [|fuel IH]; intros cnts x x' H HB;
    cbn [expand_loop] in H;
    destruct cnts as [|c0 cnts']; try discriminate;
    destruct (axis_lens ds) as [|l0 lens']; try discriminate;
    destruct (c0 <? l0)%nat; try discriminate;
    try (apply Ok_inj in H; subst x'; exact HB).
  apply bind_Ok in H. destruct H as (x1 & H1 & H).
  eapply IH; [exact H|]. eapply expand_one_bands; eassumption.
Qed.

Lemma expand_datasets_bands E geoReq isEmptyTile all : forall dss x x',
  incl dss all ->
  expand_datasets E geoReq isEmptyTile x dss = Ok x' ->
  bands_from E all (bandNameSpaces x) ->
  bands_from E all (bandNameSpaces x').
Proof.
  induction dss as [|ds tl IH]; intros x x' Hi H HB.
  - cbn in H. apply Ok_inj in H. subst x'. exact HB.
  - cbn [expand_datasets] in H.
    apply bind_Ok in H. destruct H as (x1 & H1 & H).
    eapply IH; [| exact H |].
    + intros d Hd. apply Hi. right. exact Hd.
    + unfold expand_dataset in H1. destruct (IsOutRange ds).
      * apply Ok_inj in H1. subst x1. exact HB.
      * eapply expand_loop_bands; [| exact H1 | exact HB].
        apply Hi. left. reflexivity.
Qed.

Lemma with_map_order_ok E f :
  env_ok E -> (forall A (l : list A), Permutation l (f A l)) ->
  env_ok (with_map_order E f).
Proof. intros (_ & Hso & Hsh) Hf. repeat split; assumption. Qed.

Lemma index_response_map_order E f geoReq isEmptyTile metadata ix :
  index_response E geoReq isEmptyTile metadata = Ok ix ->
  exists ix',
    index_response (with_map_order E f) geoReq isEmptyTile metadata
    = Ok ix' /\
    ix_req ix' = ix_req ix /\ ix_datasets ix' = ix_datasets ix /\
    ix_bands ix' = ix_bands ix /\ ix_granList ix' = ix_granList ix /\
    sortedNameSpaces ix'
    = flat_map (namespace_group (with_map_order E f) (ix_bands ix))
               (NameSpaces (req_Config (ix_req ix))).
Proof.
  intros H. unfold index_response in *.
  rewrite select_datasets_map_order.
  apply bind_Ok in H. destruct H as ([dss c] & Hs & H).
  rewrite Hs. cbn [bind fst snd] in *.
  rewrite expand_datasets_map_order.
  apply bind_Ok in H. destruct H as (x & Hx & H).
  rewrite Hx. cbn [bind]. apply Ok_inj in H. subst ix.
  eexists. split; [reflexivity|].
  cbn [ix_req ix_datasets ix_bands ix_granList sortedNameSpaces].
  repeat split. rewrite sort_namespaces_spec. reflexivity.
Qed.




End NameSpaceFacts.
(** ** More on the selection by index *)

Section MoreSelection.
Import Indexer.

Lemma fill_values_panic vals : forall args i new m,
  fill_values args i vals new = Panic m -> m = idx_panic.
Proof.
  induction args as [|a tl IH]; intros i new m H; cbn [fill_values] in H.
  - discriminate.
  - destruct (index vals (SortIdx a)) as [v|e|m1] eqn:Ei; cbn [bind] in H.
    + destruct (list_set new i v) as [new'|].
      * eapply IH. exact H.
      * inversion H. reflexivity.
    + discriminate.
    + inversion H; subst. unfold index in Ei.
      destruct (SortIdx a <? 0); [inversion Ei; reflexivity|].
      destruct (nth_error vals (Z.to_nat (SortIdx a)));
        [discriminate | inversion Ei; reflexivity].
Qed.

Lemma select_one_lookup params st sel st' :
  select_one params st sel = Ok (Next st') ->
  Forall (fun x => 0 <= x) (idxLookup st) ->
  Forall (fun x => 0 <= x) (idxLookup st').
Proof.
  unfold select_one. intros H HF.
  destruct (IsAll sel); [discriminate|].
  destruct (negb (IsRange sel)).
  { destruct (sel_Start sel) as [idx|]; [|discriminate].
    destruct (idx <? 0) eqn:E0; cbn [orb] in H; [discriminate|].
    destruct (idx >? len params - 1); [discriminate|].
    destruct (mem_Z idx (idxLookup st)).
    { apply Ok_inj in H. inversion H; subst. exact HF. }
    apply bind_Ok in H. destruct H as (v & _ & H).
    apply Ok_inj in H. inversion H; subst. cbn [idxLookup].
    constructor; [apply Z.ltb_ge in E0; exact E0 | exact HF]. }
  cbv zeta in H.
  repeat match type of H with
         | (if ?b then _ else _) = _ => destruct b; try discriminate
         end.
  apply bind_Ok in H. destruct H as (r & _ & H).
  apply Ok_inj in H. inversion H; subst. exact HF.
Qed.

(** The loop of a range selector ends: a selector whose fields are
    [int]s never exhausts the iterations the model allows. *)
Lemma select_one_terminates params st sel :
  selector_ints sel ->
  Forall (fun x => 0 <= x) (idxLookup st) ->
  select_one params st sel <> Panic "range_loop: out of fuel".
Proof.
  intros (Hs & He & Hp) HF. unfold select_one.
  destruct (IsAll sel); [discriminate|].
  destruct (negb (IsRange sel)).
  { destruct (sel_Start sel) as [idx|]; [|discriminate].
    destruct ((idx <? 0) || (idx >? len params - 1)); [discriminate|].
    destruct (mem_Z idx (idxLookup st)); [discriminate|].
    unfold index. destruct (idx <? 0); [discriminate|].
    destruct (nth_error params (Z.to_nat idx)); discriminate. }
  cbv zeta.
  destruct (or_default (sel_End sel) (len params - 1) >? len params - 1)
    eqn:E1; [discriminate|].
  destruct (or_default (sel_Start sel) 0
            >? or_default (sel_End sel) (len params - 1)) eqn:E2;
    [discriminate|].
  destruct (or_default (sel_Step sel) 1 <? 1) eqn:E3; [discriminate|].
  rewrite Z.gtb_ltb in E1, E2. apply Z.ltb_ge in E1, E2, E3.
  match goal with |- bind ?o _ <> _ =>
    assert (Hl : o <> Panic "range_loop: out of fuel") end.
  { apply range_loop_fuel; try assumption; try lia.
    unfold len in *. intros H0 H1. lia. }
  match goal with |- bind ?o _ <> _ => destruct o as [r|e|m] end;
    cbn [bind]; congruence.
Qed.

Lemma select_all_terminates params : forall sels st,
  Forall selector_ints sels ->
  Forall (fun x => 0 <= x) (idxLookup st) ->
  select_all params sels st <> Panic "range_loop: out of fuel".
Proof.
  induction sels as [|sel tl IH]; intros st Hs HF; cbn [select_all].
  - discriminate.
  - inversion Hs as [|? ? Hsel Htl]; subst.
    pose proof (select_one_terminates params st sel Hsel HF) as H1.
    destruct (select_one params st sel) as [[st'|x]|e|m] eqn:E1;
      cbn [bind]; try discriminate; try congruence.
    apply IH; [exact Htl|]. eapply select_one_lookup; eassumption.
Qed.

(** X3. [doSelectionByIndices] ends. With selectors whose start, end and
    step are [int]s, the loops of the range selectors never exhaust the
    iterations the model allows: every run of the model is a run of the
    code. *)
Theorem doSelectionByIndices_terminates : forall E axis tileAxis,
  Forall selector_ints (IdxSelectors tileAxis) ->
  doSelectionByIndices E axis tileAxis <> Panic "range_loop: out of fuel".
Proof.
  intros E axis tileAxis Hs. unfold doSelectionByIndices.
  destruct (negb (Grid axis =? "enum")%string); [discriminate|].
  match goal with |- bind ?o _ <> _ =>
    assert (Hl : o <> Panic "range_loop: out of fuel")
      by (apply select_all_terminates; [exact Hs | constructor]);
    destruct o as [[st|[st o']]|e|m]
  end; cbn [bind]; try discriminate; try congruence.
  unfold sort_selection.
  match goal with |- context [fill_values ?a ?i ?v ?n] =>
    destruct (fill_values a i v n) as [vals|e|m] eqn:Ef end;
    cbn [bind]; try discriminate.
  apply fill_values_panic in Ef. subst m. discriminate.
Qed.

Lemma doSelectionByIndices_terminates_witness :
  Forall selector_ints
         [range_selector (Some 1) (Some 6) (Some (max_of KInt))] /\
  doSelectionByIndices
    env_plain axis8
    (index_axis [range_selector (Some 1) (Some 6) (Some (max_of KInt))])
  <> Panic "range_loop: out of fuel".
Proof.
  split; [repeat constructor|].
  apply doSelectionByIndices_terminates. repeat constructor.
Defined.

(** *** Single-index selectors *)

Lemma map_fst_combine {A B} : forall (l : list A) (m : list B),
  List.length l = List.length m -> map fst (combine l m) = l.
Proof.
  induction l as [|a l IH]; intros [|b m] H; try discriminate;
    [reflexivity|]. cbn [combine map fst]. f_equal. apply IH.
  cbn in H. lia.
Qed.

Lemma sorted_le_NoDup_lt : forall l,
  StronglySorted Z.le l -> NoDup l -> StronglySorted Z.lt l.
Proof.
  induction 1 as [|a l HS IH Ha]; intros Hn; constructor.
  - apply IH. inversion Hn; assumption.
  - inversion Hn as [|? ? Hnotin Hn']; subst.
    rewrite Forall_forall in *. intros x Hx.
    specialize (Ha x Hx). assert (x <> a) by (intros ->; contradiction).
    lia.
Qed.

Lemma select_one_point params st sel r :
  point_selector sel ->
  select_one params st sel = Ok r ->
  recorded st ->
  match r with
  | Next st' => recorded st'
  | Return (_, outRange) => outRange = true
  end.
Proof.
  intros [Hall Hrange] H [Hlk Hnd]. unfold select_one in H.
  rewrite Hall, Hrange in H. cbn [negb] in H.
  destruct (sel_Start sel) as [idx|]; [|discriminate].
  destruct ((idx <? 0) || (idx >? len params - 1)).
  { apply Ok_inj in H. subst r. reflexivity. }
  destruct (mem_Z idx (idxLookup st)) eqn:Em.
  { apply Ok_inj in H. subst r. split; assumption. }
  apply bind_Ok in H. destruct H as (v & _ & H).
  apply Ok_inj in H. subst r. split; cbn [idxLookup selIdx].
  - intros i. rewrite in_app_iff. cbn [In]. rewrite Hlk. tauto.
  - assert (Hnot : ~ In idx (selIdx st)).
    { intros Hin. apply Hlk, mem_Z_true in Hin. congruence. }
    eapply Permutation_NoDup;
      [apply Permutation_cons_append | constructor; assumption].
Qed.

Lemma select_all_point params : forall sels st r,
  Forall point_selector sels ->
  select_all params sels st = Ok r ->
  recorded st ->
  match r with
  | Next st' => recorded st'
  | Return (_, outRange) => outRange = true
  end.
Proof.
  induction sels as [|sel tl IH]; intros st r Hp H Hrec;
    cbn [select_all] in H.
  - apply Ok_inj in H. subst r. exact Hrec.
  - inversion Hp as [|? ? Hsel Htl]; subst.
    apply bind_Ok in H. destruct H as (r1 & H1 & H).
    pose proof (select_one_point params st sel r1 Hsel H1 Hrec) as Hr1.
    destruct r1 as [st1|[st1 o1]].
    + eapply IH; eassumption.
    + apply Ok_inj in H. subst r. exact Hr1.
Qed.

(** X4. Single-index selectors select no index twice: on an axis with
    nothing gathered yet, what the call returns without [outRange] goes
    up strictly. *)
Theorem doSelectionByIndices_points_strict :
  forall E axis tileAxis axis',
    env_ok E ->
    IntersectionIdx axis = [] ->
    IntersectionValues axis = [] ->
    Forall point_selector (IdxSelectors tileAxis) ->
    doSelectionByIndices E axis tileAxis = Ok (axis', false) ->
    StronglySorted Z.lt (IntersectionIdx axis').
Proof.
  intros E axis tileAxis axis' Hok Hi0 Hv0 Hp H.
  assert (Hl : List.length (IntersectionValues axis)
               = List.length (IntersectionIdx axis))
    by (rewrite Hi0, Hv0; reflexivity).
  destruct (doSelectionByIndices_sorted E axis tileAxis axis' Hok Hl H)
    as (Hsorted & Hlen & _).
  apply sorted_le_NoDup_lt; [exact Hsorted|].
  unfold doSelectionByIndices in H.
  destruct (negb (Grid axis =? "enum")%string) eqn:Eg; [discriminate|].
  apply negb_false_iff, String.eqb_eq in Eg.
  fold (sel_init axis) in H.
  apply bind_Ok in H. destruct H as (r & Hr & H).
  assert (Hrec0 : recorded (sel_init axis)).
  { split; cbn [sel_init idxLookup selIdx]; rewrite Hi0;
      [tauto | constructor]. }
  pose proof (select_all_point _ _ _ _ Hp Hr Hrec0) as Hrec.
  destruct r as [st|[st o]].
  - destruct Hrec as [_ Hnd].
    destruct (doSelectionByIndices_returns E axis tileAxis st Hok Eg Hl Hr)
      as (idx & vals & Hd & HP).
    apply bind_Ok in H. destruct H as ([idx' vals'] & Hs & H).
    apply Ok_inj in H. inversion H; subst axis'.
    cbn [set_intersection IntersectionIdx IntersectionValues fst snd] in *.
    destruct (select_all_inv axis _ _ _ Hr (sel_init_inv axis Hl))
      as [Hlst _].
    apply (Permutation_map fst) in HP.
    unfold doSelectionByIndices in Hd. rewrite Eg in Hd.
    change (negb ("enum" =? "enum")%string) with false in Hd.
    cbv iota in Hd. fold (sel_init axis) in Hd. rewrite Hr in Hd.
    cbn [bind] in Hd. rewrite Hs in Hd. cbn [bind fst snd] in Hd.
    apply Ok_inj in Hd. inversion Hd; subst idx vals.
    rewrite !map_fst_combine in HP by congruence.
    eapply Permutation_NoDup; eassumption.
  - apply Ok_inj in H. inversion H; subst. discriminate.
Qed.

Lemma doSelectionByIndices_points_strict_witness :
  exists axis',
    doSelectionByIndices
      env_plain axis8
      (index_axis [point_at 3; point_at 1; point_at 3])
    = Ok (axis', false) /\
    IntersectionIdx axis' = [1; 3] /\
    StronglySorted Z.lt (IntersectionIdx axis').
Proof.
  eexists. split; [vm_compute; reflexivity|]. split; [reflexivity|].
  apply (doSelectionByIndices_points_strict
           env_plain axis8
           (index_axis [point_at 3; point_at 1; point_at 3]) _
           env_plain_ok eq_refl eq_refl).
  - repeat constructor.
  - vm_compute. reflexivity.
Defined.

End MoreSelection.
(** ** More on the expansion *)

Section MoreExpansion.
Import Indexer.

Lemma rval_top : forall r rl,
  List.length r = List.length rl -> r <> [] ->
  (last r O * combinations (removelast rl) <= rval r rl)%nat.
Proof.
  induction r as [|c r IH]; intros rl Hl Hne; [congruence|].
  destruct rl as [|l rl]; [discriminate|].
  destruct r as [|c2 rest].
  - destruct rl; [|discriminate]. cbn. lia.
  - destruct rl as [|l2 lrest]; [discriminate|].
    specialize (IH (l2 :: lrest)).
    change (last (c :: c2 :: rest) O) with (last (c2 :: rest) O).
    change (removelast (l :: l2 :: lrest))
      with (l :: removelast (l2 :: lrest)).
    change (rval (c :: c2 :: rest) (l :: l2 :: lrest))
      with (c + l * rval (c2 :: rest) (l2 :: lrest))%nat.
    unfold combinations in *. cbn [fold_right].
    assert (H : (last (c2 :: rest) O
                 * fold_right Nat.mul 1 (removelast (l2 :: lrest))
                 <= rval (c2 :: rest) (l2 :: lrest))%nat)
      by (apply IH; [cbn in Hl |- *; lia | discriminate]).
    nia.
Qed.

Lemma removelast_rev {A} (l : list A) : removelast (rev l) = rev (tl l).
Proof.
  destruct l as [|a l]; [reflexivity|]. cbn [rev tl].
  apply removelast_last.
Qed.

(** When the first counter has reached its length, the counters stand
    for the number of combinations. *)
Lemma advance_done cnts lens :
  Forall2 lt cnts lens -> cnts <> [] ->
  (hd O lens <= hd O (advance cnts lens))%nat ->
  rval (rev (advance cnts lens)) (rev lens) = combinations lens.
Proof.
  intros HF Hne Hge.
  destruct (advance_spec cnts lens HF Hne) as (Hlen & Hval & _).
  pose proof (rval_bound _ _ (Forall2_rev_lt _ _ HF)) as Hb.
  rewrite prod_rev in Hb.
  assert (Hl : List.length cnts = List.length lens)
    by (eapply Forall2_length; exact HF).
  pose proof (rval_top (rev (advance cnts lens)) (rev lens)) as Ht.
  rewrite !length_rev, last_rev_hd, removelast_rev, prod_rev in Ht.
  assert (Hne' : rev (advance cnts lens) <> []).
  { intros H. apply (f_equal (@List.length nat)) in H.
    rewrite length_rev, Hlen in H. destruct cnts; [congruence|discriminate]. }
  specialize (Ht ltac:(congruence) Hne').
  destruct lens as [|l0 lens']; [destruct cnts; [congruence|discriminate]|].
  cbn [hd tl] in *. unfold combinations in *. cbn [fold_right] in *.
  nia.
Qed.

Lemma expand_one_count E geoReq ds ns cnts x x' :
  expand_one E geoReq ds false ns cnts x = Ok x' ->
  List.length (granList x') = S (List.length (granList x)).
Proof.
  unfold expand_one. intros H.
  apply bind_Ok in H. destruct H as (c & _ & H).
  apply Ok_inj in H. subst x'. cbn [granList negb orb].
  rewrite length_app. cbn. lia.
Qed.

Lemma expand_loop_count E geoReq ds ns : forall fuel cnts x x',
  List.length cnts = List.length (ds_Axes ds) ->
  ((hd O cnts < hd O (axis_lens ds))%nat \/
   rval (rev cnts) (rev (axis_lens ds)) = combinations (axis_lens ds)) ->
  expand_loop fuel E geoReq ds false ns cnts x = Ok x' ->
  (List.length (granList x') + rval (rev cnts) (rev (axis_lens ds))
   = List.length (granList x) + combinations (axis_lens ds))%nat.
Proof.
  induction fuel as [|f IH]; intros cnts x x' Hl Hpre H;
    cbn [expand_loop] in H;
    (destruct cnts as [|c0 cnts'] eqn:Ecn; [discriminate|]);
    (destruct (axis_lens ds) as [|l0 lens'] eqn:El; [discriminate|]);
    (destruct (c0 <? l0)%nat eqn:Ec;
     [|apply Ok_inj in H; subst x'; apply Nat.ltb_ge in Ec;
       destruct Hpre as [Hpre|Hpre]; [cbn [hd] in Hpre; lia | lia]]);
    [discriminate|].
  apply bind_Ok in H. destruct H as (x1 & H1 & H).
  pose proof (expand_one_valid _ _ _ _ _ _ _ _ Hl H1) as HV.
  rewrite El in HV.
  pose proof (expand_one_count _ _ _ _ _ _ _ H1) as Hc1.
  destruct (advance_spec (c0 :: cnts') (l0 :: lens') HV)
    as (Hlen & Hval & Hvalid); [discriminate|].
  pose proof (rval_bound _ _ (Forall2_rev_lt _ _ HV)) as Hb.
  rewrite prod_rev in Hb.
  assert (Hnext :
            (hd O (advance (c0 :: cnts') (l0 :: lens')) < hd O (l0 :: lens'))%nat
            \/ rval (rev (advance (c0 :: cnts') (l0 :: lens')))
                    (rev (l0 :: lens'))
               = combinations (l0 :: lens')).
  { destruct (Nat.lt_ge_cases
                (hd O (advance (c0 :: cnts') (l0 :: lens')))
                (hd O (l0 :: lens'))) as [Hlt|Hge]; [left; exact Hlt|].
    right. apply advance_done; [exact HV | discriminate | exact Hge]. }
  assert (Hl' : List.length (advance (c0 :: cnts') (l0 :: lens'))
                = List.length (ds_Axes ds)) by congruence.
  specialize (IH _ _ _ Hl' Hnext H).
  rewrite Hval in IH. lia.
Qed.

(** X2. One granule for every combination: a dataset that is not out of
    range adds as many granules as the product of the numbers of indices
    selected on its axes, unless the request is for the empty tile. *)
Theorem expand_dataset_count : forall E geoReq x ds x',
  expand_dataset E geoReq false x ds = Ok x' ->
  List.length (granList x')
  = (List.length (granList x)
     + if IsOutRange ds then 0 else combinations (axis_lens ds))%nat.
Proof.
  intros E geoReq x ds x' H. unfold expand_dataset in H.
  destruct (IsOutRange ds).
  - apply Ok_inj in H. subst x'. lia.
  - destruct (ds_Axes ds) as [|a axes] eqn:Ea.
    { cbn [List.length repeat expand_loop] in H. discriminate. }
    rewrite <- Ea in H. apply expand_loop_count in H.
    + rewrite rev_repeat, rval_zeros in H. lia.
    + apply repeat_length.
    + unfold axis_lens. rewrite Ea. cbn [map List.length repeat hd].
      destruct (List.length (IntersectionIdx a)) as [|n] eqn:En.
      * right.
        change (O :: repeat O (List.length axes))
          with (repeat O (S (List.length axes))).
        rewrite rev_repeat, rval_zeros.
        unfold combinations. cbn [fold_right]. lia.
      * left. lia.
Qed.

Lemma expand_dataset_count_witness :
  exists x',
    expand_dataset env_plain request_all false expansion0 dataset_selected
    = Ok x' /\
    List.length (granList x') = 6%nat.
Proof.
  destruct (expand_dataset env_plain request_all false expansion0
                           dataset_selected) as [x'|e|m] eqn:H.
  - exists x'. split; [reflexivity|].
    rewrite (expand_dataset_count _ _ _ _ _ H). reflexivity.
  - vm_compute in H. discriminate.
  - vm_compute in H. discriminate.
Defined.

End MoreExpansion.
(** ** More on sending and cancellation *)

Section MoreSending.
Import Indexer.

Lemma chan_try_send_nonempty c err : chan_try_send c err <> [].
Proof.
  unfold chan_try_send, chan_full, ErrorCap.
  destruct c as [|e0 tl]; cbn; [discriminate|].
  destruct (1 <=? S (List.length tl))%nat; discriminate.
Qed.

(** What the loop that sends needs of [checkCancellation]. *)
Lemma checkCancellation_cases : forall E s,
  (snd (checkCancellation E s) = true ->
   ctx_done s = true \/ Error s <> []) /\
  (snd (checkCancellation E s) = false -> fst (checkCancellation E s) = s).
Proof.
  intros E s. unfold checkCancellation, select_cancel.
  destruct (Error s) as [|err rest] eqn:He.
  - destruct (ctx_done s) eqn:Hc; cbn [fst snd].
    + split; [auto | discriminate].
    + split; [discriminate | reflexivity].
  - destruct (ctx_done s && select_ctx_first E); cbn [fst snd];
      (split; [intros _; right; discriminate | discriminate]).
Qed.

(** X7. [checkCancellation] reports a cancellation exactly when the
    context is done or an error is queued; it then leaves an error on
    the channel, and it never sends a granule or makes a query. Without
    a cancellation it changes nothing. *)
Theorem checkCancellation_true_iff : forall E s,
  (snd (checkCancellation E s) = true <->
   ctx_done s = true \/ Error s <> []) /\
  (snd (checkCancellation E s) = true ->
   Error (fst (checkCancellation E s)) <> []) /\
  (snd (checkCancellation E s) = false -> fst (checkCancellation E s) = s) /\
  Out (fst (checkCancellation E s)) = Out s /\
  Queries (fst (checkCancellation E s)) = Queries s.
Proof.
  intros E s. unfold checkCancellation, select_cancel.
  destruct (Error s) as [|err rest] eqn:He.
  - destruct (ctx_done s) eqn:Hc; cbn [fst snd].
    + split; [split; [auto | reflexivity]|].
      split; [intros _; apply chan_try_send_nonempty|].
      split; [discriminate|]. split; reflexivity.
    + split; [split; [discriminate | intros [H|H]; congruence]|].
      split; [discriminate|]. split; [reflexivity|]. split; reflexivity.
  - destruct (ctx_done s && select_ctx_first E); cbn [fst snd];
      (split; [split; [intros _; right; discriminate | reflexivity]|]);
      (split; [intros _; apply chan_try_send_nonempty|]);
      (split; [discriminate|]); split; reflexivity.
Qed.



Lemma checkCancellation_true_iff_witness :
  snd (checkCancellation env_plain state_queued) = true /\
  Error (fst (checkCancellation env_plain state_queued)) <> [].
Proof.
  destruct (checkCancellation_true_iff env_plain state_queued)
    as (Hiff & Herr & _).
  assert (H : snd (checkCancellation env_plain state_queued) = true)
    by (apply Hiff; right; discriminate).
  split; [exact H | exact (Herr H)].
Defined.

(** X9. A response without datasets: one empty tile is sent, the query is
    logged, and the error channel is left as it is. *)
Theorem URLIndexGet_no_datasets :
  forall E s url geoReq isEmptyTile metadata,
    GDALDatasets metadata = [] ->
    exists s',
      URLIndexGet E s url geoReq isEmptyTile (Parsed metadata)
      = Ok (s', geoReq) /\
      Out s' = Out s ++ [empty_tile E geoReq] /\
      Error s' = Error s /\
      Queries s' = Queries s ++ [url].
Proof.
  intros E s url geoReq isEmptyTile metadata H. unfold URLIndexGet.
  rewrite H. eexists. split; [reflexivity|]. repeat split.
Qed.

Lemma URLIndexGet_no_datasets_witness :
  exists s',
    URLIndexGet env_plain state0
                {| u_address := "mas:8888"; u_collection := "/c";
                   u_time := 0; u_until := None; u_srs := "EPSG:3857";
                   u_wkt := None; u_namespace := "B"; u_nseg := 2;
                   u_limit := 0 |}
                request_all false (Parsed (response []))
    = Ok (s', request_all) /\
    List.length (Out s') = 1%nat /\ Error s' = [].
Proof.
  destruct (URLIndexGet_no_datasets
              env_plain state0
              {| u_address := "mas:8888"; u_collection := "/c";
                 u_time := 0; u_until := None; u_srs := "EPSG:3857";
                 u_wkt := None; u_namespace := "B"; u_nseg := 2;
                 u_limit := 0 |}
              request_all false (response []) eq_refl)
    as (s' & H & Ho & He & _).
  exists s'. split; [exact H|]. rewrite Ho, He. split; reflexivity.
Defined.

End MoreSending.
(** ** More on the scaler *)

Section MoreScaler.
Import Scaler.

(** *** No-data samples in the branches that allocate *)

Lemma scale_int_loop_nodata E k nd clip tr src dst :
  src <> dst ->
  forall n i h h' l l2,
    scale_int_loop E k nd clip tr src dst n i h = (h', None) ->
    heap_ints h src = Some l ->
    heap_ints h dst = Some l2 ->
    exists l2',
      heap_ints h' dst = Some l2' /\
      (forall j, (j < i)%nat -> nth_error l2' j = nth_error l2 j) /\
      (forall j, (i <= j < i + n)%nat -> nth_error l j = Some nd ->
                 nth_error l2' j = Some 255).
Proof.
  intros Hne. induction n as [|n IH]; intros i h h' l l2 H Hl Hl2;
    simpl in H.
  - inversion H; subst. exists l2. repeat split; auto. intros; lia.
  - unfold read_int in H. rewrite Hl in H.
    destruct (nth_error l i) as [v|] eqn:Ev; [|discriminate].
    destruct (scale_int_px E k nd clip tr v) as [c|m|m] eqn:Epx;
      try discriminate.
    destruct (write_int h dst i c) as [h1|] eqn:Ew; [|discriminate].
    destruct (write_int_spec _ _ _ _ _ Ew)
      as (_ & Hfr & l0 & l1 & Hl0 & Hs & Hl1).
    assert (l0 = l2) by congruence. subst l0.
    destruct (list_set_spec _ _ _ _ Hs) as (Hlen & Hi & Ho).
    assert (Hsrc : heap_ints h1 src = Some l)
      by (rewrite <- Hl; apply heap_ints_frame, Hfr, Hne).
    destruct (IH _ _ _ _ _ H Hsrc Hl1) as (l2' & Hl2' & Hlow & Hnd).
    exists l2'. split; [exact Hl2'|]. split.
    + intros j Hj. rewrite Hlow by lia. apply Ho. lia.
    + intros j Hj Hjnd.
      destruct (Nat.eq_dec j i) as [->|Hji].
      * rewrite Hlow by lia. rewrite Hi.
        assert (v = nd) by congruence. subst v.
        unfold scale_int_px in Epx. rewrite Z.eqb_refl in Epx.
        congruence.
      * apply Hnd; [lia | exact Hjnd].
Qed.

Lemma scale_f32_loop_nodata E cs nd64 nd clip tr src dst :
  forall n i h h' l l2,
    scale_f32_loop E cs nd64 nd clip tr src dst n i h = (h', None) ->
    heap_f32s h src = Some l ->
    heap_ints h dst = Some l2 ->
    exists l2',
      heap_ints h' dst = Some l2' /\
      (forall j, (j < i)%nat -> nth_error l2' j = nth_error l2 j) /\
      (forall j v, (i <= j < i + n)%nat -> nth_error l j = Some v ->
                   f_eq v nd = true -> nth_error l2' j = Some 255).
Proof.
  induction n as [|n IH]; intros i h h' l l2 H Hl Hl2; simpl in H.
  - inversion H; subst. exists l2. repeat split; auto. intros; lia.
  - unfold read_f32 in H. rewrite Hl in H.
    destruct (nth_error l i) as [v|] eqn:Ev; [|discriminate].
    destruct (write_int h dst i _) as [h1|] eqn:Ew; [|discriminate].
    destruct (write_int_spec _ _ _ _ _ Ew)
      as (_ & Hfr & l0 & l1 & Hl0 & Hs & Hl1).
    assert (l0 = l2) by congruence. subst l0.
    destruct (list_set_spec _ _ _ _ Hs) as (Hlen & Hi & Ho).
    assert (Hne : src <> dst).
    { intros ->. unfold heap_f32s, heap_ints in *.
      destruct (nth_error h dst) as [[?|?]|]; discriminate. }
    assert (Hsrc : heap_f32s h1 src = Some l)
      by (rewrite <- Hl; apply heap_f32s_frame, Hfr, Hne).
    destruct (IH _ _ _ _ _ H Hsrc Hl1) as (l2' & Hl2' & Hlow & Hnd).
    exists l2'. split; [exact Hl2'|]. split.
    + intros j Hj. rewrite Hlow by lia. apply Ho. lia.
    + intros j w Hj Hjw Heq.
      destruct (Nat.eq_dec j i) as [->|Hji].
      * rewrite Hlow by lia. rewrite Hi.
        assert (w = v) by congruence. subst w.
        unfold scale_f32_px. rewrite Heq. reflexivity.
      * eapply Hnd; [lia | exact Hjw | exact Heq].
Qed.

(** X5. In the branches that allocate, a sample equal to the no-data value
    is the byte 255 in the new array: for the integer types the no-data
    value converted to the element type, for [Float32] the no-data value
    converted to [float32] and compared with [==]. *)
Theorem scaleNew_fresh_nodata : forall E h r params t h' out,
  fields r = Some t ->
  is_byte r = false ->
  (Data t < List.length h)%nat ->
  scaleNew E h r params = (h', Ok out) ->
  exists bytes,
    heap_ints h' (Data out) = Some bytes /\
    (forall k data i,
       int_kind r = Some k ->
       heap_ints h (Data t) = Some data ->
       nth_error data i = Some (f2i (conv_undef E) k (NoData t)) ->
       nth_error bytes i = Some 255) /\
    (forall data i v,
       int_kind r = None ->
       heap_f32s h (Data t) = Some data ->
       nth_error data i = Some v ->
       f_eq v (f32_of_f64 (NoData t)) = true ->
       nth_error bytes i = Some 255).
Proof.
  intros E h r params t h' out Hf Hb Ht H.
  assert (Hint : forall k,
             scale_int_fresh E k h t params = (h', Ok out) ->
             exists bytes,
               heap_ints h' (Data out) = Some bytes /\
               forall data i,
                 heap_ints h (Data t) = Some data ->
                 nth_error data i = Some (f2i (conv_undef E) k (NoData t)) ->
                 nth_error bytes i = Some 255).
  { clear H. intros k H. unfold scale_int_fresh in H.
    destruct (make_bytes h _) as [[h1 o1]|e|m] eqn:Em;
      try (inversion H; fail).
    pose proof Em as Em'. unfold make_bytes in Em'.
    destruct (_ <? 0); [discriminate|]. apply Ok_inj in Em'.
    inversion Em'; subst h1 o1. clear Em'.
    rewrite (heap_ints_old _ _ _ Ht) in H.
    destruct (heap_ints h (Data t)) as [data|] eqn:Ed;
      [|inversion H].
    match type of H with finish _ _ ?r = _ =>
      destruct r as [h2 p] eqn:El end.
    unfold finish in H. cbn [fst snd] in H.
    destruct p as [m|]; inversion H; subst h2 out. cbn [Data].
    destruct (scale_int_loop_nodata _ _ _ _ _ (Data t) (List.length h)
                ltac:(lia) _ _ _ _ data _ El
                ltac:(rewrite (heap_ints_old _ _ _ Ht); exact Ed)
                (heap_ints_new h _))
      as (bytes & Hbytes & _ & Hnd).
    exists bytes. split; [exact Hbytes|].
    intros data0 i Hd0 Hi. inversion Hd0; subst data0.
    apply Hnd; [|exact Hi].
    assert (i < List.length data)%nat by (apply nth_error_Some; congruence).
    lia. }
  destruct r as [u|u|u|u|u|]; cbn [fields] in Hf; inversion Hf; subst u;
    cbn [is_byte] in Hb; try discriminate; cbn [scaleNew] in H;
    cbn [int_kind].
  1-3: destruct (Hint _ H) as (bytes & Hbytes & Hnd);
       exists bytes; (split; [exact Hbytes|]);
       (split; [|discriminate]);
       intros k data i Hk;
       (apply (f_equal (fun x => match x with Some z => z | None => KInt end))
          in Hk); cbv beta iota in Hk; subst k; apply Hnd.
  clear Hint. unfold scale_float32 in H.
  destruct (make_bytes h _) as [[h1 o1]|e|m] eqn:Em; try (inversion H; fail).
  pose proof Em as Em'. unfold make_bytes in Em'.
  destruct (_ <? 0); [discriminate|]. apply Ok_inj in Em'.
  inversion Em'; subst h1 o1. clear Em'.
  rewrite (heap_f32s_old _ _ _ Ht) in H.
  destruct (heap_f32s h (Data t)) as [data|] eqn:Ed; [|inversion H].
  cbv zeta in H.
  match type of H with finish _ _ ?r = _ =>
    destruct r as [h2 p] eqn:El end.
  unfold finish in H. cbn [fst snd] in H.
  destruct p as [m|]; inversion H; subst h2 out. cbn [Data].
  destruct (scale_f32_loop_nodata _ _ _ _ _ _ (Data t) (List.length h)
              _ _ _ _ data _ El
              ltac:(rewrite (heap_f32s_old _ _ _ Ht); exact Ed)
              (heap_ints_new h _))
    as (bytes & Hbytes & _ & Hnd).
  exists bytes. split; [exact Hbytes|]. split; [discriminate|].
  intros data0 i v _ Hd0 Hi Heq. inversion Hd0; subst data0.
  eapply Hnd; [|exact Hi | exact Heq].
  assert (i < List.length data)%nat by (apply nth_error_Some; congruence).
  lia.
Qed.

Lemma scaleNew_fresh_nodata_witness :
  exists h' out bytes,
    scaleNew env0 [IntBuf [5; -1; 7]] (Int16Raster (raster1 0%nat 3 (-1)))
             params_auto
    = (h', Ok out) /\
    heap_ints h' (Data out) = Some bytes /\
    nth_error bytes 1 = Some 255.
Proof.
  destruct (scaleNew env0 [IntBuf [5; -1; 7]]
                     (Int16Raster (raster1 0%nat 3 (-1))) params_auto)
    as [h' [out|e|m]] eqn:H.
  - destruct (scaleNew_fresh_nodata
                env0 [IntBuf [5; -1; 7]]
                (Int16Raster (raster1 0%nat 3 (-1))) params_auto
                (raster1 0%nat 3 (-1)) h' out
                eq_refl eq_refl (Nat.lt_0_succ 0) H)
      as (bytes & Hb & Hnd & _).
    exists h', out, bytes. split; [reflexivity|]. split; [exact Hb|].
    apply (Hnd KInt16 [5; -1; 7] 1%nat eq_refl eq_refl).
    vm_compute. reflexivity.
  - vm_compute in H. discriminate.
  - vm_compute in H. discriminate.
Defined.

(** *** [ScaleNew] *)

Lemma scaleNew_Err E h r params h' m :
  scaleNew E h r params = (h', Err m) ->
  r = OtherRaster /\ m = "Raster type not implemented" /\ h' = h.
Proof.
  assert (Hfin : forall t d x hh mm, finish t d x <> (hh, Err mm)).
  { intros t d x hh mm. unfold finish. destruct (snd x); intros H;
      inversion H. }
  destruct r as [t|t|t|t|t|]; cbn [scaleNew];
    unfold scale_int_fresh, scale_byte, scale_float32.
  1,3,4: destruct (make_bytes h _) as [[h1 o1]|e|m1] eqn:Em;
    [destruct (heap_ints h1 (Data t));
     [intros H; exfalso; eapply Hfin; exact H | intros H; inversion H]
    | unfold make_bytes in Em; destruct (_ <? 0); discriminate
    | intros H; inversion H].
  - destruct (heap_ints h (Data t));
      [intros H; exfalso; eapply Hfin; exact H | intros H; inversion H].
  - destruct (make_bytes h _) as [[h1 o1]|e|m1] eqn:Em;
      [destruct (heap_f32s h1 (Data t));
       [intros H; exfalso; eapply Hfin; exact H | intros H; inversion H]
      | unfold make_bytes in Em; destruct (_ <? 0); discriminate
      | intros H; inversion H].
  - intros H. inversion H. auto.
Qed.

Lemma ScaleNew_from_spec E params : forall rs h done h' out st,
  ScaleNew_from E params rs h done = (h', out, st) ->
  List.length out = (List.length done + List.length rs)%nat /\
  (st = Ok tt ->
   exists brs, out = done ++ map Some brs /\
               List.length brs = List.length rs) /\
  (forall m, st = Err m ->
     m = "Raster type not implemented" /\
     exists brs post,
       out = done ++ map Some brs ++ repeat None (S (List.length post)) /\
       rs = firstn (List.length brs) rs ++ OtherRaster :: post).
Proof.
  induction rs as [|r tl IH]; intros h done h' out st H;
    cbn [ScaleNew_from] in H.
  - inversion H; subst. split; [cbn; lia|]. split.
    + intros _. exists []. rewrite app_nil_r. split; reflexivity.
    + intros m Hm. discriminate.
  - destruct (scaleNew E h r params) as [h1 [br|m1|m1]] eqn:Es.
    + destruct (IH _ _ _ _ _ H) as (Hlen & Hok & Herr).
      split; [rewrite Hlen, length_app; cbn; lia|]. split.
      * intros Hst. destruct (Hok Hst) as (brs & -> & Hl).
        exists (br :: brs). rewrite <- app_assoc. cbn [map app List.length].
        split; [reflexivity | lia].
      * intros m Hm. destruct (Herr m Hm) as (-> & brs & post & -> & Hrs).
        split; [reflexivity|]. exists (br :: brs), post.
        rewrite <- app_assoc. cbn [map app List.length firstn].
        split; [reflexivity|]. f_equal. exact Hrs.
    + inversion H; subst. apply scaleNew_Err in Es.
      destruct Es as (-> & -> & _).
      split; [rewrite length_app; cbn [List.length repeat];
             try rewrite repeat_length; lia|]. split.
      * discriminate.
      * intros m Hm. inversion Hm; subst m. split; [reflexivity|].
        exists [], tl. cbn [map app List.length firstn].
        split; reflexivity.
    + inversion H; subst.
      split; [rewrite length_app; cbn [List.length repeat];
             try rewrite repeat_length; lia|].
      split; [discriminate|]. intros m Hm. discriminate.
Qed.

(** X6. [ScaleNew] returns as many entries as it was given rasters. When it
    returns without an error every entry is a raster. It returns an error
    only for a raster of a type that [scaleNew] does not know; the entries
    before that raster are rasters, and that entry and the ones behind it
    are [nil]. *)
Theorem ScaleNew_entries : forall E h rs params h' out st,
  ScaleNew E h rs params = (h', out, st) ->
  List.length out = List.length rs /\
  (st = Ok tt ->
   exists brs, out = map Some brs /\ List.length brs = List.length rs) /\
  (forall m, st = Err m ->
     m = "Raster type not implemented" /\
     exists brs post,
       out = map Some brs ++ repeat None (S (List.length post)) /\
       rs = firstn (List.length brs) rs ++ OtherRaster :: post).
Proof.
  intros E h rs params h' out st H. unfold ScaleNew in H.
  destruct (ScaleNew_from_spec E params rs h [] h' out st H)
    as (Hlen & Hok & Herr).
  split; [exact Hlen|]. split; [exact Hok | exact Herr].
Qed.

Lemma ScaleNew_entries_witness :
  exists h' out,
    ScaleNew env0 [IntBuf [5; 255; 7]]
             [ByteRaster (raster1 0%nat 3 255); OtherRaster;
              ByteRaster (raster1 0%nat 3 255)]
             params_auto
    = (h', out, Err "Raster type not implemented") /\
    List.length out = 3%nat.
Proof.
  destruct (ScaleNew env0 [IntBuf [5; 255; 7]]
                     [ByteRaster (raster1 0%nat 3 255); OtherRaster;
                      ByteRaster (raster1 0%nat 3 255)]
                     params_auto) as [[h' out] st] eqn:H.
  pose proof (ScaleNew_entries _ _ _ _ _ _ _ H) as (Hlen & _ & _).
  exists h', out. split; [|exact Hlen].
  vm_compute in H. inversion H; subst. reflexivity.
Defined.

End MoreScaler.
(** ** More on the requests: the time axis and the tiles *)

Section MoreRun.
Import Indexer.

(** *** The time axis of the request *)

Lemma f_le_refl a : is_nan a = false -> f_le a a = true.
Proof.
  intros Ha.
  assert (C : f_lt a a = true \/ f_lt a a = true \/ f_eq a a = true)
    by (apply not_nan_comparable; assumption).
  pose proof (f_le_total a a C) as H.
  destruct (f_le a a); [reflexivity | apply H; reflexivity].
Qed.

Lemma f_not_lt_le a b :
  is_nan a = false -> is_nan b = false -> f_lt a b = false -> f_le b a = true.
Proof.
  intros Ha Hb H. unfold f_lt, f_le, SFltb, SFleb in *.
  rewrite (SFcompare_antisym a b).
  destruct (not_nan_comparable a b Ha Hb) as [H1|[H1|H1]];
    unfold f_lt, f_eq, SFltb, SFeqb in H1;
    try rewrite (SFcompare_antisym a b) in H1;
    destruct (SFcompare a b) as [[| |]|]; cbn in *; congruence.
Qed.

Lemma time_minmax_inv : forall vals i mn mx seen,
  Forall (fun v => is_nan v = false) vals ->
  (i = O -> seen = []) ->
  (i <> O ->
   In mn seen /\ In mx seen /\ is_nan mn = false /\ is_nan mx = false /\
   Forall (fun v => f_le mn v = true /\ f_le v mx = true) seen) ->
  (vals <> [] \/ i <> O) ->
  In (fst (time_minmax vals i (mn, mx))) (seen ++ vals) /\
  In (snd (time_minmax vals i (mn, mx))) (seen ++ vals) /\
  Forall (fun v => f_le (fst (time_minmax vals i (mn, mx))) v = true /\
                   f_le v (snd (time_minmax vals i (mn, mx))) = true)
         (seen ++ vals).
Proof.
  induction vals as [|val tl IH]; intros i mn mx seen Hn H0 Hi Hne.
  - cbn [time_minmax fst snd]. rewrite app_nil_r.
    destruct Hne as [Hne|Hne]; [congruence|].
    destruct (Hi Hne) as (A & B & _ & _ & C). auto.
  - inversion Hn as [|? ? Hv Htl]; subst. cbn [time_minmax fst snd].
    replace (seen ++ val :: tl) with ((seen ++ [val]) ++ tl)
      by (rewrite <- app_assoc; reflexivity).
    destruct (Nat.eqb i 0) eqn:Ei.
    + apply Nat.eqb_eq in Ei. rewrite (H0 Ei). cbn [app].
      apply (IH (S i) val val [val] Htl); [discriminate | | right; discriminate].
      intros _. cbn [In]. repeat split; auto.
      constructor; [|constructor].
      split; apply f_le_refl; exact Hv.
    + apply Nat.eqb_neq in Ei.
      destruct (Hi Ei) as (Imn & Imx & Nmn & Nmx & HF).
      assert (Hmm : f_le mn mx = true).
      { rewrite Forall_forall in HF. apply (HF mn Imn). }
      destruct (f_lt val mn) eqn:E1.
      * apply (IH (S i) val mx (seen ++ [val]) Htl);
          [discriminate | | right; discriminate].
        intros _. repeat split; auto.
        -- apply in_or_app. right. left. reflexivity.
        -- apply in_or_app. left. exact Imx.
        -- apply Forall_app. split.
           ++ eapply Forall_impl; [|exact HF]. cbv beta.
              intros a [A B]. split; [|exact B].
              eapply f_le_trans; [apply f_lt_le; exact E1 | exact A].
           ++ constructor; [|constructor]. split.
              ** apply f_le_refl. exact Hv.
              ** eapply f_le_trans; [apply f_lt_le; exact E1 | exact Hmm].
      * change (f_gt val mx) with (f_lt mx val).
        destruct (f_lt mx val) eqn:E2.
        -- apply (IH (S i) mn val (seen ++ [val]) Htl);
             [discriminate | | right; discriminate].
           intros _. repeat split; auto.
           ++ apply in_or_app. left. exact Imn.
           ++ apply in_or_app. right. left. reflexivity.
           ++ apply Forall_app. split.
              ** eapply Forall_impl; [|exact HF]. cbv beta.
                 intros a [A B]. split; [exact A|].
                 eapply f_le_trans; [exact B | apply f_lt_le; exact E2].
              ** constructor; [|constructor]. split.
                 --- eapply f_le_trans; [exact Hmm | apply f_lt_le; exact E2].
                 --- apply f_le_refl. exact Hv.
        -- apply (IH (S i) mn mx (seen ++ [val]) Htl);
             [discriminate | | right; discriminate].
           intros _. repeat split; auto.
           ++ apply in_or_app. left. exact Imn.
           ++ apply in_or_app. left. exact Imx.
           ++ apply Forall_app. split; [exact HF|].
              constructor; [|constructor]. split.
              ** apply f_not_lt_le; assumption.
              ** apply f_not_lt_le; assumption.
Qed.

(** X10. The scan of the values of the request's time axis gives the least
    and the greatest of them, when they are numbers. *)
Theorem time_minmax_bounds : forall vals z,
  vals <> [] ->
  Forall (fun v => is_nan v = false) vals ->
  In (fst (time_minmax vals 0 (z, z))) vals /\
  In (snd (time_minmax vals 0 (z, z))) vals /\
  Forall (fun v => f_le (fst (time_minmax vals 0 (z, z))) v = true /\
                   f_le v (snd (time_minmax vals 0 (z, z))) = true) vals.
Proof.
  intros vals z Hne Hn.
  apply (time_minmax_inv vals 0 z z [] Hn); auto. congruence.
Qed.

Lemma time_minmax_bounds_witness :
  In (fst (time_minmax (map f64_of_Z [30; 10; 20]) 0 (f_zero, f_zero)))
     (map f64_of_Z [30; 10; 20]) /\
  time_minmax (map f64_of_Z [30; 10; 20]) 0 (f_zero, f_zero)
  = (f64_of_Z 10, f64_of_Z 30).
Proof.
  destruct (time_minmax_bounds (map f64_of_Z [30; 10; 20]) f_zero
              ltac:(discriminate) ltac:(repeat constructor)) as (H & _).
  split; [exact H | vm_compute; reflexivity].
Defined.

(** *** The sub-division into tiles *)

Lemma tile_steps_range size : 1 <= size -> size <= max_of KInt ->
  forall fuel x,
    0 <= x -> (x = 0 \/ size <= x) ->
    (Z.to_nat (256 - x) <= fuel)%nat ->
    tile_steps fuel x size = range_indices x 255 size.
Proof.
  intros Hs Hm. induction fuel as [|f IH]; intros x Hx Hinv Hf.
  - unfold tile_steps. rewrite range_indices_nil by lia. reflexivity.
  - unfold tile_steps; fold tile_steps.
    destruct (x <? 256) eqn:Ex.
    + apply Z.ltb_lt in Ex. rewrite range_indices_cons by lia.
      f_equal.
      assert (Hw : wrapK KInt (x + size) = x + size).
      { apply wrapK_in_range. unfold in_range. apply andb_true_intro.
        assert (min_of KInt <= 0) by (vm_compute; discriminate).
        assert (512 <= max_of KInt) by (vm_compute; discriminate).
        split; apply Z.leb_le; lia. }
      rewrite Hw. apply IH; lia.
    + apply Z.ltb_ge in Ex. rewrite range_indices_nil by lia. reflexivity.
Qed.

Lemma max_tile_size_range E size :
  1 <= max_tile_size E size <= max_of KInt.
Proof.
  unfold max_tile_size. cbv zeta.
  pose proof (f2i_range (conv_undef E) KInt
                        (f64_mul (f64_of_Z 256) size)) as Hr.
  unfold in_range in Hr. apply andb_prop in Hr. destruct Hr as [_ Hr].
  apply Z.leb_le in Hr.
  assert (256 <= max_of KInt) by (vm_compute; discriminate).
  destruct (_ <=? 0) eqn:E0; [lia|]. apply Z.leb_gt in E0. lia.
Qed.

(** X11. The sub-division starts a tile at every multiple of the tile size
    below 256, in each direction: the number of boxes is the product of
    the two numbers of multiples. *)
Theorem tile_bboxes_count : forall E geoReq c xRes yRes,
  let maxX := max_tile_size E (IndexTileXSize (req_Config geoReq)) in
  let maxY := max_tile_size E (IndexTileYSize (req_Config geoReq)) in
  tile_steps 256 0 maxX = range_indices 0 255 maxX /\
  tile_steps 256 0 maxY = range_indices 0 255 maxY /\
  List.length (tile_bboxes E geoReq c xRes yRes)
  = (Z.to_nat (255 / maxY + 1) * Z.to_nat (255 / maxX + 1))%nat.
Proof.
  intros E geoReq c xRes yRes maxX maxY.
  pose proof (max_tile_size_range E (IndexTileXSize (req_Config geoReq)))
    as HX.
  pose proof (max_tile_size_range E (IndexTileYSize (req_Config geoReq)))
    as HY.
  fold maxX in HX. fold maxY in HY.
  assert (SX : tile_steps 256 0 maxX = range_indices 0 255 maxX)
    by (apply tile_steps_range; try lia; cbn; lia).
  assert (SY : tile_steps 256 0 maxY = range_indices 0 255 maxY)
    by (apply tile_steps_range; try lia; cbn; lia).
  split; [exact SX|]. split; [exact SY|].
  unfold tile_bboxes. cbv zeta. fold maxX maxY. rewrite SX, SY.
  assert (Hlen : forall (l : list Z) n,
             List.length
               (flat_map
                  (fun y =>
                     map (fun x => tile_bbox c xRes yRes maxX maxY x y)
                         (range_indices 0 255 n)) l)
             = (List.length l * List.length (range_indices 0 255 n))%nat).
  { induction l as [|y l IHl]; intros n; cbn [flat_map List.length];
      [reflexivity|].
    rewrite length_app, length_map, IHl. lia. }
  rewrite Hlen. unfold range_indices. rewrite !length_map, !length_seq.
  rewrite !Z.sub_0_r. reflexivity.
Qed.

End MoreRun.
(** ** More on the complexity check *)

Section MoreConfig.
Import Config.

Lemma first_error_None {T} (check : T -> option BandMathError) l :
  first_error check l = None <-> Forall (fun x => check x = None) l.
Proof.
  induction l as [|x l IH]; cbn [first_error].
  - split; [constructor | reflexivity].
  - destruct (check x) eqn:E.
    + split; [discriminate|]. intros H. inversion H; congruence.
    + rewrite IH. split; [intros H; constructor; assumption|].
      intros H. inversion H; assumption.
Qed.

Lemma mem_string_In s l : mem_string s l = true <-> In s l.
Proof.
  induction l as [|x l IH]; cbn [mem_string In].
  - split; [discriminate | contradiction].
  - rewrite orb_true_iff, IH, String.eqb_eq. intuition congruence.
Qed.

Lemma check_variable_None criteria tok :
  check_variable criteria tok = None <->
  (is_VARIABLE (Kind tok) = true ->
   exists name, Value tok = DString name /\
                In name (VariableLookup criteria)).
Proof.
  unfold check_variable. destruct (is_VARIABLE (Kind tok)).
  - destruct (Value tok) eqn:Ev;
      try (split; [discriminate|];
           intros H; destruct (H eq_refl) as (n & Hn & _); discriminate).
    destruct (mem_string s (VariableLookup criteria)) eqn:Em.
    + split; [|reflexivity]. intros _ _. exists s. split; [reflexivity|].
      apply mem_string_In. exact Em.
    + split; [discriminate|]. intros H.
      destruct (H eq_refl) as (n & Hn & Hin). inversion Hn; subst n.
      apply mem_string_In in Hin. congruence.
  - split; [intros _; discriminate | reflexivity].
Qed.



End MoreConfig.
(** ** More on the selection by value and the axis mapping *)

Section MoreRange.
Import Indexer.

Lemma In_combine_seq {A} : forall (l : list A) a i v,
  In (i, v) (combine (seq a (List.length l)) l) <->
  (a <= i)%nat /\ nth_error l (i - a) = Some v.
Proof.
  induction l as [|x l IH]; intros a i v; cbn [List.length seq combine In].
  - split; [contradiction|]. intros [_ H]. destruct (i - a)%nat; discriminate.
  - rewrite IH. split.
    + intros [H|[H1 H2]].
      * inversion H; subst. rewrite Nat.sub_diag. split; [lia | reflexivity].
      * split; [lia|]. replace (i - a)%nat with (S (i - S a)) by lia.
        exact H2.
    + intros [H1 H2]. destruct (Nat.eq_dec i a) as [->|Hne].
      * rewrite Nat.sub_diag in H2. cbn in H2. left. congruence.
      * right. split; [lia|].
        replace (i - a)%nat with (S (i - S a)) in H2 by lia. exact H2.
Qed.

Lemma hits_sorted {A} (f : nat * A -> bool) : forall (l : list A) a,
  StronglySorted Z.lt
    (map (fun p => Z.of_nat (fst p))
         (filter f (combine (seq a (List.length l)) l))) /\
  Forall (fun p => (a <= fst p)%nat)
         (filter f (combine (seq a (List.length l)) l)).
Proof.
  induction l as [|x l IH]; intros a; cbn [List.length seq combine filter].
  - split; constructor.
  - destruct (IH (S a)) as [HS HF].
    assert (HF' : Forall (fun p : nat * A => (a <= fst p)%nat)
                         (filter f (combine (seq (S a) (List.length l)) l))).
    { eapply Forall_impl; [|exact HF]. cbv beta. intros; lia. }
    destruct (f (a, x)); cbn [map].
    + split.
      * constructor; [exact HS|]. rewrite Forall_map.
        eapply Forall_impl; [|exact HF]. cbv beta. cbn [fst]. intros; lia.
      * constructor; [cbn; lia | exact HF'].
    + split; assumption.
Qed.

(** X13. A range of values on an [enum] axis: with a start and an end and no
    value list, on an axis with nothing gathered yet, the selection is
    out of range when the end is below the first parameter or the start
    is above the last one; otherwise it has, in ascending order, exactly
    the indices whose parameter is at least the start and below the
    end, each with its parameter. *)
Theorem doSelectionByRange_interval :
  forall E axis tileAxis geoReq ds startVal endVal p0 rest,
    Grid axis = "enum" ->
    Params axis = p0 :: rest ->
    InValues tileAxis = [] ->
    ta_Start tileAxis = Some startVal ->
    ta_End tileAxis = Some endVal ->
    IntersectionIdx axis = [] ->
    IntersectionValues axis = [] ->
    exists axis' outRange,
      doSelectionByRange E axis tileAxis geoReq ds
      = Ok (axis', tileAxis, outRange) /\
      (outRange = true <->
       f_lt endVal p0 = true \/
       f_gt startVal (last (Params axis) p0) = true) /\
      (outRange = true -> axis' = axis) /\
      (outRange = false ->
       StronglySorted Z.lt (IntersectionIdx axis') /\
       IntersectionValues axis'
       = map (param_at (Params axis)) (IntersectionIdx axis') /\
       forall i,
         In i (IntersectionIdx axis') <->
         (0 <= i <= len (Params axis) - 1 /\
          f_ge (param_at (Params axis) i) startVal = true /\
          f_lt (param_at (Params axis) i) endVal = true)).
Proof.
  intros E axis tileAxis geoReq ds startVal endVal p0 rest
         Hg Hp Hin Hs He Hi0 Hv0.
  unfold doSelectionByRange. rewrite Hg.
  change ("enum" =? "enum")%string with true. cbv iota.
  rewrite Hp, Hin, Hs, He.
  change (0 <? len (@nil float64)) with false. cbn [orb]. cbv iota.
  rewrite Hi0, Hv0. set (P := p0 :: rest).
  destruct (f_lt endVal p0 || f_gt startVal (last P p0)) eqn:Eo.
  - exists axis, true. split; [reflexivity|].
    split; [split; [intros _; apply orb_prop; exact Eo | reflexivity]|].
    split; [reflexivity | discriminate].
  - eexists. exists false. split; [reflexivity|].
    split.
    { split; [discriminate|]. intros [H|H]; rewrite H in Eo;
        [discriminate | rewrite orb_true_r in Eo; discriminate]. }
    split; [discriminate|]. intros _.
    cbn [set_intersection IntersectionIdx IntersectionValues app].
    set (f := fun p : nat * float64 =>
                f_ge (snd p) startVal && f_lt (snd p) endVal).
    set (hits := filter f (combine (seq 0 (List.length P)) P)).
    assert (Hhit : forall i v,
               In (i, v) hits <->
               nth_error P i = Some v /\
               f_ge v startVal = true /\ f_lt v endVal = true).
    { intros i v. unfold hits. rewrite filter_In, In_combine_seq.
      rewrite Nat.sub_0_r. unfold f. cbn [snd]. rewrite andb_true_iff.
      intuition lia. }
    split; [|split].
    + apply (proj1 (hits_sorted f P 0)).
    + rewrite map_map. apply map_ext_in. intros [i v] Hiv.
      apply Hhit in Hiv. destruct Hiv as (Hn & _). cbn [fst snd].
      unfold param_at. rewrite Nat2Z.id. symmetry.
      apply nth_error_nth. exact Hn.
    + intros i. rewrite in_map_iff. split.
      * intros ([j v] & <- & Hjv). apply Hhit in Hjv.
        destruct Hjv as (Hn & H1 & H2). cbn [fst].
        assert (j < List.length P)%nat
          by (apply nth_error_Some; congruence).
        unfold param_at, len. rewrite Nat2Z.id.
        match goal with |- context [nth j P ?d] =>
          replace (nth j P d) with v
            by (symmetry; apply nth_error_nth; exact Hn) end.
        split; [lia|]. split; assumption.
      * intros (Hr & H1 & H2). unfold len in Hr.
        exists (Z.to_nat i, param_at P i).
        cbn [fst]. split; [lia|]. apply Hhit.
        split; [|split; assumption]. unfold param_at.
        apply nth_error_nth'. lia.
Qed.

Lemma doSelectionByRange_interval_witness :
  exists axis',
    doSelectionByRange
      env_plain axis8
      {| ta_Start := Some (f64_of_Z 12); ta_End := Some (f64_of_Z 15);
         InValues := []; ta_Order := 0; ta_Aggregate := 0;
         IdxSelectors := [] |}
      request_all (dataset "B" [axis8])
    = Ok (axis',
          {| ta_Start := Some (f64_of_Z 12); ta_End := Some (f64_of_Z 15);
             InValues := []; ta_Order := 0; ta_Aggregate := 0;
             IdxSelectors := [] |}, false) /\
    IntersectionIdx axis' = [2; 3; 4] /\
    StronglySorted Z.lt (IntersectionIdx axis').
Proof.
  destruct (doSelectionByRange_interval
              env_plain axis8
              {| ta_Start := Some (f64_of_Z 12); ta_End := Some (f64_of_Z 15);
                 InValues := []; ta_Order := 0; ta_Aggregate := 0;
                 IdxSelectors := [] |}
              request_all (dataset "B" [axis8])
              (f64_of_Z 12) (f64_of_Z 15) (f64_of_Z 10)
              (map f64_of_Z [11; 12; 13; 14; 15; 16; 17])
              eq_refl eq_refl eq_refl eq_refl eq_refl eq_refl eq_refl)
    as (axis' & o & H & _ & _ & Hin).
  assert (H' := H). vm_compute in H'. apply Ok_inj in H'.
  inversion H'; subst axis' o.
  eexists. split; [exact H|]. split; [reflexivity|].
  apply (Hin eq_refl).
Defined.

(** X14. With the axis mapping 0 an axis that the request does not name gets
    the index 0 alone, with order and aggregation 1; with any other
    mapping it gets every index, in ascending order. *)
Theorem select_unmapped_indices : forall geoReq ds axis axis',
  IntersectionIdx axis = [] ->
  select_unmapped geoReq ds axis = Ok axis' ->
  if AxisMapping (req_Config geoReq) =? 0
  then IntersectionIdx axis' = [0] /\ Order axis' = 1 /\
       Aggregate axis' = 1 /\
       List.length (IntersectionValues axis')
       = S (List.length (IntersectionValues axis))
  else
    (Grid axis = "enum" /\
     IntersectionIdx axis'
     = map Z.of_nat (seq 0 (List.length (Params axis))) /\
     Params axis <> []) \/
    (Grid axis = "default" /\
     IntersectionIdx axis'
     = map Z.of_nat (seq 0 (List.length (TimeStamps ds)))).
Proof.
  intros geoReq ds axis axis' Hi0 H. unfold select_unmapped in H.
  rewrite Hi0 in H. cbn [app] in H.
  destruct (AxisMapping (req_Config geoReq) =? 0).
  - destruct (Grid axis =? "enum")%string.
    + destruct (Params axis) as [|p0 ps]; [discriminate|].
      apply Ok_inj in H. subst axis'. cbn. rewrite length_app. cbn.
      repeat split. lia.
    + destruct (Grid axis =? "default")%string; [|discriminate].
      apply bind_Ok in H. destruct H as (t0 & _ & H).
      apply Ok_inj in H. subst axis'. cbn. rewrite length_app. cbn.
      repeat split. lia.
  - destruct (Grid axis =? "enum")%string eqn:Eg.
    + apply String.eqb_eq in Eg.
      destruct (Params axis) as [|p0 ps] eqn:Ep; [discriminate|].
      apply Ok_inj in H. subst axis'. left.
      split; [exact Eg|]. split; [reflexivity | discriminate].
    + destruct (Grid axis =? "default")%string eqn:Ed; [|discriminate].
      apply String.eqb_eq in Ed. apply Ok_inj in H. subst axis'. right.
      split; [exact Ed | reflexivity].
Qed.

Lemma select_unmapped_indices_witness :
  exists axis',
    select_unmapped request_all (dataset "B" [axis8]) axis8 = Ok axis' /\
    IntersectionIdx axis' = [0; 1; 2; 3; 4; 5; 6; 7].
Proof.
  destruct (select_unmapped request_all (dataset "B" [axis8]) axis8)
    as [axis'|e|m] eqn:H.
  - exists axis'. split; [reflexivity|].
    pose proof (select_unmapped_indices
                  request_all (dataset "B" [axis8]) axis8 axis'
                  eq_refl H) as T.
    change (AxisMapping (req_Config request_all) =? 0) with false in T.
    cbv iota in T. destruct T as [(_ & T & _)|(T & _)].
    + exact T.
    + discriminate.
  - vm_compute in H. discriminate.
  - vm_compute in H. discriminate.
Defined.

End MoreRange.
